(** * charconv: the emulated 128-bit integer and the fast_float digit comparison

    A shallow embedding of
    [include/boost/charconv/detail/emulated128.hpp] and
    [include/boost/charconv/detail/fast_float/digit_comparison.hpp].

    Unsigned machine integers are values of [Z] reduced modulo [2^w] at every
    operation that can wrap; [int32_t] values are reduced to the two's
    complement range by [i32].  A shift of a 64-bit value by an amount outside
    [0, 63] has no defined result in C++ and is modelled by [None]. *)

From Stdlib Require Import ZArith Lia List Bool Permutation QArith Qpower Qabs Lqa.
Import ListNotations.
Local Open Scope Z_scope.

(** ** Machine integers *)

Definition u32 (z : Z) : Z := z mod 2 ^ 32.
Definition u64 (z : Z) : Z := z mod 2 ^ 64.

Definition is_u32 (z : Z) : Prop := 0 <= z < 2 ^ 32.
Definition is_u64 (z : Z) : Prop := 0 <= z < 2 ^ 64.

Definition UINT64_MAX : Z := 2 ^ 64 - 1.

(** [int32_t]: the representative of [z] modulo [2^32] in [-2^31, 2^31). *)
Definition i32 (z : Z) : Z := (z + 2 ^ 31) mod 2 ^ 32 - 2 ^ 31.
Definition is_i32 (z : Z) : Prop := - 2 ^ 31 <= z < 2 ^ 31.

(** ** emulated128.hpp *)

Module Emulated128.

(** [struct uint128 { std::uint64_t high; std::uint64_t low; }] *)
Record uint128 : Set := mk_uint128 { high : Z; low : Z }.

Definition uint128_wf (v : uint128) : Prop := is_u64 (high v) /\ is_u64 (low v).

(** The number a [uint128] stands for. *)
Definition to_Z (v : uint128) : Z := high v * 2 ^ 64 + low v.

(** The four preprocessor branches of [uint128::operator+=]. *)
Inductive add_impl : Set :=
| AddBuiltinAddcll      (* BOOST_CHARCONV_HAS_BUILTIN(__builtin_addcll) *)
| AddIa32Addcarryx      (* BOOST_CHARCONV_HAS_BUILTIN(__builtin_ia32_addcarryx_u64) *)
| AddMsvcAddcarry       (* BOOST_MSVC && _M_X64 *)
| AddManual.            (* the portable "did the low sum wrap" check *)

(** Compiler intrinsics, from their documented behaviour.
    [__builtin_addcll x y carryin] gives the 64-bit sum and the carry out. *)
Definition builtin_addcll (x y carryin : Z) : Z * Z :=
  (u64 (x + y + carryin), (x + y + carryin) / 2 ^ 64).

(** [__builtin_ia32_addcarryx_u64 c a b &out] and [_addcarry_u64 c a b &out]
    return the carry out and store the 64-bit sum: (carry, sum). *)
Definition builtin_ia32_addcarryx_u64 (c a b : Z) : Z * Z :=
  ((c + a + b) / 2 ^ 64, u64 (c + a + b)).

Definition addcarry_u64 (c a b : Z) : Z * Z :=
  ((c + a + b) / 2 ^ 64, u64 (c + a + b)).

(** [uint128 &operator+=(std::uint64_t n)] *)
Definition add_assign (impl : add_impl) (self : uint128) (n : Z) : uint128 :=
  match impl with
  | AddBuiltinAddcll =>
      let '(low', carry) := builtin_addcll (low self) n 0 in
      let '(high', _) := builtin_addcll (high self) 0 carry in
      mk_uint128 high' low'
  | AddIa32Addcarryx =>
      let '(carry, result) := builtin_ia32_addcarryx_u64 0 (low self) n in
      let low' := result in
      let '(_, result') := builtin_ia32_addcarryx_u64 carry (high self) 0 in
      mk_uint128 result' low'
  | AddMsvcAddcarry =>
      let '(carry, low') := addcarry_u64 0 (low self) n in
      let '(_, high') := addcarry_u64 carry (high self) 0 in
      mk_uint128 high' low'
  | AddManual =>
      let sum := u64 (low self + n) in
      let high' := u64 (high self + (if sum <? low self then 1 else 0)) in
      mk_uint128 high' sum
  end.

(** The preprocessor branches of [umul64] and [umul128]. *)
Inductive mul64_impl : Set :=
| Mul64Emulu            (* BOOST_CHARCONV_HAS_MSVC_32BIT_INTRINSICS: __emulu *)
| Mul64Native.

Inductive mul_impl : Set :=
| MulInt128             (* BOOST_CHARCONV_HAS_INT128 *)
| MulMsvcIntrinsics     (* BOOST_CHARCONV_HAS_MSVC_64BIT_INTRINSICS *)
| MulArm                (* __arm__ *)
| MulPortable.          (* four 32x32 products *)

(** [__emulu x y]: the 64-bit product of two 32-bit unsigned values. *)
Definition emulu (x y : Z) : Z := u64 (x * y).

Definition umul64 (i : mul64_impl) (x y : Z) : Z :=
  match i with
  | Mul64Emulu => emulu x y
  | Mul64Native => u64 (x * u64 y)
  end.

(** [_umul128 x y &high]: (high, low) of the 128-bit product;
    [__umulh x y]: its high 64 bits. *)
Definition msvc_umul128 (x y : Z) : Z * Z :=
  ((x * y) / 2 ^ 64 mod 2 ^ 64, u64 (x * y)).

Definition umulh (x y : Z) : Z := (x * y) / 2 ^ 64 mod 2 ^ 64.

(** [boost::uint128_type] arithmetic: values modulo [2^128]. *)
Definition u128 (z : Z) : Z := z mod 2 ^ 128.

(** The portable branch shared by [umul128] and [umul128_upper64]:
    the four partial products and the middle column. *)
Definition portable_high (i : mul64_impl) (x y : Z) : Z :=
  let a := u32 (Z.shiftr x 32) in
  let b := u32 x in
  let c := u32 (Z.shiftr y 32) in
  let d := u32 y in
  let ac := umul64 i a c in
  let bc := umul64 i b c in
  let ad := umul64 i a d in
  let bd := umul64 i b d in
  let intermediate := u64 (u64 (Z.shiftr bd 32 + u32 ad) + u32 bc) in
  u64 (u64 (u64 (ac + Z.shiftr intermediate 32) + Z.shiftr ad 32) + Z.shiftr bc 32).

Definition portable_low (i : mul64_impl) (x y : Z) : Z :=
  let a := u32 (Z.shiftr x 32) in
  let b := u32 x in
  let c := u32 (Z.shiftr y 32) in
  let d := u32 y in
  let bc := umul64 i b c in
  let ad := umul64 i a d in
  let bd := umul64 i b d in
  let intermediate := u64 (u64 (Z.shiftr bd 32 + u32 ad) + u32 bc) in
  u64 (u64 (Z.shiftl intermediate 32) + u32 bd).

(** [uint128 umul128(std::uint64_t x, std::uint64_t y)] *)
Definition umul128 (m : mul_impl) (i : mul64_impl) (x y : Z) : uint128 :=
  match m with
  | MulInt128 =>
      let result := u128 (u128 x * u128 y) in
      mk_uint128 (u64 (Z.shiftr result 64)) (u64 result)
  | MulMsvcIntrinsics =>
      let '(high, low) := msvc_umul128 x y in
      mk_uint128 high low
  | MulArm =>
      let high := umulh x y in
      let low := u64 (x * y) in
      mk_uint128 high low
  | MulPortable =>
      mk_uint128 (portable_high i x y) (portable_low i x y)
  end.

(** [std::uint64_t umul128_upper64(std::uint64_t x, std::uint64_t y)];
    it has no [__arm__] branch, so that target takes the portable one. *)
Definition umul128_upper64 (m : mul_impl) (i : mul64_impl) (x y : Z) : Z :=
  match m with
  | MulInt128 =>
      let result := u128 (u128 x * u128 y) in
      u64 (Z.shiftr result 64)
  | MulMsvcIntrinsics => umulh x y
  | MulArm | MulPortable => portable_high i x y
  end.

(** [uint128 umul192_upper128(std::uint64_t x, uint128 y)] *)
Definition umul192_upper128 (m : mul_impl) (i : mul64_impl) (a : add_impl)
    (x : Z) (y : uint128) : uint128 :=
  let r := umul128 m i x (high y) in
  add_assign a r (umul128_upper64 m i x (low y)).

(** [umul192_upper128] with the 64-bit halves added separately and no carry
    between them; only used to show what the carry is for. *)
Definition umul192_upper128_no_carry (m : mul_impl) (i : mul64_impl)
    (x : Z) (y : uint128) : uint128 :=
  let r := umul128 m i x (high y) in
  mk_uint128 (high r) (u64 (low r + umul128_upper64 m i x (low y))).

(** *** Constructors, assignment and conversion

    An integer argument [v] is the value of a C++ integer type no wider than
    64 bits; [static_cast<std::uint64_t>(v)] is [u64 v]. *)

(** [SIGNED_CONSTRUCTOR(expr)]: [explicit uint128(expr v)] for a signed type. *)
Definition uint128_of_signed (v : Z) : uint128 :=
  mk_uint128 (if v <? 0 then UINT64_MAX else 0) (u64 v).

(** [UNSIGNED_CONSTRUCTOR(expr)] *)
Definition uint128_of_unsigned (v : Z) : uint128 :=
  mk_uint128 0 (u64 v).

(** [SIGNED_ASSIGNMENT_OPERATOR(expr)] and [UNSIGNED_ASSIGNMENT_OPERATOR(expr)] *)
Definition assign_signed (self : uint128) (v : Z) : uint128 :=
  mk_uint128 (if v <? 0 then UINT64_MAX else 0) (u64 v).

Definition assign_unsigned (self : uint128) (v : Z) : uint128 :=
  mk_uint128 0 (u64 v).

(** [uint128 &operator=(uint128 v)] *)
Definition assign (self v : uint128) : uint128 :=
  let low' := low v in
  let high' := high v in
  mk_uint128 high' low'.

(** [static_cast<expr>(x)] of a [std::uint64_t] to an integer type of [bits]
    bits: the value modulo [2^bits], in the two's complement range when the
    type is signed. *)
Definition static_cast_int (signed : bool) (bits : Z) (x : Z) : Z :=
  if signed then (x + 2 ^ (bits - 1)) mod 2 ^ bits - 2 ^ (bits - 1)
  else x mod 2 ^ bits.

(** The values of an integer type of [bits] bits. *)
Definition int_range (signed : bool) (bits : Z) (v : Z) : Prop :=
  if signed then - 2 ^ (bits - 1) <= v < 2 ^ (bits - 1) else 0 <= v < 2 ^ bits.

(** [INTEGER_CONVERSION_OPERATOR(expr)]: [explicit operator expr()] *)
Definition to_integer (signed : bool) (bits : Z) (v : uint128) : Z :=
  static_cast_int signed bits (low v).

(** *** Comparison operators *)

(** [operator==(uint128 lhs, uint128 rhs)] and the five that follow it. *)
Definition operator_eq (lhs rhs : uint128) : bool :=
  (high lhs =? high rhs) && (low lhs =? low rhs).

Definition operator_ne (lhs rhs : uint128) : bool :=
  negb (operator_eq lhs rhs).

Definition operator_lt (lhs rhs : uint128) : bool :=
  if high lhs =? high rhs then low lhs <? low rhs
  else high lhs <? high rhs.

Definition operator_le (lhs rhs : uint128) : bool :=
  negb (operator_lt rhs lhs).

Definition operator_gt (lhs rhs : uint128) : bool :=
  operator_lt rhs lhs.

Definition operator_ge (lhs rhs : uint128) : bool :=
  negb (operator_lt lhs rhs).

(** The comparisons with an integer [rhs], one per integer type in the
    source ([INTEGER_OPERATOR_EQUAL(expr)] and the like).  [&&] and [||]
    evaluate left to right; in [lhs.low == rhs] the integer is converted to
    the unsigned 64-bit type of [low]. *)
Definition operator_eq_int (lhs : uint128) (rhs : Z) : bool :=
  (high lhs =? 0) && (rhs >=? 0) && (low lhs =? u64 rhs).

Definition operator_ne_int (lhs : uint128) (rhs : Z) : bool :=
  negb (operator_eq_int lhs rhs).

Definition operator_lt_int (lhs : uint128) (rhs : Z) : bool :=
  (high lhs =? 0) && (rhs >? 0) && (low lhs <? u64 rhs).

Definition operator_le_int (lhs : uint128) (rhs : Z) : bool :=
  (high lhs =? 0) && (rhs >=? 0) && (low lhs <=? u64 rhs).

Definition operator_gt_int (lhs : uint128) (rhs : Z) : bool :=
  (high lhs >? 0) || (rhs <? 0) || (low lhs >? u64 rhs).

Definition operator_ge_int (lhs : uint128) (rhs : Z) : bool :=
  (high lhs >? 0) || (rhs <? 0) || (low lhs >=? u64 rhs).

(** *** The 96-bit products and the low half of the 192-bit product *)

(** [std::uint64_t umul96_upper64(std::uint32_t x, std::uint64_t y)]: with a
    128-bit type or the 64-bit intrinsics it calls [umul128_upper64], elsewhere
    it multiplies the two halves of [y]. *)
Definition umul96_upper64 (m : mul_impl) (i : mul64_impl) (x y : Z) : Z :=
  match m with
  | MulInt128 | MulMsvcIntrinsics =>
      umul128_upper64 m i (u64 (Z.shiftl (u64 x) 32)) y
  | MulArm | MulPortable =>
      let yh := u32 (Z.shiftr y 32) in
      let yl := u32 y in
      let xyh := umul64 i x yh in
      let xyl := umul64 i x yl in
      u64 (xyh + Z.shiftr xyl 32)
  end.

(** [uint128 umul192_lower128(std::uint64_t x, uint128 y)] *)
Definition umul192_lower128 (m : mul_impl) (i : mul64_impl) (x : Z)
    (y : uint128) : uint128 :=
  let high' := u64 (x * high y) in
  let highlow := umul128 m i x (low y) in
  mk_uint128 (u64 (high' + high highlow)) (low highlow).

(** [std::uint64_t umul96_lower64(std::uint32_t x, std::uint64_t y)] *)
Definition umul96_lower64 (x y : Z) : Z := u64 (x * y).

End Emulated128.

(** ** fast_float/digit_comparison.hpp *)

Module FastFloat.

(** A small error monad: [None] is a step whose behaviour C++ leaves
    undefined (a shift count outside [0, 63]) or a loop that ran out of the
    iteration budget it was given. *)
Definition bind {A B : Type} (x : option A) (k : A -> option B) : option B :=
  match x with
  | Some a => k a
  | None => None
  end.

Notation "x <- e ;; k" := (bind e (fun x => k))
  (at level 61, e at next level, right associativity).

(** [x << s] and [x >> s] on [std::uint64_t]. *)
Definition shl64 (x s : Z) : option Z :=
  if (0 <=? s) && (s <? 64) then Some (u64 (Z.shiftl x s)) else None.

Definition shr64 (x s : Z) : option Z :=
  if (0 <=? s) && (s <? 64) then Some (Z.shiftr x s) else None.

(** [while (cond) body;] with an iteration budget. *)
Fixpoint while {S : Type} (fuel : nat) (cond : S -> bool) (body : S -> S)
    (s : S) : option S :=
  if cond s then
    match fuel with
    | O => None
    | Datatypes.S fuel' => while fuel' cond body (body s)
    end
  else Some s.

(** [struct adjusted_mantissa { std::uint64_t mantissa; std::int32_t power2; }] *)
Record adjusted_mantissa : Set := mk_am { mantissa : Z; power2 : Z }.

Definition am_wf (am : adjusted_mantissa) : Prop :=
  is_u64 (mantissa am) /\ is_i32 (power2 am).

(** The constants of [binary_format<T>] that this file reads.  The template is
    declared in float_common.hpp; its values are taken as a parameter. *)
Record binary_format : Set := mk_format {
  mantissa_explicit_bits : Z;
  minimum_exponent : Z;
  infinite_power : Z;
  max_digits : Z;
  exponent_mask : Z;
  mantissa_mask : Z;
  hidden_bit_mask : Z
}.

(** What this development asks of a format: an IEEE layout whose exponent
    field is all ones at [infinite_power], the three masks as that layout has
    them, and [max_digits] large enough that no halfway point between two
    floats has more significant digits and that a number with as many
    integer digits overflows. *)
Definition format_ok (fmt : binary_format) : Prop :=
  let eb := mantissa_explicit_bits fmt in
  1 <= eb <= 62 /\
  - 2 ^ 20 <= minimum_exponent fmt <= -1 /\
  0 <= infinite_power fmt + minimum_exponent fmt /\
  (exists w, 2 <= w <= 20 /\ infinite_power fmt = 2 ^ w - 1) /\
  hidden_bit_mask fmt = 2 ^ eb /\
  mantissa_mask fmt = 2 ^ eb - 1 /\
  exponent_mask fmt = infinite_power fmt * 2 ^ eb /\
  1 <= max_digits fmt < 2 ^ 20 /\
  2 ^ (eb + 1) * 5 ^ (eb - minimum_exponent fmt) <= 10 ^ (max_digits fmt - 1) /\
  2 ^ (infinite_power fmt + minimum_exponent fmt) <= 10 ^ max_digits fmt.

(** IEEE-754 binary64 and binary32. *)
Definition binary64 : binary_format :=
  {| mantissa_explicit_bits := 52;
     minimum_exponent := -1023;
     infinite_power := 2047;
     max_digits := 769;
     exponent_mask := 9218868437227405312;
     mantissa_mask := 4503599627370495;
     hidden_bit_mask := 4503599627370496 |}.


(** [parsed_number_string_t<UC>]: the fields read here.  A span is the list of
    its code units; a span whose [ptr] is null is [None]. *)
Record parsed_number_string : Set := mk_num {
  exponent : Z;
  num_mantissa : Z;
  integer : list Z;
  fraction : option (list Z)
}.

(** *** scientific_exponent *)

Definition sci_cond (d : Z) (s : Z * Z) : bool := fst s >=? d.
Definition sci_body (d k : Z) (s : Z * Z) : Z * Z := (fst s / d, i32 (snd s + k)).

(** One of the three [while (mantissa >= d) { mantissa /= d; exponent += k; }]. *)
Definition sci_loop (d k : Z) (s : Z * Z) : option (Z * Z) :=
  while 64 (sci_cond d) (sci_body d k) s.

Definition scientific_exponent (num : parsed_number_string) : option Z :=
  let mantissa := num_mantissa num in
  let exponent := i32 (exponent num) in
  s1 <- sci_loop 10000 4 (mantissa, exponent) ;;
  s2 <- sci_loop 100 2 s1 ;;
  s3 <- sci_loop 10 1 s2 ;;
  Some (snd s3).

(** The same loops run in a given order, to compare orders. *)
Fixpoint sci_loops (steps : list (Z * Z)) (s : Z * Z) : option (Z * Z) :=
  match steps with
  | [] => Some s
  | (d, k) :: rest => s' <- sci_loop d k s ;; sci_loops rest s'
  end.

Definition scientific_exponent_in_order (steps : list (Z * Z))
    (num : parsed_number_string) : option Z :=
  s <- sci_loops steps (num_mantissa num, i32 (exponent num)) ;;
  Some (snd s).

(** *** round, round_nearest_tie_even, round_down *)

Definition shift_fn : Type := adjusted_mantissa -> Z -> option adjusted_mantissa.

(** [round<T>(am, cb)] *)
Definition round (fmt : binary_format) (am : adjusted_mantissa) (cb : shift_fn)
    : option adjusted_mantissa :=
  let mantissa_shift := i32 (i32 (64 - mantissa_explicit_bits fmt) - 1) in
  if i32 (- power2 am) >=? mantissa_shift then
    let shift := i32 (i32 (- power2 am) + 1) in
    am1 <- cb am (Z.min shift 64) ;;
    one <- shl64 1 (mantissa_explicit_bits fmt) ;;
    Some (mk_am (mantissa am1) (if mantissa am1 <? one then 0 else 1))
  else
    am1 <- cb am mantissa_shift ;;
    two <- shl64 2 (mantissa_explicit_bits fmt) ;;
    one <- shl64 1 (mantissa_explicit_bits fmt) ;;
    let am2 :=
      if mantissa am1 >=? two
      then mk_am one (i32 (power2 am1 + 1))
      else am1 in
    let am3 := mk_am (Z.land (mantissa am2) (u64 (Z.lnot one))) (power2 am2) in
    if power2 am3 >=? infinite_power fmt
    then Some (mk_am 0 (infinite_power fmt))
    else Some am3.

(** The two constants at the head of [round_nearest_tie_even]. *)
Definition discard_mask (shift : Z) : option Z :=
  if shift =? 64 then Some UINT64_MAX
  else (one <- shl64 1 shift ;; Some (u64 (one - 1))).

Definition halfway_bit (shift : Z) : option Z :=
  if shift =? 0 then Some 0 else shl64 1 (i32 (shift - 1)).

Definition tie_fn : Type := bool -> bool -> bool -> bool.

(** [round_nearest_tie_even(am, shift, cb)] *)
Definition round_nearest_tie_even (am : adjusted_mantissa) (shift : Z)
    (cb : tie_fn) : option adjusted_mantissa :=
  mask <- discard_mask shift ;;
  halfway <- halfway_bit shift ;;
  let truncated_bits := Z.land (mantissa am) mask in
  let is_above := truncated_bits >? halfway in
  let is_halfway := truncated_bits =? halfway in
  m <- (if shift =? 64 then Some 0 else shr64 (mantissa am) shift) ;;
  let p := i32 (power2 am + shift) in
  let is_odd := Z.land m 1 =? 1 in
  Some (mk_am (u64 (m + (if cb is_odd is_halfway is_above then 1 else 0))) p).

(** [round_down(am, shift)] *)
Definition round_down (am : adjusted_mantissa) (shift : Z)
    : option adjusted_mantissa :=
  m <- (if shift =? 64 then Some 0 else shr64 (mantissa am) shift) ;;
  Some (mk_am m (i32 (power2 am + shift))).

(** *** The big integer

    Modelled from the spec: the arbitrary-precision unsigned integer of
    bigint.hpp, which is not part of these sources, is the number it holds;
    of its operations the digit comparison uses multiply by a limb, add a
    limb, multiply by a power of 2, 5 or 10, the three-way compare, the bit
    length and the high 64 bits with a truncation flag.  The fixed capacity of
    the container is not modelled: the operations always succeed, which is
    what the assertions around them require. *)
Definition bigint : Set := Z.

Definition bigint_mul (big : bigint) (y : Z) : bigint := big * y.
Definition bigint_add (big : bigint) (y : Z) : bigint := big + y.
Definition bigint_pow2 (big : bigint) (e : Z) : bigint := big * 2 ^ e.
Definition bigint_pow5 (big : bigint) (e : Z) : bigint := big * 5 ^ e.
Definition bigint_pow10 (big : bigint) (e : Z) : bigint := big * 10 ^ e.

Definition bigint_compare (a b : bigint) : Z :=
  match a ?= b with
  | Lt => -1
  | Eq => 0
  | Gt => 1
  end.

Definition bit_length (big : bigint) : Z :=
  if big <=? 0 then 0 else Z.log2 big + 1.

(** The high 64 bits, the leading one moved to bit 63, and whether a nonzero
    bit was left out. *)
Definition hi64 (big : bigint) : Z * bool :=
  let n := bit_length big in
  if n <=? 64 then (Z.shiftl big (64 - n), false)
  else (Z.shiftr big (n - 64), negb (big mod 2 ^ (n - 64) =? 0)).

(** *** Reading the digits *)

Section Parse.

(** [BOOST_CHARCONV_FASTFLOAT_64BIT], [std::is_same<UC, char>::value],
    [int_cmp_len<UC>()] and the width of [std::size_t]. *)
Variable fastfloat_64bit : bool.
Variable uc_is_char : bool.
Variable int_cmp_len : nat.
Variable size_t_bits : Z.

Definition limb (z : Z) : Z := if fastfloat_64bit then u64 z else u32 z.
Definition size_t (z : Z) : Z := z mod 2 ^ size_t_bits.
Definition step : Z := if fastfloat_64bit then 19 else 9.

(** The code unit ['0']. *)
Definition zero_char : Z := 48.

Definition is_digit (c : Z) : Prop := 48 <= c <= 57.

(** 1e0 to 1e19 *)
Definition powers_of_ten_uint64 : list Z :=
  [1; 10; 100; 1000; 10000; 100000; 1000000;
   10000000; 100000000; 1000000000; 10000000000; 100000000000;
   1000000000000; 10000000000000; 100000000000000; 1000000000000000;
   10000000000000000; 100000000000000000; 1000000000000000000;
   10000000000000000000].

Definition power_of_ten (counter : Z) : option Z :=
  if counter <? 0 then None else nth_error powers_of_ten_uint64 (Z.to_nat counter).

(** The 8 bytes copied from [first] equal [int_cmp_zeros<UC>()] when each of
    the [int_cmp_len] code units they hold is ['0']. *)
Definition block_is_zeros (p : list Z) : bool :=
  forallb (Z.eqb zero_char) (firstn int_cmp_len p).

Definition zeros_block_cond (p : list Z) : bool :=
  (int_cmp_len <=? length p)%nat && block_is_zeros p.

Definition zero_unit_cond (p : list Z) : bool :=
  match p with
  | c :: _ => c =? zero_char
  | [] => false
  end.

(** [skip_zeros(first, last)]: the span that is left. *)
Definition skip_zeros (p : list Z) : option (list Z) :=
  p1 <- while (length p) zeros_block_cond (skipn int_cmp_len) p ;;
  while (length p1) zero_unit_cond (@tl Z) p1.

(** [is_truncated(first, last)]: the two loops of [skip_zeros], leaving with
    [true] where those break. *)
Definition is_truncated (p : list Z) : option bool :=
  p1 <- while (length p) zeros_block_cond (skipn int_cmp_len) p ;;
  if (int_cmp_len <=? length p1)%nat then Some true
  else
    p2 <- while (length p1) zero_unit_cond (@tl Z) p1 ;;
    Some (negb (Nat.eqb (length p2) 0)).

(** Modelled from the spec: [parse_eight_digits_unrolled] of ascii_number.hpp,
    the unrolled parse of eight decimal digits into a [std::uint32_t]. *)
Definition parse_eight_digits_unrolled (p : list Z) : Z :=
  u32 (fold_left (fun acc c => acc * 10 + (c - zero_char)) (firstn 8 p) 0).

(** The variables that the loops of [parse_mantissa] update. *)
Record pm_state : Set := mk_pm {
  pm_p : list Z;
  pm_value : Z;
  pm_counter : Z;
  pm_digits : Z;
  pm_result : bigint
}.

(** [parse_eight_digits(p, value, counter, count)] for [char]. *)
Definition parse_eight_digits (st : pm_state) : pm_state :=
  mk_pm (skipn 8 (pm_p st))
        (limb (limb (pm_value st * 100000000) + parse_eight_digits_unrolled (pm_p st)))
        (size_t (pm_counter st + 8))
        (size_t (pm_digits st + 8))
        (pm_result st).

(** [parse_one_digit(p, value, counter, count)] *)
Definition parse_one_digit (st : pm_state) : pm_state :=
  mk_pm (tl (pm_p st))
        (limb (limb (pm_value st * 10) + limb (hd zero_char (pm_p st) - zero_char)))
        (size_t (pm_counter st + 1))
        (size_t (pm_digits st + 1))
        (pm_result st).

(** [add_native(big, power, value)] *)
Definition add_native (big : bigint) (power value : Z) : bigint :=
  bigint_add (bigint_mul big power) value.

(** [round_up_bigint(big, count)] *)
Definition round_up_bigint (big : bigint) (count : Z) : bigint * Z :=
  (add_native big 10 1, size_t (count + 1)).

Definition eight_cond (max_digits : Z) (st : pm_state) : bool :=
  (8 <=? Z.of_nat (length (pm_p st)))
  && (size_t (step - pm_counter st) >=? 8)
  && (size_t (max_digits - pm_digits st) >=? 8).

Definition one_cond (max_digits : Z) (st : pm_state) : bool :=
  (pm_counter st <? step)
  && negb (Nat.eqb (length (pm_p st)) 0)
  && (pm_digits st <? max_digits).

(** The two inner loops of one pass of the outer loop. *)
Definition parse_group (max_digits : Z) (st : pm_state) : option pm_state :=
  st1 <- (if uc_is_char
          then while (length (pm_p st)) (eight_cond max_digits) parse_eight_digits st
          else Some st) ;;
  while (length (pm_p st1)) (one_cond max_digits) parse_one_digit st1.

(** [while (p != pend) { ... }] of [parse_mantissa].  [others] is what the
    truncation test also looks at: the fraction span while the integer span
    is read, nothing while the fraction span is read.  The boolean tells
    whether the loop left through [return]. *)
Fixpoint parse_span (fuel : nat) (max_digits : Z) (others : option (list Z))
    (st : pm_state) : option (bool * pm_state) :=
  match pm_p st with
  | [] => Some (false, st)
  | _ :: _ =>
      match fuel with
      | O => None
      | S fuel' =>
          st1 <- parse_group max_digits st ;;
          power <- power_of_ten (pm_counter st1) ;;
          let result := add_native (pm_result st1) (limb power) (pm_value st1) in
          if pm_digits st1 =? max_digits then
            t1 <- is_truncated (pm_p st1) ;;
            t2 <- match others with
                  | Some f => is_truncated f
                  | None => Some false
                  end ;;
            if t1 || t2 then
              let '(big, count) := round_up_bigint result (pm_digits st1) in
              Some (true, mk_pm (pm_p st1) (pm_value st1) (pm_counter st1) count big)
            else
              Some (true, mk_pm (pm_p st1) (pm_value st1) (pm_counter st1)
                                (pm_digits st1) result)
          else
            parse_span fuel' max_digits others
              (mk_pm (pm_p st1) 0 0 (pm_digits st1) result)
      end
  end.

(** [parse_mantissa(result, num, max_digits, digits)]: the big integer and the
    digit count it leaves. *)
Definition parse_mantissa (result : bigint) (num : parsed_number_string)
    (max_digits : Z) : option (bigint * Z) :=
  p <- skip_zeros (integer num) ;;
  r1 <- parse_span (length p) max_digits (fraction num) (mk_pm p 0 0 0 result) ;;
  let '(returned, st1) := r1 in
  if returned then Some (pm_result st1, pm_digits st1)
  else
    r2 <- match fraction num with
          | Some f =>
              p' <- (if pm_digits st1 =? 0 then skip_zeros f else Some f) ;;
              parse_span (length p') max_digits None
                (mk_pm p' (pm_value st1) (pm_counter st1) (pm_digits st1) (pm_result st1))
          | None => Some (false, st1)
          end ;;
    let '(returned', st2) := r2 in
    if returned' then Some (pm_result st2, pm_digits st2)
    else if negb (pm_counter st2 =? 0) then
      power <- power_of_ten (pm_counter st2) ;;
      Some (add_native (pm_result st2) (limb power) (pm_value st2), pm_digits st2)
    else Some (pm_result st2, pm_digits st2).

End Parse.

(** *** Native floats

    A native float [T] is its bit pattern, of type [equiv_uint]. *)

(** Modelled from the spec: [to_float] of float_common.hpp, the assembly of the
    bit pattern from the sign, the mantissa and [power2] as the biased
    exponent field. *)
Definition to_float (fmt : binary_format) (negative : bool)
    (am : adjusted_mantissa) : Z :=
  let sign_index := mantissa_explicit_bits fmt + Z.log2 (infinite_power fmt) + 1 in
  let word := mantissa am in
  let word := Z.lor word (Z.shiftl (power2 am) (mantissa_explicit_bits fmt)) in
  Z.lor word (Z.shiftl (if negative then 1 else 0) sign_index).

(** [to_extended(value)] *)
Definition to_extended (fmt : binary_format) (bits : Z) : adjusted_mantissa :=
  let bias := i32 (mantissa_explicit_bits fmt - minimum_exponent fmt) in
  if Z.land bits (exponent_mask fmt) =? 0 then
    mk_am (Z.land bits (mantissa_mask fmt)) (i32 (1 - bias))
  else
    let p := i32 (Z.shiftr (Z.land bits (exponent_mask fmt))
                           (mantissa_explicit_bits fmt)) in
    mk_am (Z.lor (Z.land bits (mantissa_mask fmt)) (hidden_bit_mask fmt))
          (i32 (p - bias)).

(** [to_extended_halfway(value)] *)
Definition to_extended_halfway (fmt : binary_format) (bits : Z)
    : adjusted_mantissa :=
  let am := to_extended fmt bits in
  mk_am (u64 (u64 (Z.shiftl (mantissa am) 1) + 1)) (i32 (power2 am - 1)).

(** *** The two comparison paths *)

(** The tie rule of [positive_digit_comp]. *)
Definition positive_tie (truncated : bool) : tie_fn :=
  fun is_odd is_halfway is_above =>
    is_above || (is_halfway && truncated) || (is_odd && is_halfway).

(** [positive_digit_comp<T>(bigmant, exponent)] *)
Definition positive_digit_comp (fmt : binary_format) (bigmant : bigint)
    (exponent : Z) : option adjusted_mantissa :=
  let bigmant := bigint_pow10 bigmant (u32 exponent) in
  let '(m, truncated) := hi64 bigmant in
  let bias := i32 (mantissa_explicit_bits fmt - minimum_exponent fmt) in
  let answer := mk_am m (i32 (i32 (bit_length bigmant - 64) + bias)) in
  round fmt answer
    (fun a shift => round_nearest_tie_even a shift (positive_tie truncated)).

(** The tie rule of [negative_digit_comp]: the lambda that captures [ord]. *)
Definition negative_tie (ord : Z) : tie_fn :=
  fun is_odd _ _ =>
    if ord >? 0 then true
    else if ord <? 0 then false
    else is_odd.

(** The scaling step of [negative_digit_comp]: [real_digits] and
    [theor_digits] as they are when [compare] is called. *)
Definition scale_digits (real_digits : bigint) (real_exp : Z)
    (theor_digits : bigint) (theor_exp : Z) : bigint * bigint :=
  let pow2_exp := i32 (theor_exp - real_exp) in
  let pow5_exp := u32 (i32 (- real_exp)) in
  let theor_digits :=
    if negb (pow5_exp =? 0) then bigint_pow5 theor_digits pow5_exp
    else theor_digits in
  if pow2_exp >? 0 then
    (real_digits, bigint_pow2 theor_digits (u32 pow2_exp))
  else if pow2_exp <? 0 then
    (bigint_pow2 real_digits (u32 (i32 (- pow2_exp))), theor_digits)
  else (real_digits, theor_digits).

(** [b + h] as [negative_digit_comp] builds it from [am]. *)
Definition theoretical_halfway (fmt : binary_format) (am : adjusted_mantissa)
    : option adjusted_mantissa :=
  am_b <- round fmt am round_down ;;
  let b := to_float fmt false am_b in
  Some (to_extended_halfway fmt b).

(** [negative_digit_comp<T>(bigmant, am, exponent)] *)
Definition negative_digit_comp (fmt : binary_format) (bigmant : bigint)
    (am : adjusted_mantissa) (exponent : Z) : option adjusted_mantissa :=
  let real_digits := bigmant in
  let real_exp := exponent in
  theor <- theoretical_halfway fmt am ;;
  let theor_digits := mantissa theor in
  let theor_exp := power2 theor in
  let '(real_digits, theor_digits) :=
    scale_digits real_digits real_exp theor_digits theor_exp in
  let ord := bigint_compare real_digits theor_digits in
  round fmt am
    (fun a shift => round_nearest_tie_even a shift (negative_tie ord)).

Section DigitComp.

Variable fastfloat_64bit : bool.
Variable uc_is_char : bool.
Variable int_cmp_len : nat.
Variable size_t_bits : Z.

(** [invalid_am_bias] of float_common.hpp. *)
Variable invalid_am_bias : Z.

(** [digit_comp<T, UC>(num, am)] *)
Definition digit_comp (fmt : binary_format) (num : parsed_number_string)
    (am : adjusted_mantissa) : option adjusted_mantissa :=
  let am := mk_am (mantissa am) (i32 (power2 am - invalid_am_bias)) in
  sci_exp <- scientific_exponent num ;;
  let max_digits := size_t size_t_bits (max_digits fmt) in
  r <- parse_mantissa fastfloat_64bit uc_is_char int_cmp_len size_t_bits
         0 num max_digits ;;
  let '(bigmant, digits) := r in
  let exponent := i32 (i32 (sci_exp + 1) - i32 digits) in
  if exponent >=? 0 then positive_digit_comp fmt bigmant exponent
  else negative_digit_comp fmt bigmant am exponent.

End DigitComp.

(** *** Definitions used to state the properties *)

(** [round] in the normal regime, in the words of the specification: carry
    into the next binade, mask the hidden bit, clamp to infinity. *)
Definition round_normal_spec (fmt : binary_format) (am1 : adjusted_mantissa)
    : adjusted_mantissa :=
  let eb := mantissa_explicit_bits fmt in
  let am2 :=
    if 2 ^ (eb + 1) <=? mantissa am1 then mk_am (2 ^ eb) (power2 am1 + 1) else am1 in
  let am3 := mk_am (Z.clearbit (mantissa am2) eb) (power2 am2) in
  if infinite_power fmt <=? power2 am3 then mk_am 0 (infinite_power fmt) else am3.

(** What the loops keep: [j] digits of [m0] have been dropped and counted. *)
Definition sci_inv (m0 e0 : Z) (s : Z * Z) : Prop :=
  exists j, 0 <= j /\ fst s = m0 / 10 ^ j /\ snd s = i32 (e0 + j) /\
            (0 < j -> 1 <= fst s).

Definition sci_step_ok (dk : Z * Z) : Prop := 1 <= snd dk /\ fst dk = 10 ^ snd dk.





(** The number that a string of decimal digits writes. *)
Definition dec_value (l : list Z) : Z :=
  fold_left (fun acc c => acc * 10 + (c - 48)) l 0.

(** A span without its leading ['0'] code units. *)
Fixpoint strip_zeros (l : list Z) : list Z :=
  match l with
  | [] => []
  | c :: l' => if c =? 48 then strip_zeros l' else l
  end.

Definition any_nonzero (l : list Z) : bool :=
  existsb (fun c => negb (c =? 48)) l.

(** The digits from the first nonzero one on: those of the integer span, then
    those of the fraction span. *)
Definition significant_digits (num : parsed_number_string) : list Z :=
  match strip_zeros (integer num), fraction num with
  | [], Some f => strip_zeros f
  | i, Some f => i ++ f
  | i, None => i
  end.

(** The accumulator and the digit count that the specification gives for a
    big integer [result] and a bound [max_digits]. *)
Definition parse_mantissa_spec (result : bigint) (num : parsed_number_string)
    (max_digits : Z) : bigint * Z :=
  let sd := significant_digits num in
  let n := Z.to_nat max_digits in
  if Z.of_nat (length sd) <? max_digits then
    (result * 10 ^ Z.of_nat (length sd) + dec_value sd, Z.of_nat (length sd))
  else
    let big := result * 10 ^ max_digits + dec_value (firstn n sd) in
    if any_nonzero (skipn n sd) then (big * 10 + 1, max_digits + 1)
    else (big, max_digits).

(** Well-formed digit spans: every code unit is one of ['0'] .. ['9']. *)
Definition digits_ok (l : list Z) : Prop := Forall (fun c => 48 <= c <= 57) l.

Definition others_nonzero (others : option (list Z)) : bool :=
  match others with
  | Some f => any_nonzero f
  | None => false
  end.

(** One pass of the outer loop of [parse_mantissa] that starts at the span
    [p0] with [d0] digits counted: the number of digits it takes, and the
    variables after [j] of them. *)
Definition group_size (fastfloat_64bit : bool) (max_digits : Z) (p0 : list Z)
    (d0 : Z) : Z :=
  Z.min (step fastfloat_64bit) (Z.min (Z.of_nat (length p0)) (max_digits - d0)).

Definition group_state (p0 : list Z) (d0 : Z) (r0 : bigint) (j : nat) : pm_state :=
  mk_pm (skipn j p0) (dec_value (firstn j p0)) (Z.of_nat j) (d0 + Z.of_nat j) r0.

Definition group_inv (fastfloat_64bit : bool) (max_digits : Z) (p0 : list Z)
    (d0 : Z) (r0 : bigint) (st : pm_state) : Prop :=
  exists j : nat,
    Z.of_nat j <= group_size fastfloat_64bit max_digits p0 d0 /\
    st = group_state p0 d0 r0 j.

(** *** Values *)

(** [bias], as [to_extended] and [positive_digit_comp] compute it. *)
Definition bias (fmt : binary_format) : Z :=
  mantissa_explicit_bits fmt - minimum_exponent fmt.

(** The rational number [mantissa * 2^power2] of an extended-precision float
    whose [power2] carries no bias. *)
Definition am_value (am : adjusted_mantissa) : Q :=
  (inject_Z (mantissa am) * Qpower 2 (power2 am))%Q.



(** The numbers [m * 2^e] of the format, with the exponent unbounded above:
    [m] has at most [explicit_bits + 1] bits and [e] is at least the exponent
    of the denormals. *)
Definition representable (fmt : binary_format) (x : Q) : Prop :=
  exists m e : Z,
    0 <= m < 2 ^ (mantissa_explicit_bits fmt + 1) /\
    1 - bias fmt <= e /\
    (x == inject_Z m * Qpower 2 e)%Q.




(** [m * 2^e] is written the way a float writes it: full width unless the
    exponent is the smallest one. *)
Definition canonical (fmt : binary_format) (m e : Z) : Prop :=
  0 <= m < 2 ^ (mantissa_explicit_bits fmt + 1) /\
  1 - bias fmt <= e /\
  (1 - bias fmt < e -> 2 ^ mantissa_explicit_bits fmt <= m).




(** The shift [round] hands to its callback for a [power2] of [P], and the
    bits of [M] that this shift drops. *)
Definition round_shift (fmt : binary_format) (P : Z) : Z :=
  if P <=? mantissa_explicit_bits fmt - 63 then Z.min (1 - P) 64
  else 63 - mantissa_explicit_bits fmt.





(** *** The decimal number *)


End FastFloat.

(** * Properties *)

(** ** Machine integers *)

Lemma u64_range z : is_u64 (u64 z).
Proof. unfold is_u64, u64. apply Z.mod_pos_bound. lia. Qed.

Lemma u32_range z : is_u32 (u32 z).
Proof. unfold is_u32, u32. apply Z.mod_pos_bound. lia. Qed.

Lemma u64_small z : is_u64 z -> u64 z = z.
Proof. unfold is_u64, u64. intros. apply Z.mod_small. lia. Qed.

Lemma u32_small z : is_u32 z -> u32 z = z.
Proof. unfold is_u32, u32. intros. apply Z.mod_small. lia. Qed.

Lemma i32_small z : is_i32 z -> i32 z = z.
Proof. unfold is_i32, i32. intros. rewrite Z.mod_small; lia. Qed.

Lemma i32_range z : is_i32 (i32 z).
Proof.
  unfold is_i32, i32.
  pose proof (Z.mod_pos_bound (z + 2 ^ 31) (2 ^ 32)). lia.
Qed.

(** ** The 128-bit integer and the wide products *)

Module Emulated128Facts.
Import Emulated128.

Lemma split32 x : is_u64 x ->
  x = u32 (Z.shiftr x 32) * 2 ^ 32 + u32 x /\ is_u32 (u32 (Z.shiftr x 32)) /\ is_u32 (u32 x)
  /\ Z.shiftr x 32 = u32 (Z.shiftr x 32).
Proof.
  unfold is_u64, is_u32, u32. intros H.
  rewrite Z.shiftr_div_pow2 by lia.
  assert (0 <= x / 2 ^ 32 < 2 ^ 32).
  { split. apply Z.div_pos; lia. apply Z.div_lt_upper_bound; lia. }
  rewrite (Z.mod_small (x / 2 ^ 32)) by lia.
  pose proof (Z.div_mod x (2 ^ 32)).
  pose proof (Z.mod_pos_bound x (2 ^ 32)). lia.
Qed.

Lemma umul64_exact i a b : is_u32 a -> is_u32 b -> umul64 i a b = a * b.
Proof.
  unfold is_u32. intros Ha Hb.
  assert (0 <= a * b < 2 ^ 64) by nia.
  destruct i; unfold umul64, emulu.
  - apply u64_small. exact H.
  - rewrite (u64_small b) by (unfold is_u64; lia). apply u64_small. exact H.
Qed.

Lemma portable_exact i x y : is_u64 x -> is_u64 y ->
  portable_high i x y = (x * y) / 2 ^ 64 /\ portable_low i x y = (x * y) mod 2 ^ 64.
Proof.
  intros Hx Hy.
  destruct (split32 x Hx) as (Ex & Ha & Hb & _).
  destruct (split32 y Hy) as (Ey & Hc & Hd & _).
  unfold portable_high, portable_low.
  set (a := u32 (Z.shiftr x 32)) in *. set (b := u32 x) in *.
  set (c := u32 (Z.shiftr y 32)) in *. set (d := u32 y) in *.
  rewrite !umul64_exact by assumption.
  unfold is_u32 in *.
  assert (Hac : 0 <= a * c <= (2^32-1)*(2^32-1)) by nia.
  assert (Hbc : 0 <= b * c <= (2^32-1)*(2^32-1)) by nia.
  assert (Had : 0 <= a * d <= (2^32-1)*(2^32-1)) by nia.
  assert (Hbd : 0 <= b * d <= (2^32-1)*(2^32-1)) by nia.
  rewrite !Z.shiftr_div_pow2, Z.shiftl_mul_pow2 by lia.
  unfold u32, u64.
  set (ac := a * c) in *. set (bc := b * c) in *. set (ad := a * d) in *. set (bd := b * d) in *.
  pose proof (Z.div_mod bd (2^32)). pose proof (Z.mod_pos_bound bd (2^32)).
  pose proof (Z.div_mod ad (2^32)). pose proof (Z.mod_pos_bound ad (2^32)).
  pose proof (Z.div_mod bc (2^32)). pose proof (Z.mod_pos_bound bc (2^32)).
  set (bdh := bd / 2^32) in *. set (bdl := bd mod 2^32) in *.
  set (adh := ad / 2^32) in *. set (adl := ad mod 2^32) in *.
  set (bch := bc / 2^32) in *. set (bcl := bc mod 2^32) in *.
  rewrite (Z.mod_small (bdh + adl)) by lia.
  rewrite (Z.mod_small (bdh + adl + bcl)) by lia.
  set (im := bdh + adl + bcl) in *.
  pose proof (Z.div_mod im (2^32)). pose proof (Z.mod_pos_bound im (2^32)).
  set (imh := im / 2^32) in *. set (iml := im mod 2^32) in *.
  assert (Exy : x * y = (ac + imh + adh + bch) * 2^64 + (iml * 2^32 + bdl)).
  { rewrite Ex, Ey. subst ac bc ad bd. 
    change (2^64) with (2^32 * 2^32). lia. }
  assert (Hlow : 0 <= iml * 2^32 + bdl < 2^64) by lia.
  assert (Hhi : 0 <= ac + imh + adh + bch < 2 ^ 64).
  { split. lia. unfold is_u64 in *. nia. }
  assert (Hdiv : x * y / 2^64 = ac + imh + adh + bch).
  { rewrite Exy. rewrite Z.div_add_l by lia. rewrite Z.div_small by lia. lia. }
  assert (Hmod : (x * y) mod 2^64 = iml * 2^32 + bdl).
  { rewrite Exy. rewrite Z.add_comm, Z.mod_add by lia. apply Z.mod_small. lia. }
  rewrite Hdiv, Hmod. split.
  - rewrite (Z.mod_small (ac + imh)) by lia.
    rewrite (Z.mod_small (ac + imh + adh)) by lia.
    apply Z.mod_small. lia.
  - assert (E : (im * 2^32) mod 2^64 = iml * 2^32).
    { replace im with (imh * 2^32 + iml) by lia.
      replace ((imh * 2^32 + iml) * 2^32) with (iml * 2^32 + imh * 2^64) by (change (2^64) with (2^32*2^32); lia).
      rewrite Z.mod_add by lia. apply Z.mod_small. lia. }
    rewrite E. apply Z.mod_small. lia.
Qed.

Lemma mul_u64_bound x y : is_u64 x -> is_u64 y ->
  0 <= x * y < 2 ^ 128 /\ 0 <= x * y / 2 ^ 64 < 2 ^ 64.
Proof.
  unfold is_u64. intros Hx Hy.
  assert (0 <= x * y <= (2 ^ 64 - 1) * (2 ^ 64 - 1)) by nia.
  split. lia. split. apply Z.div_pos; lia.
  apply Z.div_lt_upper_bound; lia.
Qed.

Lemma umul128_exact m i x y : is_u64 x -> is_u64 y ->
  umul128 m i x y = mk_uint128 (x * y / 2 ^ 64) ((x * y) mod 2 ^ 64).
Proof.
  intros Hx Hy.
  destruct (mul_u64_bound x y Hx Hy) as [Hp Hq].
  destruct m; unfold umul128, msvc_umul128, umulh, u128, u64.
  - unfold is_u64 in *.
    rewrite (Z.mod_small x (2 ^ 128)), (Z.mod_small y (2 ^ 128)) by lia.
    rewrite (Z.mod_small (x * y) (2 ^ 128)) by lia.
    rewrite Z.shiftr_div_pow2 by lia.
    rewrite (Z.mod_small (x * y / 2 ^ 64)) by lia. reflexivity.
  - rewrite (Z.mod_small (x * y / 2 ^ 64)) by lia. reflexivity.
  - rewrite (Z.mod_small (x * y / 2 ^ 64)) by lia. reflexivity.
  - destruct (portable_exact i x y Hx Hy) as [-> ->]. reflexivity.
Qed.

Lemma umul128_upper64_exact m i x y : is_u64 x -> is_u64 y ->
  umul128_upper64 m i x y = x * y / 2 ^ 64.
Proof.
  intros Hx Hy.
  destruct (mul_u64_bound x y Hx Hy) as [Hp Hq].
  destruct m; unfold umul128_upper64, umulh, u128, u64;
    try (apply (portable_exact i x y Hx Hy)).
  - unfold is_u64 in *.
    rewrite (Z.mod_small x (2 ^ 128)), (Z.mod_small y (2 ^ 128)) by lia.
    rewrite (Z.mod_small (x * y) (2 ^ 128)) by lia.
    rewrite Z.shiftr_div_pow2 by lia.
    apply Z.mod_small. lia.
  - apply Z.mod_small. lia.
Qed.

Lemma carry_out l n : is_u64 l -> is_u64 n ->
  (l + n) / 2 ^ 64 = (if 2 ^ 64 <=? l + n then 1 else 0) /\
  u64 (l + n) = l + n - 2 ^ 64 * (if 2 ^ 64 <=? l + n then 1 else 0) /\
  (u64 (l + n) <? l) = (2 ^ 64 <=? l + n).
Proof.
  unfold is_u64, u64. intros Hl Hn.
  destruct (Z.leb_spec (2 ^ 64) (l + n)) as [H | H].
  - assert (Hd : (l + n) / 2 ^ 64 = 1).
    { symmetry. apply Z.div_unique with (r := l + n - 2 ^ 64); lia. }
    assert (Hm : (l + n) mod 2 ^ 64 = l + n - 2 ^ 64).
    { symmetry. apply Z.mod_unique with (q := 1); lia. }
    rewrite Hd, Hm. split; [| split]; [lia | lia |]. apply Z.ltb_lt. lia.
  - rewrite Z.div_small, Z.mod_small by lia.
    split; [| split]; [lia | lia |]. apply Z.ltb_ge. lia.
Qed.

Lemma add_assign_manual impl self n : uint128_wf self -> is_u64 n ->
  add_assign impl self n =
  mk_uint128 (u64 (high self + (if 2 ^ 64 <=? low self + n then 1 else 0)))
             (u64 (low self + n)).
Proof.
  intros [Hh Hl] Hn.
  destruct (carry_out (low self) n Hl Hn) as (Hc & _ & Hw).
  destruct impl; unfold add_assign, builtin_addcll, builtin_ia32_addcarryx_u64,
    addcarry_u64; rewrite ?Z.add_0_r, ?Z.add_0_l.
  - rewrite Hc. reflexivity.
  - rewrite Hc. f_equal. f_equal. lia.
  - rewrite Hc. f_equal. f_equal. lia.
  - rewrite Hw. reflexivity.
Qed.

Lemma add_assign_value impl self n : uint128_wf self -> is_u64 n ->
  to_Z (add_assign impl self n) = (to_Z self + n) mod 2 ^ 128 /\
  uint128_wf (add_assign impl self n).
Proof.
  intros Hwf Hn. rewrite (add_assign_manual impl self n Hwf Hn).
  destruct Hwf as [Hh Hl].
  destruct (carry_out (low self) n Hl Hn) as (_ & Hs & _).
  unfold to_Z, uint128_wf; cbn [high low].
  split; [| split; apply u64_range].
  rewrite Hs. set (c := if 2 ^ 64 <=? low self + n then 1 else 0).
  assert (Hc : 0 <= c <= 1) by (subst c; destruct (2 ^ 64 <=? low self + n); lia).
  assert (Hlo : 0 <= low self + n - 2 ^ 64 * c < 2 ^ 64).
  { subst c. unfold is_u64 in *. destruct (Z.leb_spec (2 ^ 64) (low self + n)); lia. }
  unfold u64, is_u64 in *.
  replace (high self * 2 ^ 64 + low self + n)
    with ((low self + n - 2 ^ 64 * c) + (high self + c) * 2 ^ 64) by lia.
  change (2 ^ 128) with (2 ^ 64 * 2 ^ 64).
  rewrite Z.rem_mul_r by lia.
  rewrite Z.mod_add by lia. rewrite (Z.mod_small (low self + n - 2 ^ 64 * c)) by lia.
  rewrite Z.div_add by lia. rewrite (Z.div_small (low self + n - 2 ^ 64 * c)) by lia.
  rewrite Z.add_0_l. ring.
Qed.

(** The product of two 64-bit values, whichever branch is compiled. *)
Lemma umul128_value m i x y : is_u64 x -> is_u64 y ->
  to_Z (umul128 m i x y) = x * y /\ uint128_wf (umul128 m i x y).
Proof.
  intros Hx Hy. rewrite (umul128_exact m i x y Hx Hy).
  destruct (mul_u64_bound x y Hx Hy) as [Hp Hq].
  unfold to_Z, uint128_wf, is_u64; cbn [high low].
  pose proof (Z.div_mod (x * y) (2 ^ 64)).
  pose proof (Z.mod_pos_bound (x * y) (2 ^ 64)). lia.
Qed.

(** C7: [self += n] is addition modulo 2^128; the carry goes into [high]
    exactly when the low sum wraps; every branch of the operator gives the
    result of the manual wrap check; {0, 2^64-1} += 1 is {1, 0}. *)
Theorem add_assign_carry (impl : add_impl) (self : uint128) (n : Z) :
  uint128_wf self -> is_u64 n ->
  to_Z (add_assign impl self n) = (to_Z self + n) mod 2 ^ 128 /\
  uint128_wf (add_assign impl self n) /\
  low (add_assign impl self n) = u64 (low self + n) /\
  high (add_assign impl self n) =
    u64 (high self + (if 2 ^ 64 <=? low self + n then 1 else 0)) /\
  add_assign impl self n = add_assign AddManual self n /\
  add_assign impl (mk_uint128 0 (2 ^ 64 - 1)) 1 = mk_uint128 1 0.
Proof.
  intros Hwf Hn.
  destruct (add_assign_value impl self n Hwf Hn) as [Hv Hw].
  split; [exact Hv |]. split; [exact Hw |].
  rewrite (add_assign_manual impl self n Hwf Hn).
  rewrite (add_assign_manual AddManual self n Hwf Hn).
  cbn [high low]. repeat split.
  destruct impl; reflexivity.
Qed.

Lemma add_assign_carry_witness :
  uint128_wf (mk_uint128 7 (2 ^ 64 - 1)) /\ is_u64 5 /\
  to_Z (add_assign AddBuiltinAddcll (mk_uint128 7 (2 ^ 64 - 1)) 5)
    = (to_Z (mk_uint128 7 (2 ^ 64 - 1)) + 5) mod 2 ^ 128.
Proof.
  assert (Hwf : uint128_wf (mk_uint128 7 (2 ^ 64 - 1))).
  { unfold uint128_wf, is_u64; cbn [high low]. lia. }
  assert (Hn : is_u64 5) by (unfold is_u64; lia).
  split; [exact Hwf |]. split; [exact Hn |].
  exact (proj1 (add_assign_carry AddBuiltinAddcll _ 5 Hwf Hn)).
Defined.

(** C8: [umul128] is the exact 128-bit product; the portable decomposition,
    the intrinsics and the native 128-bit multiplication return the same
    pair; umul128(2^64-1, 2) = {1, 2^64-2}. *)
Theorem umul128_full_product (m : mul_impl) (i : mul64_impl) (x y : Z) :
  is_u64 x -> is_u64 y ->
  to_Z (umul128 m i x y) = x * y /\
  uint128_wf (umul128 m i x y) /\
  umul128 MulPortable i x y = umul128 m i x y /\
  umul128 m i (2 ^ 64 - 1) 2 = mk_uint128 1 (2 ^ 64 - 2).
Proof.
  intros Hx Hy.
  destruct (umul128_value m i x y Hx Hy) as [Hv Hw].
  split; [exact Hv |]. split; [exact Hw |]. split.
  - rewrite !umul128_exact by assumption. reflexivity.
  - rewrite umul128_exact by (unfold is_u64; lia). reflexivity.
Qed.

Lemma umul128_full_product_witness :
  is_u64 (2 ^ 64 - 1) /\ is_u64 (2 ^ 63 + 12345) /\
  to_Z (umul128 MulPortable Mul64Native (2 ^ 64 - 1) (2 ^ 63 + 12345))
    = (2 ^ 64 - 1) * (2 ^ 63 + 12345).
Proof.
  assert (Hx : is_u64 (2 ^ 64 - 1)) by (unfold is_u64; lia).
  assert (Hy : is_u64 (2 ^ 63 + 12345)) by (unfold is_u64; lia).
  split; [exact Hx |]. split; [exact Hy |].
  exact (proj1 (umul128_full_product MulPortable Mul64Native _ _ Hx Hy)).
Defined.

(** Without the carry the high half is one short when the low sum wraps. *)
Example umul192_upper128_needs_carry :
  let x := 2 ^ 63 + 1 in
  let y := mk_uint128 3 (2 ^ 64 - 1) in
  umul192_upper128 MulPortable Mul64Native AddManual x y = mk_uint128 2 3 /\
  umul192_upper128_no_carry MulPortable Mul64Native x y = mk_uint128 1 3 /\
  x * to_Z y / 2 ^ 64 = to_Z (mk_uint128 2 3).
Proof. vm_compute. repeat split. Qed.

(** C6: [umul192_upper128 x y] is the upper 128 bits of the 192-bit product,
    floor (x * y / 2^64); the sum of [umul128 x y.high] and
    [umul128_upper64 x y.low] carries from the low half into the high half. *)
Theorem umul192_upper128_spec (m : mul_impl) (i : mul64_impl) (a : add_impl)
    (x : Z) (y : uint128) :
  is_u64 x -> uint128_wf y ->
  let r := umul128 m i x (high y) in
  let u := umul128_upper64 m i x (low y) in
  to_Z (umul192_upper128 m i a x y) = x * to_Z y / 2 ^ 64 /\
  uint128_wf (umul192_upper128 m i a x y) /\
  low (umul192_upper128 m i a x y) = u64 (low r + u) /\
  high (umul192_upper128 m i a x y)
    = high r + (if 2 ^ 64 <=? low r + u then 1 else 0).
Proof.
  intros Hx [Hh Hl] r u.
  destruct (umul128_value m i x (high y) Hx Hh) as [Hrv Hrw]. fold r in Hrv, Hrw.
  assert (Hu : u = x * low y / 2 ^ 64) by (apply umul128_upper64_exact; assumption).
  destruct (mul_u64_bound x (low y) Hx Hl) as [Hp Hq].
  assert (Hu64 : is_u64 u) by (rewrite Hu; exact Hq).
  unfold umul192_upper128. fold r u.
  destruct (add_assign_value a r u Hrw Hu64) as [Hv Hw].
  assert (Hsum : to_Z r + u = x * to_Z y / 2 ^ 64).
  { rewrite Hrv, Hu. unfold to_Z.
    replace (x * (high y * 2 ^ 64 + low y)) with (x * low y + x * high y * 2 ^ 64) by ring.
    rewrite Z.div_add by lia. ring. }
  assert (Hlt : 0 <= x * to_Z y / 2 ^ 64 < 2 ^ 128).
  { unfold to_Z, is_u64 in *. split.
    - apply Z.div_pos; nia.
    - apply Z.div_lt_upper_bound; [lia |].
      change (2 ^ 64 * 2 ^ 128) with (2 ^ 64 * (2 ^ 64 * 2 ^ 64)). nia. }
  split. { rewrite Hv, Hsum. apply Z.mod_small. exact Hlt. }
  split. { exact Hw. }
  rewrite (add_assign_manual a r u Hrw Hu64). cbn [high low].
  split. { reflexivity. }
  apply u64_small.
  destruct Hrw as [Hrh Hrl].
  destruct (carry_out (low r) u Hrl Hu64) as (_ & Hs & _).
  set (c := if 2 ^ 64 <=? low r + u then 1 else 0) in *.
  assert (Hc : 0 <= c <= 1) by (subst c; destruct (2 ^ 64 <=? low r + u); lia).
  pose proof (u64_range (low r + u)) as Hlo. rewrite Hs in Hlo.
  clearbody c. unfold is_u64, to_Z in *. lia.
Qed.

Lemma umul192_upper128_spec_witness :
  is_u64 (2 ^ 63 + 1) /\ uint128_wf (mk_uint128 3 (2 ^ 64 - 1)) /\
  to_Z (umul192_upper128 MulPortable Mul64Native AddManual (2 ^ 63 + 1)
          (mk_uint128 3 (2 ^ 64 - 1)))
    = (2 ^ 63 + 1) * to_Z (mk_uint128 3 (2 ^ 64 - 1)) / 2 ^ 64.
Proof.
  assert (Hx : is_u64 (2 ^ 63 + 1)) by (unfold is_u64; lia).
  assert (Hy : uint128_wf (mk_uint128 3 (2 ^ 64 - 1))).
  { unfold uint128_wf, is_u64; cbn [high low]. lia. }
  split; [exact Hx |]. split; [exact Hy |].
  exact (proj1 (umul192_upper128_spec MulPortable Mul64Native AddManual _ _ Hx Hy)).
Defined.


(** *** Comparisons *)

Lemma operator_lt_order lhs rhs : uint128_wf lhs -> uint128_wf rhs ->
  operator_lt lhs rhs = (to_Z lhs <? to_Z rhs).
Proof.
  unfold uint128_wf, is_u64, operator_lt, to_Z.
  intros (Hh & Hl) (Hh' & Hl').
  destruct (Z.eqb_spec (high lhs) (high rhs)) as [E | E].
  - rewrite E. destruct (Z.ltb_spec (low lhs) (low rhs));
      symmetry; [apply Z.ltb_lt | apply Z.ltb_ge]; lia.
  - destruct (Z.ltb_spec (high lhs) (high rhs));
      symmetry; [apply Z.ltb_lt | apply Z.ltb_ge]; nia.
Qed.

Lemma to_Z_inj a b : uint128_wf a -> uint128_wf b -> to_Z a = to_Z b -> a = b.
Proof.
  unfold uint128_wf, is_u64, to_Z. destruct a as [ha la], b as [hb lb]. cbn.
  intros (Hh & Hl) (Hh' & Hl') E.
  assert (ha = hb) by nia. subst. f_equal. lia.
Qed.

Lemma to_Z_range a : uint128_wf a -> 0 <= to_Z a < 2 ^ 128.
Proof.
  unfold uint128_wf, is_u64, to_Z. intros (Hh & Hl).
  change (2 ^ 128) with (2 ^ 64 * 2 ^ 64). nia.
Qed.

(** X1: on well-formed values the six comparison operators between two
    [uint128] decide the order of the numbers they stand for: [==] holds
    exactly for equal pairs, [<] is the order of [to_Z], and [!=], [<=], [>]
    and [>=] are their negations and converses. *)
Theorem uint128_comparison_order (lhs rhs : uint128) :
  uint128_wf lhs -> uint128_wf rhs ->
  (operator_eq lhs rhs = true <-> lhs = rhs) /\
  operator_eq lhs rhs = (to_Z lhs =? to_Z rhs) /\
  operator_ne lhs rhs = negb (to_Z lhs =? to_Z rhs) /\
  operator_lt lhs rhs = (to_Z lhs <? to_Z rhs) /\
  operator_le lhs rhs = (to_Z lhs <=? to_Z rhs) /\
  operator_gt lhs rhs = (to_Z rhs <? to_Z lhs) /\
  operator_ge lhs rhs = (to_Z rhs <=? to_Z lhs).
Proof.
  intros Hl Hr.
  assert (Heq : operator_eq lhs rhs = (to_Z lhs =? to_Z rhs)).
  { unfold operator_eq.
    destruct (Z.eqb_spec (to_Z lhs) (to_Z rhs)) as [E | E].
    - rewrite (to_Z_inj lhs rhs Hl Hr E), !Z.eqb_refl. reflexivity.
    - destruct (Z.eqb_spec (high lhs) (high rhs)) as [E1 | E1]; [| reflexivity].
      destruct (Z.eqb_spec (low lhs) (low rhs)) as [E2 | E2]; [| reflexivity].
      exfalso. apply E. unfold to_Z. rewrite E1, E2. reflexivity. }
  split.
  { rewrite Heq, Z.eqb_eq. split; [apply to_Z_inj; assumption | intros ->; reflexivity]. }
  split; [exact Heq |].
  split; [unfold operator_ne; rewrite Heq; reflexivity |].
  split; [apply operator_lt_order; assumption |].
  unfold operator_le, operator_gt, operator_ge.
  rewrite !operator_lt_order by assumption.
  split; [rewrite Z.leb_antisym; reflexivity |].
  split; [reflexivity |].
  rewrite Z.leb_antisym. reflexivity.
Qed.

Lemma uint128_comparison_order_witness :
  operator_lt (mk_uint128 1 0) (mk_uint128 0 (2 ^ 64 - 1))
  = (to_Z (mk_uint128 1 0) <? to_Z (mk_uint128 0 (2 ^ 64 - 1))).
Proof.
  refine (proj1 (proj2 (proj2 (proj2
    (uint128_comparison_order (mk_uint128 1 0) (mk_uint128 0 (2 ^ 64 - 1)) _ _))))).
  - unfold uint128_wf, is_u64; cbn; lia.
  - unfold uint128_wf, is_u64; cbn; lia.
Defined.

Lemma operator_int_order (lhs : uint128) (rhs : Z) :
  uint128_wf lhs -> - 2 ^ 63 <= rhs < 2 ^ 64 ->
  operator_eq_int lhs rhs = (to_Z lhs =? rhs) /\
  operator_ne_int lhs rhs = negb (to_Z lhs =? rhs) /\
  operator_lt_int lhs rhs = (to_Z lhs <? rhs) /\
  operator_le_int lhs rhs = (to_Z lhs <=? rhs) /\
  operator_gt_int lhs rhs = (rhs <? to_Z lhs) /\
  operator_ge_int lhs rhs = (rhs <=? to_Z lhs) /\
  (rhs < 0 ->
   operator_eq_int lhs rhs = false /\ operator_lt_int lhs rhs = false /\
   operator_gt_int lhs rhs = true).
Proof.
  unfold uint128_wf, is_u64, to_Z. intros (Hh & Hl) Hr.
  unfold operator_ne_int, operator_eq_int, operator_lt_int, operator_le_int,
    operator_gt_int, operator_ge_int.
  rewrite !Z.geb_leb, !Z.gtb_ltb.
  destruct (Z.ltb_spec rhs 0) as [Hneg | Hpos].
  - replace (0 <=? rhs) with false by (symmetry; apply Z.leb_gt; lia).
    replace (0 <? rhs) with false by (symmetry; apply Z.ltb_ge; lia).
    rewrite !andb_false_r, !orb_true_r. cbn [andb orb negb].
    replace (high lhs * 2 ^ 64 + low lhs =? rhs) with false
      by (symmetry; apply Z.eqb_neq; nia).
    replace (high lhs * 2 ^ 64 + low lhs <? rhs) with false
      by (symmetry; apply Z.ltb_ge; nia).
    replace (high lhs * 2 ^ 64 + low lhs <=? rhs) with false
      by (symmetry; apply Z.leb_gt; nia).
    replace (rhs <? high lhs * 2 ^ 64 + low lhs) with true
      by (symmetry; apply Z.ltb_lt; nia).
    replace (rhs <=? high lhs * 2 ^ 64 + low lhs) with true
      by (symmetry; apply Z.leb_le; nia).
    repeat split; reflexivity.
  - rewrite (u64_small rhs) by (unfold is_u64; lia).
    replace (0 <=? rhs) with true by (symmetry; apply Z.leb_le; lia).
    rewrite !andb_true_r, !orb_false_r.
    destruct (Z.eqb_spec (high lhs) 0) as [E | E].
    + rewrite E. cbn [Z.mul Z.add andb orb]. rewrite Z.ltb_irrefl. cbn [orb].
      destruct (Z.ltb_spec 0 rhs) as [H0 | H0].
      * repeat split; try reflexivity; lia.
      * assert (rhs = 0) by lia. subst rhs.
        replace (low lhs <? 0) with false by (symmetry; apply Z.ltb_ge; lia).
        repeat split; try reflexivity; lia.
    + cbn [andb].
      replace (0 <? high lhs) with true by (symmetry; apply Z.ltb_lt; lia).
      cbn [orb].
      replace (high lhs * 2 ^ 64 + low lhs =? rhs) with false
        by (symmetry; apply Z.eqb_neq; nia).
      replace (high lhs * 2 ^ 64 + low lhs <? rhs) with false
        by (symmetry; apply Z.ltb_ge; nia).
      replace (high lhs * 2 ^ 64 + low lhs <=? rhs) with false
        by (symmetry; apply Z.leb_gt; nia).
      replace (rhs <? high lhs * 2 ^ 64 + low lhs) with true
        by (symmetry; apply Z.ltb_lt; nia).
      replace (rhs <=? high lhs * 2 ^ 64 + low lhs) with true
        by (symmetry; apply Z.leb_le; nia).
      repeat split; try reflexivity; lia.
Qed.

(** X2: a comparison of a [uint128] with an integer of any built-in type
    (signed or unsigned, at most 64 bits) gives the mathematical comparison of
    the two numbers; against a negative integer [==] and [<] are false and
    [>] is true, whatever the [uint128] holds. *)
Theorem uint128_comparison_integer (lhs : uint128) (rhs : Z) :
  uint128_wf lhs -> - 2 ^ 63 <= rhs < 2 ^ 64 ->
  operator_eq_int lhs rhs = (to_Z lhs =? rhs) /\
  operator_ne_int lhs rhs = negb (to_Z lhs =? rhs) /\
  operator_lt_int lhs rhs = (to_Z lhs <? rhs) /\
  operator_le_int lhs rhs = (to_Z lhs <=? rhs) /\
  operator_gt_int lhs rhs = (rhs <? to_Z lhs) /\
  operator_ge_int lhs rhs = (rhs <=? to_Z lhs) /\
  (rhs < 0 ->
   operator_eq_int lhs rhs = false /\ operator_lt_int lhs rhs = false /\
   operator_gt_int lhs rhs = true).
Proof. exact (operator_int_order lhs rhs). Qed.

Lemma uint128_comparison_integer_witness :
  operator_lt_int (mk_uint128 0 41) 42 = (to_Z (mk_uint128 0 41) <? 42) /\
  operator_gt_int (mk_uint128 0 0) (- 1) = true.
Proof.
  split.
  - refine (proj1 (proj2 (proj2
      (uint128_comparison_integer (mk_uint128 0 41) 42 _ _)))).
    + unfold uint128_wf, is_u64; cbn; lia.
    + lia.
  - destruct (uint128_comparison_integer (mk_uint128 0 0) (- 1)
                ltac:(unfold uint128_wf, is_u64; cbn; lia) ltac:(lia))
      as (_ & _ & _ & _ & _ & _ & Hneg).
    exact (proj2 (proj2 (Hneg ltac:(lia)))).
Defined.

(** *** Constructors and conversions *)

Lemma uint128_of_signed_value v : - 2 ^ 63 <= v < 2 ^ 63 ->
  to_Z (uint128_of_signed v) = v mod 2 ^ 128 /\ uint128_wf (uint128_of_signed v).
Proof.
  intros Hv. unfold uint128_of_signed, to_Z, uint128_wf, is_u64, UINT64_MAX, u64.
  cbn [high low].
  destruct (Z.ltb_spec v 0) as [Hneg | Hpos].
  - assert (E : v mod 2 ^ 64 = v + 2 ^ 64).
    { symmetry. apply (Z.mod_unique v (2 ^ 64) (-1)); lia. }
    assert (E' : v mod 2 ^ 128 = v + 2 ^ 128).
    { symmetry. apply (Z.mod_unique v (2 ^ 128) (-1)); lia. }
    rewrite E, E'. lia.
  - rewrite !Z.mod_small by lia. lia.
Qed.

Lemma static_cast_int_small signed bits x : 1 <= bits ->
  int_range signed bits x ->
  static_cast_int signed bits x = x.
Proof.
  intros Hb Hx. unfold int_range in Hx. unfold static_cast_int.
  assert (E : 2 ^ bits = 2 * 2 ^ (bits - 1)).
  { replace bits with (bits - 1 + 1) at 1 by ring. rewrite Z.pow_add_r by lia. lia. }
  destruct signed.
  - rewrite Z.mod_small by lia. lia.
  - apply Z.mod_small. lia.
Qed.

Lemma static_cast_int_mod signed bits x k : 1 <= bits ->
  static_cast_int signed bits (x + k * 2 ^ bits) = static_cast_int signed bits x.
Proof.
  intros Hb. unfold static_cast_int. destruct signed.
  - replace (x + k * 2 ^ bits + 2 ^ (bits - 1)) with (x + 2 ^ (bits - 1) + k * 2 ^ bits) by ring.
    rewrite Z.mod_add by (apply Z.pow_nonzero; lia). reflexivity.
  - rewrite Z.mod_add by (apply Z.pow_nonzero; lia). reflexivity.
Qed.

Lemma static_cast_int_u64 signed bits x : 1 <= bits <= 64 ->
  static_cast_int signed bits (u64 x) = static_cast_int signed bits x.
Proof.
  intros Hb. unfold u64.
  rewrite (Z.div_mod x (2 ^ 64)) at 2 by lia.
  replace (2 ^ 64) with (2 ^ (64 - bits) * 2 ^ bits) at 2
    by (rewrite <- Z.pow_add_r by lia; f_equal; lia).
  replace (2 ^ (64 - bits) * 2 ^ bits * (x / 2 ^ 64) + x mod 2 ^ 64)
    with (x mod 2 ^ 64 + (2 ^ (64 - bits) * (x / 2 ^ 64)) * 2 ^ bits) by ring.
  rewrite static_cast_int_mod by lia. reflexivity.
Qed.

(** X3: constructing (or assigning) a [uint128] from an integer of a
    [bits]-bit type gives a well-formed value that stands for the integer
    modulo 2^128, so for the integer itself when it is not negative, where
    the signed and the unsigned constructor agree; converting back to the
    same integer type returns the integer, also when it is negative. *)
Theorem uint128_construct_convert (signed : bool) (bits : Z) (v : Z) :
  1 <= bits <= 64 ->
  int_range signed bits v ->
  let c := if signed then uint128_of_signed v else uint128_of_unsigned v in
  uint128_wf c /\
  to_Z c = v mod 2 ^ 128 /\
  (0 <= v -> to_Z c = v /\ uint128_of_signed v = uint128_of_unsigned v) /\
  to_integer signed bits c = v /\
  (forall self,
     (if signed then assign_signed self v else assign_unsigned self v) = c) /\
  (forall self, assign self c = c).
Proof.
  intros Hb Hv c. unfold int_range in Hv.
  assert (Hp : 2 ^ (bits - 1) <= 2 ^ 63) by (apply Z.pow_le_mono_r; lia).
  assert (Hp' : 2 ^ bits <= 2 ^ 64) by (apply Z.pow_le_mono_r; lia).
  assert (Hp0 : 0 < 2 ^ (bits - 1)) by (apply Z.pow_pos_nonneg; lia).
  assert (Hv64 : - 2 ^ 63 <= v < 2 ^ 64) by (destruct signed; cbv iota in Hv; lia).
  assert (Hc : uint128_wf c /\ to_Z c = v mod 2 ^ 128).
  { subst c. destruct signed; cbv iota in Hv.
    - destruct (uint128_of_signed_value v ltac:(lia)) as (E & W). split; assumption.
    - unfold uint128_of_unsigned, uint128_wf, to_Z, is_u64, u64. cbn [high low].
      rewrite !Z.mod_small by lia. lia. }
  destruct Hc as (W & E).
  split; [exact W |]. split; [exact E |].
  split.
  { intros H0. split.
    - rewrite E. apply Z.mod_small. lia.
    - unfold uint128_of_signed, uint128_of_unsigned.
      replace (v <? 0) with false by (symmetry; apply Z.ltb_ge; lia). reflexivity. }
  split.
  { unfold to_integer. subst c.
    destruct signed; cbn [low uint128_of_signed uint128_of_unsigned];
      rewrite static_cast_int_u64 by lia; apply static_cast_int_small; first [lia | exact Hv]. }
  split.
  { intros self. subst c. destruct signed; reflexivity. }
  intros self. unfold assign. destruct c; reflexivity.
Qed.

Lemma uint128_construct_convert_witness :
  to_integer true 32 (uint128_of_signed (- 5)) = - 5 /\
  to_Z (uint128_of_signed (- 5)) = (- 5) mod 2 ^ 128.
Proof.
  pose proof (uint128_construct_convert true 32 (- 5) ltac:(lia) ltac:(unfold int_range; lia)) as H.
  cbv zeta in H. cbn [Z.ltb] in H.
  split; [exact (proj1 (proj2 (proj2 (proj2 H)))) | exact (proj1 (proj2 H))].
Defined.

(** X4: a [uint128] built from a negative integer [v] has [high] all ones
    and stands for [2^128 + v]; compared with [v] itself it is not equal but
    greater.  Built from a nonnegative integer it compares equal to it. *)
Theorem uint128_of_negative_compare (v : Z) :
  - 2 ^ 63 <= v < 0 ->
  operator_eq_int (uint128_of_signed v) v = false /\
  operator_ne_int (uint128_of_signed v) v = true /\
  operator_gt_int (uint128_of_signed v) v = true /\
  operator_lt_int (uint128_of_signed v) v = false /\
  high (uint128_of_signed v) = UINT64_MAX /\
  to_Z (uint128_of_signed v) = 2 ^ 128 + v /\
  (forall w, 0 <= w < 2 ^ 64 ->
     operator_eq_int (uint128_of_unsigned w) w = true).
Proof.
  intros Hv.
  destruct (uint128_of_signed_value v ltac:(lia)) as (E & W).
  destruct (operator_int_order (uint128_of_signed v) v W ltac:(lia))
    as (_ & _ & _ & _ & _ & _ & Hneg).
  destruct (Hneg ltac:(lia)) as (H1 & H2 & H3).
  split; [exact H1 |].
  split; [unfold operator_ne_int; rewrite H1; reflexivity |].
  split; [exact H3 |]. split; [exact H2 |].
  split.
  { unfold uint128_of_signed. cbn [high].
    replace (v <? 0) with true by (symmetry; apply Z.ltb_lt; lia). reflexivity. }
  split.
  { rewrite E. symmetry. apply (Z.mod_unique v (2 ^ 128) (-1)); lia. }
  intros w Hw. unfold operator_eq_int, uint128_of_unsigned. cbn [high low].
  rewrite !Z.eqb_refl, Z.geb_leb.
  replace (0 <=? w) with true by (symmetry; apply Z.leb_le; lia).
  reflexivity.
Qed.

Lemma uint128_of_negative_compare_witness :
  operator_eq_int (uint128_of_signed (- 1)) (- 1) = false /\
  to_Z (uint128_of_signed (- 1)) = 2 ^ 128 + - 1.
Proof.
  pose proof (uint128_of_negative_compare (- 1) ltac:(lia)) as H.
  split; [exact (proj1 H) | exact (proj1 (proj2 (proj2 (proj2 (proj2 (proj2 H))))))].
Defined.

(** *** The other products *)

(** X5: [umul128_upper64 x y] is the [high] word of [umul128 x y], the
    floor of [x * y / 2^64], in every implementation branch. *)
Theorem umul128_upper64_is_high (m : mul_impl) (i : mul64_impl) (x y : Z) :
  is_u64 x -> is_u64 y ->
  umul128_upper64 m i x y = high (umul128 m i x y) /\
  umul128_upper64 m i x y = x * y / 2 ^ 64 /\
  is_u64 (umul128_upper64 m i x y) /\
  umul128_upper64 m i x y = umul128_upper64 MulPortable i x y.
Proof.
  intros Hx Hy.
  rewrite !umul128_upper64_exact, umul128_exact by assumption. cbn [high].
  pose proof (mul_u64_bound x y Hx Hy) as (_ & Hb).
  split; [reflexivity |]. split; [reflexivity |]. split; [exact Hb | reflexivity].
Qed.

Lemma umul128_upper64_is_high_witness :
  umul128_upper64 MulMsvcIntrinsics Mul64Emulu (2 ^ 64 - 1) (2 ^ 64 - 1)
  = (2 ^ 64 - 1) * (2 ^ 64 - 1) / 2 ^ 64.
Proof.
  refine (proj1 (proj2
    (umul128_upper64_is_high MulMsvcIntrinsics Mul64Emulu (2 ^ 64 - 1) (2 ^ 64 - 1) _ _)));
    unfold is_u64; lia.
Defined.

Lemma umul96_upper64_exact m i x y : is_u32 x -> is_u64 y ->
  umul96_upper64 m i x y = x * y / 2 ^ 32.
Proof.
  intros Hx Hy. pose proof Hx as Hx'. pose proof Hy as Hy'.
  unfold is_u32 in Hx'. unfold is_u64 in Hy'.
  assert (Hsh : u64 (Z.shiftl (u64 x) 32) = x * 2 ^ 32).
  { rewrite (u64_small x) by (unfold is_u64; lia).
    rewrite Z.shiftl_mul_pow2 by lia. apply u64_small. unfold is_u64. lia. }
  assert (Hq : x * 2 ^ 32 * y / 2 ^ 64 = x * y / 2 ^ 32).
  { change (2 ^ 64) with (2 ^ 32 * 2 ^ 32).
    replace (x * 2 ^ 32 * y) with (x * y * 2 ^ 32) by ring.
    rewrite <- Z.div_div by lia. rewrite Z.div_mul by lia. reflexivity. }
  assert (Hport :
    u64 (umul64 i x (u32 (Z.shiftr y 32)) + Z.shiftr (umul64 i x (u32 y)) 32)
    = x * y / 2 ^ 32).
  { destruct (split32 y Hy) as (Ey & Hh & Hl & _).
    rewrite !umul64_exact by assumption.
    set (yh := u32 (Z.shiftr y 32)) in *. set (yl := u32 y) in *.
    unfold is_u32 in Hh, Hl.
    rewrite Z.shiftr_div_pow2 by lia.
    assert (E : x * y / 2 ^ 32 = x * yh + x * yl / 2 ^ 32).
    { rewrite Ey at 1. replace (x * (yh * 2 ^ 32 + yl)) with (x * yl + x * yh * 2 ^ 32) by ring.
      rewrite Z.div_add by lia. ring. }
    rewrite E. apply u64_small. unfold is_u64.
    assert (0 <= x * yl / 2 ^ 32 < 2 ^ 32).
    { split; [apply Z.div_pos; nia | apply Z.div_lt_upper_bound; nia]. }
    nia. }
  destruct m; unfold umul96_upper64.
  - rewrite Hsh, umul128_upper64_exact by (assumption || (unfold is_u64; lia)). exact Hq.
  - rewrite Hsh, umul128_upper64_exact by (assumption || (unfold is_u64; lia)). exact Hq.
  - exact Hport.
  - exact Hport.
Qed.

(** X6: [umul96_upper64 x y] is the floor of [x * y / 2^32], the upper 64
    bits of the 96-bit product, without overflow; the branch through
    [umul128_upper64] and the portable branch agree. *)
Theorem umul96_upper64_spec (m : mul_impl) (i : mul64_impl) (x y : Z) :
  is_u32 x -> is_u64 y ->
  umul96_upper64 m i x y = x * y / 2 ^ 32 /\
  is_u64 (umul96_upper64 m i x y) /\
  umul96_upper64 m i x y = umul96_upper64 MulPortable i x y.
Proof.
  intros Hx Hy. rewrite !umul96_upper64_exact by assumption.
  split; [reflexivity |]. split; [| reflexivity].
  unfold is_u32 in Hx. unfold is_u64 in *.
  split; [apply Z.div_pos; nia | apply Z.div_lt_upper_bound; nia].
Qed.

Lemma umul96_upper64_spec_witness :
  umul96_upper64 MulInt128 Mul64Native (2 ^ 32 - 1) (2 ^ 64 - 1)
  = (2 ^ 32 - 1) * (2 ^ 64 - 1) / 2 ^ 32.
Proof.
  refine (proj1 (umul96_upper64_spec MulInt128 Mul64Native (2 ^ 32 - 1) (2 ^ 64 - 1) _ _)).
  - unfold is_u32; lia.
  - unfold is_u64; lia.
Defined.

Lemma umul192_lower128_value m i x y : is_u64 x -> uint128_wf y ->
  to_Z (umul192_lower128 m i x y) = (x * to_Z y) mod 2 ^ 128 /\
  uint128_wf (umul192_lower128 m i x y) /\
  high (umul192_lower128 m i x y) = (x * to_Z y / 2 ^ 64) mod 2 ^ 64 /\
  low (umul192_lower128 m i x y) = (x * to_Z y) mod 2 ^ 64.
Proof.
  intros Hx (Hh & Hl).
  unfold umul192_lower128. rewrite umul128_exact by assumption. cbn [high low].
  unfold to_Z; cbn [high low]. unfold u64.
  set (a := x * high y). set (b := x * low y).
  assert (E : x * (high y * 2 ^ 64 + low y) = b + a * 2 ^ 64) by (subst a b; ring).
  rewrite E.
  assert (Hhigh : (a mod 2 ^ 64 + b / 2 ^ 64) mod 2 ^ 64 = ((b + a * 2 ^ 64) / 2 ^ 64) mod 2 ^ 64).
  { rewrite Z.div_add by lia. rewrite (Z.add_comm (b / 2 ^ 64) a).
    rewrite Z.add_mod_idemp_l by lia. reflexivity. }
  assert (Hlow : b mod 2 ^ 64 = (b + a * 2 ^ 64) mod 2 ^ 64).
  { rewrite Z.mod_add by lia. reflexivity. }
  split.
  { rewrite Hhigh, Hlow.
    change (2 ^ 128) with (2 ^ 64 * 2 ^ 64).
    rewrite (Z.rem_mul_r (b + a * 2 ^ 64) (2 ^ 64) (2 ^ 64)) by lia. ring. }
  split.
  { unfold uint128_wf, is_u64; cbn [high low].
    split; apply Z.mod_pos_bound; lia. }
  split; [exact Hhigh | exact Hlow].
Qed.

(** X7: [umul192_lower128 x y] is the product of [x] and the number [y]
    stands for, modulo 2^128: the additions that wrap lose nothing below bit
    128.  All implementation branches agree. *)
Theorem umul192_lower128_spec (m : mul_impl) (i : mul64_impl) (x : Z) (y : uint128) :
  is_u64 x -> uint128_wf y ->
  to_Z (umul192_lower128 m i x y) = (x * to_Z y) mod 2 ^ 128 /\
  uint128_wf (umul192_lower128 m i x y) /\
  umul192_lower128 m i x y = umul192_lower128 MulPortable i x y.
Proof.
  intros Hx Hy.
  destruct (umul192_lower128_value m i x y Hx Hy) as (E & W & _).
  split; [exact E |]. split; [exact W |].
  unfold umul192_lower128. destruct Hy as (_ & Hl).
  rewrite !umul128_exact by assumption. reflexivity.
Qed.

Lemma umul192_lower128_spec_witness :
  to_Z (umul192_lower128 MulPortable Mul64Native (2 ^ 63 + 1) (mk_uint128 3 (2 ^ 64 - 1)))
  = ((2 ^ 63 + 1) * to_Z (mk_uint128 3 (2 ^ 64 - 1))) mod 2 ^ 128.
Proof.
  refine (proj1 (umul192_lower128_spec MulPortable Mul64Native (2 ^ 63 + 1)
                   (mk_uint128 3 (2 ^ 64 - 1)) _ _)).
  - unfold is_u64; lia.
  - unfold uint128_wf, is_u64; cbn; lia.
Defined.

(** X8: [umul96_lower64 x y] is the product modulo 2^64; with
    [umul96_upper64] it holds the whole 96-bit product, the two results
    overlapping in 32 bits on which they agree. *)
Theorem umul96_halves (m : mul_impl) (i : mul64_impl) (x y : Z) :
  is_u32 x -> is_u64 y ->
  umul96_lower64 x y = (x * y) mod 2 ^ 64 /\
  x * y = umul96_upper64 m i x y * 2 ^ 32 + umul96_lower64 x y mod 2 ^ 32 /\
  umul96_upper64 m i x y mod 2 ^ 32 = umul96_lower64 x y / 2 ^ 32.
Proof.
  intros Hx Hy. rewrite umul96_upper64_exact by assumption.
  unfold umul96_lower64, u64.
  split; [reflexivity |].
  set (p := x * y).
  change (2 ^ 64) with (2 ^ 32 * 2 ^ 32).
  rewrite (Z.rem_mul_r p (2 ^ 32) (2 ^ 32)) by lia.
  pose proof (Z.mod_pos_bound p (2 ^ 32) ltac:(lia)) as Hr.
  set (r := p mod 2 ^ 32) in *. set (q := (p / 2 ^ 32) mod 2 ^ 32).
  replace (r + 2 ^ 32 * q) with (r + q * 2 ^ 32) by ring.
  split.
  - rewrite Z.mod_add by lia. rewrite (Z.mod_small r) by lia.
    pose proof (Z.div_mod p (2 ^ 32)). subst r. lia.
  - rewrite Z.div_add by lia. rewrite (Z.div_small r) by lia. reflexivity.
Qed.

Lemma umul96_halves_witness :
  umul96_lower64 (2 ^ 32 - 1) (2 ^ 64 - 1) = ((2 ^ 32 - 1) * (2 ^ 64 - 1)) mod 2 ^ 64.
Proof.
  refine (proj1 (umul96_halves MulPortable Mul64Native (2 ^ 32 - 1) (2 ^ 64 - 1) _ _)).
  - unfold is_u32; lia.
  - unfold is_u64; lia.
Defined.

(** X9: [umul192_upper128] and [umul192_lower128] are the two ends of one
    192-bit product: they agree on the middle 64 bits, and the product is
    rebuilt from the upper result and the low word of the lower one, or from
    the high word of the upper result and the lower one. *)
Theorem umul192_halves (m : mul_impl) (i : mul64_impl) (a : add_impl)
    (x : Z) (y : uint128) :
  is_u64 x -> uint128_wf y ->
  let upper := umul192_upper128 m i a x y in
  let lower := umul192_lower128 m i x y in
  x * to_Z y = high upper * 2 ^ 128 + to_Z lower /\
  low upper = high lower /\
  x * to_Z y = to_Z upper * 2 ^ 64 + low lower.
Proof.
  intros Hx Hy upper lower.
  destruct (umul192_lower128_value m i x y Hx Hy) as (El & Wl & Ehl & Ell).
  fold lower in El, Wl, Ehl, Ell.
  assert (Eu : to_Z upper = x * to_Z y / 2 ^ 64 /\ uint128_wf upper).
  { subst upper. unfold umul192_upper128.
    destruct Hy as (Hh & Hl0).
    destruct (umul128_value m i x (high y) Hx Hh) as (Er & Wr).
    pose proof (umul128_upper64_exact m i x (low y) Hx Hl0) as Eup.
    pose proof (mul_u64_bound x (low y) Hx Hl0) as (_ & Hb).
    destruct (add_assign_value a (umul128 m i x (high y))
                (umul128_upper64 m i x (low y)) Wr
                ltac:(rewrite Eup; exact Hb)) as (Ev & Wv).
    split; [| exact Wv].
    rewrite Ev, Er, Eup. unfold to_Z.
    replace (x * (high y * 2 ^ 64 + low y)) with (x * low y + x * high y * 2 ^ 64) by ring.
    rewrite Z.div_add by lia. rewrite (Z.add_comm (x * low y / 2 ^ 64)).
    apply Z.mod_small.
    unfold is_u64 in *. 
    assert (0 <= x * high y <= (2 ^ 64 - 1) * (2 ^ 64 - 1)) by nia.
    change (2 ^ 128) with (2 ^ 64 * 2 ^ 64). lia. }
  destruct Eu as (Eu & Wu).
  set (p := x * to_Z y) in *.
  assert (Hlow : low upper = (p / 2 ^ 64) mod 2 ^ 64).
  { destruct Wu as (Hhu & Hlu). unfold to_Z in Eu. unfold is_u64 in *.
    rewrite <- Eu. rewrite Z.add_comm, Z.mod_add by lia.
    symmetry. apply Z.mod_small. lia. }
  assert (Hhigh : high upper = p / 2 ^ 64 / 2 ^ 64).
  { destruct Wu as (Hhu & Hlu). unfold to_Z in Eu. unfold is_u64 in *.
    rewrite <- Eu. rewrite Z.add_comm, Z.div_add by lia.
    rewrite (Z.div_small (low upper)) by lia. reflexivity. }
  split.
  { rewrite El, Hhigh. rewrite Z.div_div by lia.
    change (2 ^ 64 * 2 ^ 64) with (2 ^ 128).
    pose proof (Z.div_mod p (2 ^ 128)). lia. }
  split; [rewrite Hlow, Ehl; reflexivity |].
  rewrite Eu, Ell. pose proof (Z.div_mod p (2 ^ 64)). lia.
Qed.

Lemma umul192_halves_witness :
  low (umul192_upper128 MulPortable Mul64Native AddManual (2 ^ 63 + 1)
         (mk_uint128 3 (2 ^ 64 - 1)))
  = high (umul192_lower128 MulPortable Mul64Native (2 ^ 63 + 1)
            (mk_uint128 3 (2 ^ 64 - 1))).
Proof.
  refine (proj1 (proj2 (umul192_halves MulPortable Mul64Native AddManual (2 ^ 63 + 1)
                   (mk_uint128 3 (2 ^ 64 - 1)) _ _))).
  - unfold is_u64; lia.
  - unfold uint128_wf, is_u64; cbn; lia.
Defined.

End Emulated128Facts.

(** ** The digit comparison *)

Module FastFloatFacts.
Import FastFloat.

Lemma i32_add_l a b : i32 (i32 a + b) = i32 (a + b).
Proof.
  unfold i32. f_equal.
  replace ((a + 2 ^ 31) mod 2 ^ 32 - 2 ^ 31 + b + 2 ^ 31)
    with ((a + 2 ^ 31) mod 2 ^ 32 + b) by ring.
  rewrite Zplus_mod_idemp_l. f_equal. ring.
Qed.

Lemma i32_sub_l a b : i32 (i32 a - b) = i32 (a - b).
Proof. unfold Z.sub. apply i32_add_l. Qed.

(** *** The iteration budget of [while] *)

Lemma while_rule {S : Type} (I : S -> Prop) (measure : S -> nat)
    (cond : S -> bool) (body : S -> S) :
  (forall s, I s -> cond s = true ->
     I (body s) /\ (measure (body s) < measure s)%nat) ->
  forall fuel s, I s -> (measure s <= fuel)%nat ->
  exists s', while fuel cond body s = Some s' /\ I s' /\ cond s' = false.
Proof.
  intros Hstep fuel. induction fuel as [| fuel IH]; intros s Hs Hm; cbn [while].
  - destruct (cond s) eqn:Hc.
    + destruct (Hstep s Hs Hc) as [_ Hlt]. lia.
    + exists s. auto.
  - destruct (cond s) eqn:Hc.
    + destruct (Hstep s Hs Hc) as [Hi Hlt]. apply IH; [exact Hi | lia].
    + exists s. auto.
Qed.

Lemma while_false {S : Type} fuel (cond : S -> bool) body s :
  cond s = false -> while fuel cond body s = Some s.
Proof. intros H. destruct fuel; cbn [while]; rewrite H; reflexivity. Qed.

(** *** Shifts *)

Lemma shl64_some x s : 0 <= s < 64 -> shl64 x s = Some (u64 (x * 2 ^ s)).
Proof.
  intros H. unfold shl64.
  replace (0 <=? s) with true by (symmetry; apply Z.leb_le; lia).
  replace (s <? 64) with true by (symmetry; apply Z.ltb_lt; lia).
  cbn [andb]. rewrite Z.shiftl_mul_pow2 by lia. reflexivity.
Qed.

Lemma shr64_some x s : 0 <= s < 64 -> shr64 x s = Some (Z.shiftr x s).
Proof.
  intros H. unfold shr64.
  replace (0 <=? s) with true by (symmetry; apply Z.leb_le; lia).
  replace (s <? 64) with true by (symmetry; apply Z.ltb_lt; lia).
  reflexivity.
Qed.

Lemma pow2_lt_64 s : 0 <= s < 64 -> 0 < 2 ^ s < 2 ^ 64.
Proof.
  intros H. split. apply Z.pow_pos_nonneg; lia.
  apply Z.pow_lt_mono_r; lia.
Qed.

Lemma shl64_one s : 0 <= s < 64 -> shl64 1 s = Some (2 ^ s).
Proof.
  intros H. rewrite shl64_some by exact H. rewrite Z.mul_1_l.
  rewrite u64_small; [reflexivity |]. unfold is_u64. pose proof (pow2_lt_64 s H). lia.
Qed.

Lemma shl64_two s : 0 <= s < 63 -> shl64 2 s = Some (2 ^ (s + 1)).
Proof.
  intros H. rewrite shl64_some by lia.
  replace (2 * 2 ^ s) with (2 ^ (s + 1)) by (rewrite Z.pow_add_r by lia; lia).
  rewrite u64_small; [reflexivity |]. unfold is_u64.
  pose proof (pow2_lt_64 (s + 1)). lia.
Qed.

Lemma shifted_mantissa_some x shift : 0 <= shift <= 64 ->
  (if shift =? 64 then Some 0 else shr64 x shift)
  = Some (if shift =? 64 then 0 else Z.shiftr x shift).
Proof.
  intros H. destruct (Z.eqb_spec shift 64) as [E | E]; [reflexivity |].
  apply shr64_some. lia.
Qed.

Lemma discard_mask_some shift : 0 <= shift <= 64 ->
  discard_mask shift = Some (if shift =? 64 then UINT64_MAX else 2 ^ shift - 1).
Proof.
  intros H. unfold discard_mask.
  destruct (Z.eqb_spec shift 64) as [E | E]; [reflexivity |].
  rewrite shl64_one by lia. cbn [bind].
  rewrite u64_small; [reflexivity |]. unfold is_u64.
  pose proof (pow2_lt_64 shift). lia.
Qed.

Lemma halfway_bit_some shift : 0 <= shift <= 64 ->
  halfway_bit shift = Some (if shift =? 0 then 0 else 2 ^ (shift - 1)).
Proof.
  intros H. unfold halfway_bit.
  destruct (Z.eqb_spec shift 0) as [E | E]; [reflexivity |].
  rewrite i32_small by (unfold is_i32; lia).
  apply shl64_one. lia.
Qed.

(** *** round_nearest_tie_even and round_down *)

Lemma round_nearest_tie_even_some am shift cb : 0 <= shift <= 64 ->
  round_nearest_tie_even am shift cb =
  let mask := if shift =? 64 then UINT64_MAX else 2 ^ shift - 1 in
  let halfway := if shift =? 0 then 0 else 2 ^ (shift - 1) in
  let bits := Z.land (mantissa am) mask in
  let m := if shift =? 64 then 0 else Z.shiftr (mantissa am) shift in
  Some (mk_am (u64 (m + (if cb (Z.land m 1 =? 1) (bits =? halfway) (bits >? halfway)
                         then 1 else 0)))
              (i32 (power2 am + shift))).
Proof.
  intros H. unfold round_nearest_tie_even.
  rewrite discard_mask_some, halfway_bit_some, shifted_mantissa_some by exact H.
  reflexivity.
Qed.

Lemma round_down_some am shift : 0 <= shift <= 64 ->
  round_down am shift =
  Some (mk_am (if shift =? 64 then 0 else Z.shiftr (mantissa am) shift)
              (i32 (power2 am + shift))).
Proof.
  intros H. unfold round_down. rewrite shifted_mantissa_some by exact H. reflexivity.
Qed.

(** C10: for a shift in [0, 64] both shift functions return; a shift of 64 is
    not passed to [>>] or [<<]: the mantissa becomes 0 and the discard mask
    all ones; [power2] becomes [power2 + shift]. *)
Theorem round_shift_total (am : adjusted_mantissa) (shift : Z) (cb : tie_fn) :
  0 <= shift <= 64 ->
  let m := if shift =? 64 then 0 else Z.shiftr (mantissa am) shift in
  discard_mask shift = Some (if shift =? 64 then UINT64_MAX else 2 ^ shift - 1) /\
  (exists up : bool,
     round_nearest_tie_even am shift cb
     = Some (mk_am (u64 (m + (if up then 1 else 0))) (i32 (power2 am + shift)))) /\
  round_down am shift = Some (mk_am m (i32 (power2 am + shift))) /\
  (is_i32 (power2 am + shift) -> i32 (power2 am + shift) = power2 am + shift) /\
  (shift = 64 -> m = 0) /\
  shr64 (mantissa am) 64 = None /\ shl64 1 64 = None.
Proof.
  intros H m.
  split; [apply discard_mask_some; exact H |].
  split.
  { rewrite round_nearest_tie_even_some by exact H. cbv zeta. fold m.
    eexists. reflexivity. }
  split; [apply round_down_some; exact H |].
  split; [apply i32_small |].
  split; [intros ->; reflexivity |].
  split; reflexivity.
Qed.

Lemma round_shift_total_witness :
  0 <= 64 <= 64 /\
  round_down (mk_am (2 ^ 64 - 1) 5) 64 = Some (mk_am 0 (i32 (5 + 64))).
Proof.
  assert (H : 0 <= 64 <= 64) by lia.
  split; [exact H |].
  exact (proj1 (proj2 (proj2 (round_shift_total (mk_am (2 ^ 64 - 1) 5) 64
                                 (fun _ _ _ => true) H)))).
Defined.



(** *** round *)

Lemma u64_testbit x n : 0 <= n ->
  Z.testbit (u64 x) n = (n <? 64) && Z.testbit x n.
Proof.
  intros Hn. unfold u64. destruct (Z.ltb_spec n 64).
  - rewrite Z.mod_pow2_bits_low by lia. reflexivity.
  - rewrite Z.mod_pow2_bits_high by lia. reflexivity.
Qed.

Lemma is_u64_testbit_high x n : is_u64 x -> 64 <= n -> Z.testbit x n = false.
Proof.
  intros Hx Hn. rewrite <- (u64_small x Hx), u64_testbit by lia.
  replace (n <? 64) with false by (symmetry; apply Z.ltb_ge; lia). reflexivity.
Qed.

Lemma mask_hidden_bit m eb : is_u64 m -> 0 <= eb ->
  Z.land m (u64 (Z.lnot (2 ^ eb))) = Z.clearbit m eb.
Proof.
  intros Hm Heb. apply Z.bits_inj'. intros n Hn.
  rewrite Z.land_spec, u64_testbit, Z.lnot_spec, Z.clearbit_eqb by lia.
  rewrite Z.pow2_bits_eqb by lia.
  destruct (Z.ltb_spec n 64) as [Hlt | Hge]; cbn [andb].
  - rewrite Z.eqb_sym. reflexivity.
  - rewrite (is_u64_testbit_high m n Hm Hge). reflexivity.
Qed.

Lemma round_normal_run (fmt : binary_format) (am : adjusted_mantissa) (cb : shift_fn) :
  let eb := mantissa_explicit_bits fmt in
  0 <= eb <= 62 ->
  is_i32 (power2 am) ->
  - power2 am < 64 - eb - 1 ->
  (cb am (64 - eb - 1) = None -> round fmt am cb = None) /\
  (forall am1, cb am (64 - eb - 1) = Some am1 ->
     is_u64 (mantissa am1) -> is_i32 (power2 am1 + 1) ->
     round fmt am cb = Some (round_normal_spec fmt am1)).
Proof.
  cbv zeta. remember (mantissa_explicit_bits fmt) as eb eqn:Eeb.
  intros Heb Hp Hnormal.
  assert (Hshift : i32 (i32 (64 - eb) - 1) = 64 - eb - 1).
  { rewrite (i32_small (64 - eb)) by (unfold is_i32; lia).
    apply i32_small. unfold is_i32; lia. }
  assert (Hneg : i32 (- power2 am) = - power2 am).
  { unfold is_i32 in *. apply i32_small. unfold is_i32. lia. }
  assert (Hbranch : (i32 (- power2 am) >=? i32 (i32 (64 - eb) - 1)) = false).
  { rewrite Hshift, Hneg. rewrite Z.geb_leb. apply Z.leb_gt. lia. }
  unfold round. rewrite <- Eeb, Hbranch, Hshift.
  split.
  - intros ->. reflexivity.
  - intros am1 -> Hm1 Hp1. cbn [bind].
    rewrite shl64_two, shl64_one by lia. cbn [bind].
    unfold round_normal_spec. rewrite <- Eeb.
    rewrite (i32_small (power2 am1 + 1)) by exact Hp1.
    rewrite !Z.geb_leb.
    assert (Hm2 : is_u64 (mantissa (if 2 ^ (eb + 1) <=? mantissa am1
                                   then mk_am (2 ^ eb) (power2 am1 + 1) else am1))).
    { destruct (2 ^ (eb + 1) <=? mantissa am1); [| exact Hm1].
      cbn [mantissa]. unfold is_u64. pose proof (pow2_lt_64 eb ltac:(lia)). lia. }
    rewrite mask_hidden_bit by (exact Hm2 || lia).
    cbn [power2 mantissa].
    destruct (infinite_power fmt <=? _); reflexivity.
Qed.

(** C4: in the normal regime [round] passes the shift 64 - explicit_bits - 1
    to the callback; a retained mantissa of at least 2^(explicit_bits+1)
    becomes 2^explicit_bits with [power2] incremented; the hidden bit is then
    cleared; a [power2] that has reached [infinite_power] gives
    [power2 = infinite_power] and [mantissa = 0]. *)
Theorem round_normal (fmt : binary_format) (am : adjusted_mantissa) (cb : shift_fn) :
  let eb := mantissa_explicit_bits fmt in
  0 <= eb <= 62 ->
  is_i32 (power2 am) ->
  - power2 am < 64 - eb - 1 ->
  (cb am (64 - eb - 1) = None -> round fmt am cb = None) /\
  (forall am1, cb am (64 - eb - 1) = Some am1 ->
     is_u64 (mantissa am1) -> is_i32 (power2 am1 + 1) ->
     round fmt am cb = Some (round_normal_spec fmt am1)).
Proof. exact (round_normal_run fmt am cb). Qed.

Lemma round_normal_witness :
  0 <= mantissa_explicit_bits binary64 <= 62 /\
  round binary64 (mk_am (2 ^ 64 - 1) 1000) round_down
  = Some (round_normal_spec binary64 (mk_am (2 ^ 53 - 1) 1011)).
Proof.
  assert (Heb : 0 <= mantissa_explicit_bits binary64 <= 62) by (cbn; lia).
  split; [exact Heb |].
  refine (proj2 (round_normal binary64 (mk_am (2 ^ 64 - 1) 1000) round_down Heb _ _)
            (mk_am (2 ^ 53 - 1) 1011) _ _ _).
  - unfold is_i32; cbn; lia.
  - cbn; lia.
  - reflexivity.
  - unfold is_u64; cbn; lia.
  - unfold is_i32; cbn; lia.
Defined.

(** *** scientific_exponent *)

Lemma pow10_ge_10 k : 1 <= k -> 10 <= 10 ^ k.
Proof.
  intros H. change 10 with (10 ^ 1) at 1. apply Z.pow_le_mono_r; lia.
Qed.

Lemma log2_div_lt x d : 2 <= d -> d <= x ->
  (Z.to_nat (Z.log2 (x / d)) < Z.to_nat (Z.log2 x))%nat.
Proof.
  intros Hd Hx.
  assert (H1 : x / d <= x / 2).
  { apply Z.div_le_compat_l; lia. }
  assert (H2 : Z.log2 (x / 2) = Z.log2 x - 1).
  { rewrite <- Z.div2_div, Z.div2_spec, Z.log2_shiftr by lia.
    pose proof (Z.log2_nonneg x).
    assert (1 <= Z.log2 x) by (apply Z.log2_le_pow2; lia). lia. }
  pose proof (Z.log2_le_mono _ _ H1).
  pose proof (Z.log2_nonneg (x / d)). lia.
Qed.

Lemma sci_loop_spec m0 e0 d k s :
  is_u64 m0 -> sci_step_ok (d, k) -> sci_inv m0 e0 s ->
  exists s', sci_loop d k s = Some s' /\ sci_inv m0 e0 s' /\ fst s' < d /\
             (fst s < 10 -> fst s' < 10).
Proof.
  intros Hm [Hk Hd] Hs. cbn [fst snd] in Hk, Hd.
  pose proof (pow10_ge_10 k Hk) as Hd10. rewrite <- Hd in Hd10.
  destruct (while_rule
              (fun t => sci_inv m0 e0 t /\ (fst s < 10 -> t = s))
              (fun t => Z.to_nat (Z.log2 (fst t)))
              (sci_cond d) (sci_body d k)) with (fuel := 64%nat) (s := s)
    as (s' & Hw & [Hi Hsame] & Hc).
  - intros t [(j & Hj & Hf & He & Hpos) Hsame] Hc.
    unfold sci_cond in Hc. rewrite Z.geb_leb in Hc. apply Z.leb_le in Hc.
    split; [split |].
    + exists (j + k). unfold sci_body; cbn [fst snd].
      split; [lia |]. split.
      { rewrite Hf, Z.pow_add_r, Hd by lia.
        apply Z.div_div;
          first [apply Z.pow_pos_nonneg; lia | apply Z.pow_nonzero; lia]. }
      split.
      { rewrite He, i32_add_l. f_equal. ring. }
      intros _. apply Z.div_le_lower_bound; lia.
    + intros Hlt. rewrite (Hsame Hlt) in Hc. lia.
    + unfold sci_body; cbn [fst]. apply log2_div_lt; lia.
  - split; [exact Hs | reflexivity].
  - destruct Hs as (j & Hj & Hf & _).
    assert (Hle : fst s <= m0).
    { rewrite Hf. unfold is_u64 in Hm.
      apply Z.div_le_upper_bound. apply Z.pow_pos_nonneg; lia.
      assert (0 < 10 ^ j) by (apply Z.pow_pos_nonneg; lia). nia. }
    assert (Hlog : Z.log2 (fst s) <= 63).
    { destruct (Z.le_gt_cases (fst s) 0).
      - rewrite Z.log2_nonpos by lia. lia.
      - assert (Z.log2 (fst s) < 64); [| lia].
        apply Z.log2_lt_pow2; unfold is_u64 in Hm; lia. }
    lia.
  - exists s'. unfold sci_loop. split; [exact Hw |]. split; [exact Hi |].
    unfold sci_cond in Hc. rewrite Z.geb_leb in Hc. apply Z.leb_gt in Hc.
    split; [exact Hc |]. intros Hlt. rewrite (Hsame Hlt). exact Hlt.
Qed.

Lemma sci_loops_spec m0 e0 steps : is_u64 m0 -> Forall sci_step_ok steps ->
  forall s, sci_inv m0 e0 s ->
  exists s', sci_loops steps s = Some s' /\ sci_inv m0 e0 s' /\
             (fst s < 10 \/ In (10, 1) steps -> fst s' < 10).
Proof.
  intros Hm Hok. induction Hok as [| [d k] rest Hdk Hrest IH]; intros s Hs.
  - exists s. cbn. split; [reflexivity |]. split; [exact Hs |].
    intros [H | []]. exact H.
  - destruct (sci_loop_spec m0 e0 d k s Hm Hdk Hs) as (s1 & H1 & Hi1 & Hlt1 & Hkeep1).
    destruct (IH s1 Hi1) as (s' & H2 & Hi2 & Hfin).
    exists s'. cbn [sci_loops]. rewrite H1. cbn [bind].
    split; [exact H2 |]. split; [exact Hi2 |].
    intros [Hlt | [Heq | Hin]].
    + apply Hfin. left. apply Hkeep1. exact Hlt.
    + inversion Heq; subst. apply Hfin. left. exact Hlt1.
    + apply Hfin. right. exact Hin.
Qed.

Lemma sci_inv_final m0 e0 s : 0 <= m0 -> sci_inv m0 e0 s -> fst s < 10 ->
  (m0 < 10 -> snd s = i32 e0) /\
  (forall k, 1 <= k -> 10 ^ (k - 1) <= m0 < 10 ^ k -> snd s = i32 (e0 + (k - 1))).
Proof.
  intros Hm0 (j & Hj & Hf & He & Hpos) Hlt.
  assert (Hp : 0 < 10 ^ j) by (apply Z.pow_pos_nonneg; lia).
  assert (Hup : m0 < 10 ^ (j + 1)).
  { rewrite Z.pow_add_r by lia. change (10 ^ 1) with 10.
    rewrite Hf in Hlt.
    pose proof (Z.div_mod m0 (10 ^ j) ltac:(lia)).
    pose proof (Z.mod_pos_bound m0 (10 ^ j) Hp). nia. }
  assert (Hlo : 0 < j -> 10 ^ j <= m0).
  { intros H0. specialize (Hpos H0). rewrite Hf in Hpos.
    destruct (Z.le_gt_cases (10 ^ j) m0) as [H | H]; [exact H |].
    rewrite Z.div_small in Hpos by lia. lia. }
  split.
  - intros Hsmall. assert (j = 0); [| subst j; rewrite He; f_equal; lia].
    destruct (Z.eq_dec j 0) as [E | E]; [exact E |].
    specialize (Hlo ltac:(lia)).
    pose proof (pow10_ge_10 j ltac:(lia)). lia.
  - intros k Hk [Hk1 Hk2]. assert (j = k - 1); [| subst j; exact He].
    assert (k - 1 < j + 1).
    { apply (Z.pow_lt_mono_r_iff 10); lia. }
    destruct (Z.eq_dec j 0) as [E | E]; [lia |].
    specialize (Hlo ltac:(lia)).
    assert (j < k). { apply (Z.pow_lt_mono_r_iff 10); lia. }
    lia.
Qed.

Lemma scientific_exponent_as_loops num :
  scientific_exponent num
  = scientific_exponent_in_order [(10000, 4); (100, 2); (10, 1)] num.
Proof.
  unfold scientific_exponent, scientific_exponent_in_order. cbn [sci_loops].
  destruct (sci_loop 10000 4 _) as [s1 |]; cbn [bind]; [| reflexivity].
  destruct (sci_loop 100 2 s1) as [s2 |]; cbn [bind]; [| reflexivity].
  destruct (sci_loop 10 1 s2) as [s3 |]; cbn [bind]; reflexivity.
Qed.

Lemma scientific_exponent_in_order_spec steps num :
  is_u64 (num_mantissa num) -> Forall sci_step_ok steps -> In (10, 1) steps ->
  exists r, scientific_exponent_in_order steps num = Some r /\
    (num_mantissa num < 10 -> r = i32 (exponent num)) /\
    (forall k, 1 <= k -> 10 ^ (k - 1) <= num_mantissa num < 10 ^ k ->
       r = i32 (exponent num + (k - 1))).
Proof.
  intros Hm Hok Hin.
  assert (H0 : sci_inv (num_mantissa num) (exponent num)
                 (num_mantissa num, i32 (exponent num))).
  { exists 0. cbn [fst snd]. rewrite Z.pow_0_r, Z.div_1_r, Z.add_0_r.
    repeat split; lia. }
  destruct (sci_loops_spec _ _ steps Hm Hok _ H0) as (s' & Hs & Hi & Hfin).
  exists (snd s'). unfold scientific_exponent_in_order. rewrite Hs. cbn [bind].
  split; [reflexivity |].
  apply sci_inv_final; [apply Hm | exact Hi | apply Hfin; right; exact Hin].
Qed.

Lemma sci_steps_ok : Forall sci_step_ok [(10000, 4); (100, 2); (10, 1)].
Proof. repeat constructor; cbn; lia. Qed.

(** C9: [scientific_exponent] returns the exponent unchanged for a mantissa
    below 10 and the exponent plus the decimal length of the mantissa minus 1
    otherwise (for a mantissa of [k] digits: [10^(k-1) <= m < 10^k]); the three
    loops give the same result in any order. *)
Theorem scientific_exponent_spec (num : parsed_number_string) :
  is_u64 (num_mantissa num) ->
  (num_mantissa num < 10 -> scientific_exponent num = Some (i32 (exponent num))) /\
  (forall k, 1 <= k -> 10 ^ (k - 1) <= num_mantissa num < 10 ^ k ->
     scientific_exponent num = Some (i32 (exponent num + (k - 1))) /\
     (is_i32 (exponent num + (k - 1)) ->
      scientific_exponent num = Some (exponent num + (k - 1)))) /\
  (forall steps, Permutation [(10000, 4); (100, 2); (10, 1)] steps ->
     scientific_exponent_in_order steps num = scientific_exponent num).
Proof.
  intros Hm.
  destruct (scientific_exponent_in_order_spec _ num Hm sci_steps_ok)
    as (r & Hr & Hsmall & Hk); [cbn; auto |].
  rewrite scientific_exponent_as_loops, Hr.
  split; [intros H; f_equal; apply Hsmall; exact H |].
  split.
  - intros k Hk1 Hk2. rewrite (Hk k Hk1 Hk2). split; [reflexivity |].
    intros Hi. rewrite i32_small by exact Hi. reflexivity.
  - intros steps Hperm.
    destruct (scientific_exponent_in_order_spec steps num Hm) as (r' & Hr' & Hsmall' & Hk').
    { apply (Permutation_Forall Hperm). exact sci_steps_ok. }
    { apply (Permutation_in _ Hperm). cbn; auto. }
    rewrite Hr'. f_equal.
    destruct (Z.lt_ge_cases (num_mantissa num) 10) as [Hlt | Hge].
    + rewrite (Hsmall Hlt), (Hsmall' Hlt). reflexivity.
    + (* the decimal length of the mantissa *)
      assert (Hex : exists k, 1 <= k /\ 10 ^ (k - 1) <= num_mantissa num < 10 ^ k).
      { unfold is_u64 in Hm. clear - Hm Hge.
        assert (Hgen : forall n : nat, forall m, 1 <= m < 10 ^ Z.of_nat n ->
                   exists k, 1 <= k /\ 10 ^ (k - 1) <= m < 10 ^ k).
        { induction n as [| n IH]; intros m Hmn.
          - cbn in Hmn. lia.
          - destruct (Z.lt_ge_cases m (10 ^ Z.of_nat n)) as [Hl | Hg].
            + apply IH. lia.
            + exists (Z.of_nat (S n)). split; [lia |].
              replace (Z.of_nat (S n) - 1) with (Z.of_nat n) by lia. lia. }
        apply (Hgen 20%nat). split; [lia |].
        change (10 ^ Z.of_nat 20) with 100000000000000000000.
        change (2 ^ 64) with 18446744073709551616 in Hm. lia. }
      destruct Hex as (k & Hk1 & Hk2).
      rewrite (Hk k Hk1 Hk2), (Hk' k Hk1 Hk2). reflexivity.
Qed.

Lemma scientific_exponent_spec_witness :
  is_u64 123456789 /\
  scientific_exponent (mk_num (-20) 123456789 [] None) = Some (-20 + (9 - 1)).
Proof.
  assert (Hm : is_u64 (num_mantissa (mk_num (-20) 123456789 [] None))).
  { unfold is_u64; cbn; lia. }
  split; [exact Hm |].
  refine (proj2 (proj1 (proj2 (scientific_exponent_spec _ Hm)) 9 _ _) _).
  - lia.
  - cbn; lia.
  - unfold is_i32; cbn; lia.
Defined.

(** *** The scaling of negative_digit_comp *)


Lemma Qpower_2_inject n : 0 <= n -> (inject_Z (2 ^ n) == Qpower 2 n)%Q.
Proof. intros H. apply (Zpower_Qpower 2 n H). Qed.










(** The halfway point in the run for "0.1". *)
Example theoretical_halfway_tenth :
  theoretical_halfway binary64 (mk_am 0xCCCCCCCCCCCCCCCC 1008)
  = Some (mk_am 14411518807585587 (-57)).
Proof. vm_compute. reflexivity. Qed.


(** *** parse_mantissa *)

(** *** Digit strings *)

Lemma dec_value_app l1 l2 :
  dec_value (l1 ++ l2) = dec_value l1 * 10 ^ Z.of_nat (length l2) + dec_value l2.
Proof.
  unfold dec_value.
  assert (G : forall l a b, fold_left (fun acc c => acc * 10 + (c - 48)) l (a * 1 + b)
               = a * 10 ^ Z.of_nat (length l)
                 + fold_left (fun acc c => acc * 10 + (c - 48)) l b).
  { induction l as [| c l IH]; intros a b.
    - cbn. ring.
    - cbn [fold_left length].
      replace ((a * 1 + b) * 10 + (c - 48)) with ((a * 10) * 1 + (b * 10 + (c - 48))) by ring.
      rewrite IH. rewrite Nat2Z.inj_succ, Z.pow_succ_r by lia. ring. }
  rewrite fold_left_app.
  specialize (G l2 (fold_left (fun acc c => acc * 10 + (c - 48)) l1 0) 0).
  rewrite Z.mul_1_r, Z.add_0_r in G. exact G.
Qed.

Lemma dec_value_snoc l c : dec_value (l ++ [c]) = dec_value l * 10 + (c - 48).
Proof. rewrite dec_value_app. cbn. lia. Qed.

Lemma dec_value_bound l : digits_ok l -> 0 <= dec_value l < 10 ^ Z.of_nat (length l).
Proof.
  induction l as [| c l IH] using rev_ind; intros H.
  - cbn. lia.
  - apply Forall_app in H. destruct H as [Hl Hc]. inversion Hc; subst.
    specialize (IH Hl). rewrite dec_value_snoc, length_app, Nat2Z.inj_add.
    cbn [length]. rewrite Z.pow_add_r by lia. change (10 ^ Z.of_nat 1) with 10. lia.
Qed.

Lemma strip_zeros_any_nonzero l : any_nonzero l = negb (Nat.eqb (length (strip_zeros l)) 0).
Proof.
  induction l as [| c l IH]; [reflexivity |].
  cbn [any_nonzero existsb strip_zeros]. destruct (c =? 48); cbn [negb orb].
  - exact IH.
  - reflexivity.
Qed.

Lemma strip_zeros_head l : 
  match strip_zeros l with [] => True | c :: _ => c <> 48 end.
Proof.
  induction l as [| c l IH]; cbn; [exact I |].
  destruct (Z.eqb_spec c 48); [exact IH | assumption].
Qed.

Lemma strip_zeros_idem l : strip_zeros (strip_zeros l) = strip_zeros l.
Proof.
  induction l as [| c l IH]; cbn; [reflexivity |].
  destruct (Z.eqb_spec c 48) as [E | E]; [exact IH |].
  cbn. destruct (Z.eqb_spec c 48); [contradiction | reflexivity].
Qed.

Lemma strip_zeros_skipn n l :
  forallb (Z.eqb 48) (firstn n l) = true -> strip_zeros (skipn n l) = strip_zeros l.
Proof.
  revert l. induction n as [| n IH]; intros l H; [reflexivity |].
  destruct l as [| c l]; [reflexivity |].
  cbn [firstn forallb] in H. apply andb_true_iff in H. destruct H as [Hc Hl].
  cbn [skipn strip_zeros]. apply Z.eqb_eq in Hc. subst c. cbn. apply IH. exact Hl.
Qed.

Lemma strip_zeros_digits_ok l : digits_ok l -> digits_ok (strip_zeros l).
Proof.
  induction 1 as [| c l Hc Hl IH]; cbn; [constructor |].
  destruct (c =? 48); [exact IH | constructor; assumption].
Qed.

Section ParseFacts.

Variable fastfloat_64bit : bool.
Variable uc_is_char : bool.
Variable int_cmp_len : nat.
Variable size_t_bits : Z.

Hypothesis int_cmp_len_pos : (1 <= int_cmp_len)%nat.
Hypothesis size_t_bits_ge : 8 <= size_t_bits.

Local Abbreviation skip_zeros := (skip_zeros int_cmp_len).
Local Abbreviation is_truncated := (is_truncated int_cmp_len).
Local Abbreviation zeros_block_cond := (zeros_block_cond int_cmp_len).

Lemma zeros_block_loop p :
  exists p1, while (length p) zeros_block_cond (skipn int_cmp_len) p = Some p1 /\
             strip_zeros p1 = strip_zeros p /\ zeros_block_cond p1 = false.
Proof.
  destruct (while_rule (fun t => strip_zeros t = strip_zeros p) (@length Z)
              zeros_block_cond (skipn int_cmp_len)) with (fuel := length p) (s := p)
    as (p1 & H1 & H2 & H3).
  - intros t Ht Hc. unfold FastFloat.zeros_block_cond in Hc.
    apply andb_true_iff in Hc. destruct Hc as [Hlen Hz].
    apply Nat.leb_le in Hlen. split.
    + rewrite <- Ht. apply strip_zeros_skipn. exact Hz.
    + rewrite length_skipn. lia.
  - reflexivity.
  - lia.
  - exists p1. auto.
Qed.

Lemma zero_unit_loop p :
  while (length p) zero_unit_cond (@tl Z) p = Some (strip_zeros p).
Proof.
  induction p as [| c p IH]; [reflexivity |].
  cbn [length while zero_unit_cond strip_zeros tl]. unfold zero_char.
  destruct (c =? 48); [exact IH | reflexivity].
Qed.

Lemma skip_zeros_spec p : skip_zeros p = Some (strip_zeros p).
Proof.
  unfold FastFloat.skip_zeros.
  destruct (zeros_block_loop p) as (p1 & H1 & H2 & _).
  rewrite H1. cbn [bind]. rewrite zero_unit_loop, H2. reflexivity.
Qed.

Lemma is_truncated_spec p : is_truncated p = Some (any_nonzero p).
Proof.
  unfold FastFloat.is_truncated.
  destruct (zeros_block_loop p) as (p1 & H1 & H2 & H3).
  rewrite H1. cbn [bind]. rewrite strip_zeros_any_nonzero, <- H2.
  destruct (Nat.leb_spec int_cmp_len (length p1)) as [Hle | Hgt].
  - unfold FastFloat.zeros_block_cond in H3.
    replace (int_cmp_len <=? length p1)%nat with true in H3
      by (symmetry; apply Nat.leb_le; exact Hle).
    cbn [andb] in H3. f_equal.
    destruct (strip_zeros p1) as [| c l] eqn:E; [| reflexivity].
    exfalso. unfold block_is_zeros, zero_char in H3.
    assert (G : forall n l, strip_zeros l = [] -> forallb (Z.eqb 48) (firstn n l) = true).
    { clear. induction n as [| n IH]; intros l H; [reflexivity |].
      destruct l as [| c l]; [reflexivity |]. cbn in H |- *.
      destruct (Z.eqb_spec c 48) as [-> | ?]; [| discriminate]. cbn. apply IH. exact H. }
    rewrite (G _ _ E) in H3. discriminate.
  - rewrite zero_unit_loop. reflexivity.
Qed.

Local Abbreviation limb := (limb fastfloat_64bit).
Local Abbreviation step := (step fastfloat_64bit).
Local Abbreviation size_t := (size_t size_t_bits).
Local Abbreviation parse_eight_digits := (parse_eight_digits fastfloat_64bit size_t_bits).
Local Abbreviation parse_one_digit := (parse_one_digit fastfloat_64bit size_t_bits).
Local Abbreviation eight_cond := (eight_cond fastfloat_64bit size_t_bits).
Local Abbreviation one_cond := (one_cond fastfloat_64bit).
Local Abbreviation parse_group := (parse_group fastfloat_64bit uc_is_char size_t_bits).
Local Abbreviation parse_span := (parse_span fastfloat_64bit uc_is_char int_cmp_len size_t_bits).
Local Abbreviation parse_mantissa := (parse_mantissa fastfloat_64bit uc_is_char int_cmp_len size_t_bits).

Lemma step_range : 9 <= step <= 19.
Proof. unfold FastFloat.step. destruct fastfloat_64bit; lia. Qed.

Lemma limb_small z : 0 <= z <= 10 ^ step -> limb z = z.
Proof.
  unfold FastFloat.limb, FastFloat.step. destruct fastfloat_64bit; intros H.
  - apply u64_small. unfold is_u64. change (10 ^ 19) with 10000000000000000000 in H.
    change (2 ^ 64) with 18446744073709551616. lia.
  - apply u32_small. unfold is_u32. change (10 ^ 9) with 1000000000 in H.
    change (2 ^ 32) with 4294967296. lia.
Qed.

Lemma size_t_small z : 0 <= z < 2 ^ size_t_bits -> size_t z = z.
Proof. intros H. unfold FastFloat.size_t. apply Z.mod_small. exact H. Qed.

Lemma size_t_bits_bound : 256 <= 2 ^ size_t_bits.
Proof. change 256 with (2 ^ 8). apply Z.pow_le_mono_r; lia. Qed.

Lemma power_of_ten_spec k : 0 <= k <= 19 -> power_of_ten k = Some (10 ^ k).
Proof.
  intros H.
  assert (E : k = 0 \/ k = 1 \/ k = 2 \/ k = 3 \/ k = 4 \/ k = 5 \/ k = 6 \/ k = 7 \/
              k = 8 \/ k = 9 \/ k = 10 \/ k = 11 \/ k = 12 \/ k = 13 \/ k = 14 \/
              k = 15 \/ k = 16 \/ k = 17 \/ k = 18 \/ k = 19) by lia.
  repeat (destruct E as [-> | E]; [reflexivity |]). subst k. reflexivity.
Qed.

Lemma firstn_plus (j n : nat) (l : list Z) :
  firstn (j + n) l = firstn j l ++ firstn n (skipn j l).
Proof.
  revert l. induction j as [| j IH]; intros l; [reflexivity |].
  destruct l as [| c l]; cbn [Nat.add firstn skipn app].
  - rewrite firstn_nil. reflexivity.
  - rewrite IH. reflexivity.
Qed.

Lemma digits_ok_firstn n l : digits_ok l -> digits_ok (firstn n l).
Proof.
  unfold digits_ok. intros H. revert n.
  induction H as [| c l Hc Hl IH]; intros [| n]; cbn [firstn];
    try constructor; auto.
Qed.

Lemma digits_ok_skipn n l : digits_ok l -> digits_ok (skipn n l).
Proof.
  unfold digits_ok. intros H. revert n.
  induction H as [| c l Hc Hl IH]; intros [| n]; cbn [skipn];
    try constructor; auto.
Qed.

Section Group.

Variable max_digits : Z.
Variable p0 : list Z.
Variable d0 : Z.
Variable r0 : bigint.

Hypothesis max_digits_range : 0 <= max_digits /\ max_digits + 1 < 2 ^ size_t_bits.
Hypothesis d0_range : 0 <= d0 <= max_digits.
Hypothesis p0_ok : digits_ok p0.

Local Abbreviation gsize := (FastFloat.group_size fastfloat_64bit max_digits p0 d0).
Local Abbreviation gstate := (FastFloat.group_state p0 d0 r0).
Local Abbreviation ginv := (FastFloat.group_inv fastfloat_64bit max_digits p0 d0 r0).

Lemma group_value_bound j n : Z.of_nat (j + n) <= gsize ->
  dec_value (firstn (j + n) p0)
  = dec_value (firstn j p0) * 10 ^ Z.of_nat n + dec_value (firstn n (skipn j p0)) /\
  0 <= dec_value (firstn n (skipn j p0)) < 10 ^ Z.of_nat n /\
  0 <= dec_value (firstn j p0) * 10 ^ Z.of_nat n < 10 ^ step /\
  0 <= dec_value (firstn (j + n) p0) < 10 ^ step.
Proof.
  intros Hle. unfold FastFloat.group_size in Hle.
  assert (Hlen : length (firstn n (skipn j p0)) = n).
  { rewrite length_firstn, length_skipn. lia. }
  assert (Hlenj : length (firstn j p0) = j) by (rewrite length_firstn; lia).
  assert (Hlenjn : length (firstn (j + n) p0) = (j + n)%nat) by (rewrite length_firstn; lia).
  pose proof (dec_value_bound (firstn n (skipn j p0))
                (digits_ok_firstn _ _ (digits_ok_skipn _ _ p0_ok))) as B1.
  pose proof (dec_value_bound (firstn j p0) (digits_ok_firstn _ _ p0_ok)) as B2.
  pose proof (dec_value_bound (firstn (j + n) p0) (digits_ok_firstn _ _ p0_ok)) as B3.
  rewrite Hlen in B1. rewrite Hlenj in B2. rewrite Hlenjn in B3.
  assert (Hpow : 10 ^ Z.of_nat (j + n) <= 10 ^ step) by (apply Z.pow_le_mono_r; lia).
  assert (Hsplit : 10 ^ Z.of_nat (j + n) = 10 ^ Z.of_nat j * 10 ^ Z.of_nat n).
  { rewrite Nat2Z.inj_add, Z.pow_add_r by lia. reflexivity. }
  assert (0 < 10 ^ Z.of_nat n) by (apply Z.pow_pos_nonneg; lia).
  split.
  { rewrite firstn_plus, dec_value_app, Hlen. reflexivity. }
  split; [exact B1 |]. split; [nia | lia].
Qed.

Lemma parse_eight_digits_step j :
  digits_ok p0 -> eight_cond max_digits (gstate j) = true ->
  Z.of_nat j <= gsize ->
  Z.of_nat (j + 8) <= gsize /\
  parse_eight_digits (gstate j) = gstate (j + 8).
Proof.
  intros _ Hc Hj. unfold FastFloat.group_size in Hj |- *.
  pose proof step_range as Hstep. pose proof size_t_bits_bound as Hsz.
  unfold FastFloat.eight_cond, FastFloat.group_state in Hc. cbn [pm_p pm_counter pm_digits] in Hc.
  rewrite length_skipn in Hc.
  rewrite !size_t_small in Hc by lia.
  apply andb_true_iff in Hc. destruct Hc as [Hc H3].
  apply andb_true_iff in Hc. destruct Hc as [H1 H2].
  apply Z.leb_le in H1. rewrite Z.geb_leb in H2, H3.
  apply Z.leb_le in H2. apply Z.leb_le in H3.
  assert (Hle : Z.of_nat (j + 8) <= gsize) by (unfold FastFloat.group_size; lia).
  split; [exact Hle |].
  destruct (group_value_bound j 8 Hle) as (E & B1 & B2 & B3).
  change (Z.of_nat 8) with 8 in *. change (10 ^ 8) with 100000000 in *.
  unfold FastFloat.parse_eight_digits, FastFloat.group_state.
  cbn [pm_p pm_value pm_counter pm_digits pm_result].
  f_equal.
  - rewrite skipn_skipn. f_equal. lia.
  - unfold parse_eight_digits_unrolled, zero_char. fold (dec_value (firstn 8 (skipn j p0))).
    rewrite (u32_small (dec_value _)) by (unfold is_u32; change (2 ^ 32) with 4294967296; lia).
    rewrite (limb_small (_ * _)) by lia.
    rewrite <- E. apply limb_small. lia.
  - rewrite size_t_small by lia. lia.
  - rewrite size_t_small by lia. lia.
Qed.

Lemma parse_one_digit_step j :
  one_cond max_digits (gstate j) = true ->
  Z.of_nat j <= gsize ->
  Z.of_nat (j + 1) <= gsize /\
  parse_one_digit (gstate j) = gstate (j + 1).
Proof.
  intros Hc Hj. unfold FastFloat.group_size in Hj |- *.
  pose proof step_range as Hstep. pose proof size_t_bits_bound as Hsz.
  unfold FastFloat.one_cond, FastFloat.group_state in Hc. cbn [pm_p pm_counter pm_digits] in Hc.
  rewrite length_skipn in Hc.
  apply andb_true_iff in Hc. destruct Hc as [Hc H3].
  apply andb_true_iff in Hc. destruct Hc as [H1 H2].
  apply Z.ltb_lt in H1, H3. apply negb_true_iff, Nat.eqb_neq in H2.
  assert (Hle : Z.of_nat (j + 1) <= gsize) by (unfold FastFloat.group_size; lia).
  split; [exact Hle |].
  destruct (group_value_bound j 1 Hle) as (E & B1 & B2 & B3).
  change (Z.of_nat 1) with 1 in *. change (10 ^ 1) with 10 in *.
  unfold FastFloat.parse_one_digit, FastFloat.group_state.
  cbn [pm_p pm_value pm_counter pm_digits pm_result].
  assert (Hhd : dec_value (firstn 1 (skipn j p0)) = hd zero_char (skipn j p0) - zero_char).
  { destruct (skipn j p0) as [| c l] eqn:Es.
    - apply (f_equal (@length Z)) in Es. rewrite length_skipn in Es. cbn in Es. lia.
    - reflexivity. }
  f_equal.
  - destruct (skipn j p0) as [| c l] eqn:Es.
    + apply (f_equal (@length Z)) in Es. rewrite length_skipn in Es. cbn in Es. lia.
    + cbn [tl]. replace (j + 1)%nat with (S j) by lia.
      rewrite <- (Nat.add_1_l j), <- skipn_skipn, Es. reflexivity.
  - rewrite <- Hhd.
    rewrite (limb_small (dec_value (firstn 1 _))) by lia.
    rewrite (limb_small (_ * _)) by lia.
    rewrite <- E. apply limb_small. lia.
  - rewrite size_t_small by lia. lia.
  - rewrite size_t_small by lia. lia.
Qed.

Lemma parse_group_spec :
  parse_group max_digits (gstate 0) = Some (gstate (Z.to_nat gsize)).
Proof.
  pose proof step_range as Hstep.
  assert (Hgs : 0 <= gsize) by (unfold FastFloat.group_size; lia).
  assert (H0 : ginv (gstate 0)) by (exists 0%nat; split; [lia | reflexivity]).
  assert (H8 : exists st1,
             (if uc_is_char
              then while (length (pm_p (gstate 0))) (eight_cond max_digits)
                         parse_eight_digits (gstate 0)
              else Some (gstate 0)) = Some st1 /\ ginv st1).
  { destruct uc_is_char; [| exists (gstate 0); split; [reflexivity | exact H0]].
    destruct (while_rule ginv (fun st => length (pm_p st))
                (eight_cond max_digits) parse_eight_digits)
      with (fuel := length (pm_p (gstate 0))) (s := gstate 0)
      as (st1 & Hw & Hi & _).
    - intros st (j & Hj & ->) Hc.
      destruct (parse_eight_digits_step j p0_ok Hc Hj) as [Hle E].
      rewrite E. split; [exists (j + 8)%nat; split; [exact Hle | reflexivity] |].
      unfold FastFloat.group_state; cbn [pm_p]. rewrite !length_skipn.
      unfold FastFloat.group_size in Hle. lia.
    - exact H0.
    - lia.
    - exists st1. split; assumption. }
  destruct H8 as (st1 & E1 & Hi1).
  unfold FastFloat.parse_group. rewrite E1. cbn [bind].
  destruct (while_rule ginv (fun st => length (pm_p st))
              (one_cond max_digits) parse_one_digit)
    with (fuel := length (pm_p st1)) (s := st1)
    as (st2 & Hw & (j & Hj & ->) & Hc).
  - intros st (j & Hj & ->) Hc.
    destruct (parse_one_digit_step j Hc Hj) as [Hle E].
    rewrite E. split; [exists (j + 1)%nat; split; [exact Hle | reflexivity] |].
    unfold FastFloat.group_state; cbn [pm_p]. rewrite !length_skipn.
    unfold FastFloat.group_size in Hle. lia.
  - exact Hi1.
  - lia.
  - rewrite Hw. f_equal. f_equal.
    unfold FastFloat.one_cond, FastFloat.group_state in Hc. cbn [pm_p pm_counter pm_digits] in Hc.
    rewrite length_skipn in Hc. unfold FastFloat.group_size in Hj |- *.
    apply andb_false_iff in Hc. destruct Hc as [Hc | Hc].
    + apply andb_false_iff in Hc. destruct Hc as [Hc | Hc].
      * apply Z.ltb_ge in Hc. lia.
      * apply negb_false_iff, Nat.eqb_eq in Hc. lia.
    + apply Z.ltb_ge in Hc. lia.
Qed.

End Group.

Lemma dec_value_firstn_plus (a b : nat) (p : list Z) : (a + b <= length p)%nat ->
  dec_value (firstn (a + b) p)
  = dec_value (firstn a p) * 10 ^ Z.of_nat b + dec_value (firstn b (skipn a p)).
Proof.
  intros H. rewrite firstn_plus, dec_value_app, length_firstn, length_skipn.
  replace (Nat.min b (length p - a)) with b by lia. reflexivity.
Qed.

Lemma parse_span_spec max_digits others :
  0 <= max_digits /\ max_digits + 1 < 2 ^ size_t_bits ->
  forall fuel p d r,
  (length p <= fuel)%nat -> digits_ok p -> 0 <= d <= max_digits ->
  (p = [] ->
     parse_span fuel max_digits others (mk_pm p 0 0 d r) = Some (false, mk_pm [] 0 0 d r)) /\
  (p <> [] -> Z.of_nat (length p) < max_digits - d ->
     parse_span fuel max_digits others (mk_pm p 0 0 d r)
     = Some (false, mk_pm [] 0 0 (d + Z.of_nat (length p))
                          (r * 10 ^ Z.of_nat (length p) + dec_value p))) /\
  (p <> [] -> max_digits - d <= Z.of_nat (length p) ->
     exists st',
       parse_span fuel max_digits others (mk_pm p 0 0 d r) = Some (true, st') /\
       let n := Z.to_nat (max_digits - d) in
       let big := r * 10 ^ (max_digits - d) + dec_value (firstn n p) in
       let t := any_nonzero (skipn n p) || others_nonzero others in
       pm_result st' = (if t then big * 10 + 1 else big) /\
       pm_digits st' = (if t then max_digits + 1 else max_digits)).
Proof.
  intros Hmax. induction fuel as [| fuel IH]; intros p d r Hfuel Hp Hd.
  { destruct p as [| c p]; [| cbn in Hfuel; lia].
    split; [reflexivity |]. split; intros H; contradiction. }
  split; [intros ->; reflexivity |].
  pose proof step_range as Hstep. pose proof size_t_bits_bound as Hsz.
  assert (Hstart : mk_pm p 0 0 d r = group_state p d r 0).
  { unfold group_state. cbn [skipn firstn]. f_equal. cbn. lia. }
  set (K := Z.to_nat (group_size fastfloat_64bit max_digits p d)).
  assert (Hrun : p <> [] ->
    parse_span (S fuel) max_digits others (mk_pm p 0 0 d r)
    = let result := r * 10 ^ Z.of_nat K + dec_value (firstn K p) in
      if d + Z.of_nat K =? max_digits then
        if any_nonzero (skipn K p) || others_nonzero others
        then Some (true, mk_pm (skipn K p) (dec_value (firstn K p)) (Z.of_nat K)
                               (size_t (d + Z.of_nat K + 1)) (result * 10 + 1))
        else Some (true, mk_pm (skipn K p) (dec_value (firstn K p)) (Z.of_nat K)
                               (d + Z.of_nat K) result)
      else parse_span fuel max_digits others
             (mk_pm (skipn K p) 0 0 (d + Z.of_nat K) result)).
  { intros Hne. destruct p as [| c p']; [contradiction |].
    cbn [FastFloat.parse_span pm_p]. rewrite Hstart.
    rewrite (parse_group_spec max_digits (c :: p') d r Hmax Hd Hp). cbn [bind].
    fold K. unfold group_state at 1. cbn [pm_counter].
    assert (HK : 0 <= Z.of_nat K <= step).
    { subst K. unfold group_size. lia. }
    rewrite power_of_ten_spec by lia. cbn [bind].
    assert (Hpow : 0 < 10 ^ Z.of_nat K <= 10 ^ step).
    { split; [apply Z.pow_pos_nonneg; lia | apply Z.pow_le_mono_r; lia]. }
    rewrite limb_small by lia.
    unfold group_state. cbn [pm_p pm_value pm_counter pm_digits pm_result].
    unfold add_native, bigint_add, bigint_mul.
    rewrite !is_truncated_spec. cbn [bind].
    replace (match others with Some f => is_truncated f | None => Some false end)
      with (Some (others_nonzero others))
      by (destruct others; [rewrite is_truncated_spec |]; reflexivity).
    cbn [bind]. cbv zeta.
    destruct (d + Z.of_nat K =? max_digits); [| reflexivity].
    destruct (any_nonzero (skipn K (c :: p')) || others_nonzero others); reflexivity. }
  assert (HKdef : Z.of_nat K = Z.min step (Z.min (Z.of_nat (length p)) (max_digits - d))).
  { subst K. unfold group_size. lia. }
  split.
  - intros Hne Hlt. rewrite (Hrun Hne). cbv zeta.
    replace (d + Z.of_nat K =? max_digits) with false by (symmetry; apply Z.eqb_neq; lia).
    assert (HK1 : (1 <= K)%nat).
    { destruct p; [contradiction |]. cbn [length] in HKdef. lia. }
    destruct (IH (skipn K p) (d + Z.of_nat K) (r * 10 ^ Z.of_nat K + dec_value (firstn K p)))
      as (IH1 & IH2 & _).
    { rewrite length_skipn. lia. }
    { apply digits_ok_skipn. exact Hp. }
    { lia. }
    assert (Hsplit : p = firstn K p ++ skipn K p) by (symmetry; apply firstn_skipn).
    assert (HlenK : length (firstn K p) = K) by (rewrite length_firstn; lia).
    assert (Hdec : dec_value p
                   = dec_value (firstn K p) * 10 ^ Z.of_nat (length (skipn K p))
                     + dec_value (skipn K p)).
    { rewrite Hsplit at 1. apply dec_value_app. }
    assert (Hlen : Z.of_nat (length p) = Z.of_nat K + Z.of_nat (length (skipn K p))).
    { rewrite length_skipn. lia. }
    destruct (skipn K p) as [| c' p''] eqn:Es.
    + rewrite (IH1 eq_refl). cbn [length] in Hlen, Hdec. do 3 f_equal; [lia |].
      rewrite Hdec, Hlen. cbn. rewrite Z.add_0_r. ring.
    + rewrite IH2 by (try discriminate; lia).
      do 3 f_equal; [lia |].
      rewrite Hdec, Hlen, Z.pow_add_r by lia. ring.
  - intros Hne Hge. rewrite (Hrun Hne). cbv zeta.
    set (n := Z.to_nat (max_digits - d)).
    destruct (Z.eqb_spec (d + Z.of_nat K) max_digits) as [E | E].
    + assert (HKn : K = n) by (subst n; lia).
      rewrite HKn. replace (Z.of_nat n) with (max_digits - d) by lia.
      destruct (any_nonzero (skipn n p) || others_nonzero others); eexists;
        (split; [reflexivity |]); cbn [pm_result pm_digits]; split; try reflexivity.
      { rewrite size_t_small by lia. lia. }
      { lia. }
    + assert (HK1 : (1 <= K)%nat).
      { destruct p; [contradiction |]. cbn [length] in HKdef. lia. }
      assert (HKstep : Z.of_nat K = step) by lia.
      destruct (IH (skipn K p) (d + Z.of_nat K) (r * 10 ^ Z.of_nat K + dec_value (firstn K p)))
        as (_ & _ & IH3).
      { rewrite length_skipn. lia. }
      { apply digits_ok_skipn. exact Hp. }
      { lia. }
      assert (Hlen : Z.of_nat (length (skipn K p)) = Z.of_nat (length p) - Z.of_nat K).
      { rewrite length_skipn. lia. }
      destruct IH3 as (st' & Hst & Hres).
      { intros Es. rewrite Es in Hlen. cbn [length] in Hlen. lia. }
      { lia. }
      exists st'. split; [exact Hst |]. cbv zeta in Hres |- *.
      set (n' := Z.to_nat (max_digits - (d + Z.of_nat K))) in *.
      assert (Hn : n = (K + n')%nat) by (subst n n'; lia).
      assert (Hskip : skipn n' (skipn K p) = skipn n p).
      { rewrite skipn_skipn. f_equal. lia. }
      assert (Hbig : (r * 10 ^ Z.of_nat K + dec_value (firstn K p))
                     * 10 ^ (max_digits - (d + Z.of_nat K))
                     + dec_value (firstn n' (skipn K p))
                     = r * 10 ^ (max_digits - d) + dec_value (firstn n p)).
      { rewrite Hn, dec_value_firstn_plus by (subst n'; lia).
        replace (max_digits - d) with (Z.of_nat K + Z.of_nat n') by (subst n'; lia).
        replace (max_digits - (d + Z.of_nat K)) with (Z.of_nat n') by (subst n'; lia).
        rewrite Z.pow_add_r by lia. ring. }
      rewrite Hskip, Hbig in Hres. exact Hres.
Qed.

Lemma any_nonzero_app l1 l2 : any_nonzero (l1 ++ l2) = any_nonzero l1 || any_nonzero l2.
Proof. unfold any_nonzero. apply existsb_app. Qed.

Lemma parse_mantissa_eq (result : bigint) (num : parsed_number_string) (max_digits : Z) :
  0 <= max_digits /\ max_digits + 1 < 2 ^ size_t_bits ->
  digits_ok (integer num) ->
  (forall f, fraction num = Some f -> digits_ok f) ->
  parse_mantissa result num max_digits = Some (parse_mantissa_spec result num max_digits).
Proof.
  intros Hmax Hint Hfrac. unfold bigint in result.
  unfold FastFloat.parse_mantissa, parse_mantissa_spec, significant_digits.
  rewrite skip_zeros_spec. cbn [bind].
  pose proof (strip_zeros_digits_ok _ Hint) as Hi.
  set (i := strip_zeros (integer num)) in *.
  set (n := Z.to_nat max_digits).
  destruct (parse_span_spec max_digits (fraction num) Hmax (length i) i 0 result
              (le_n _) Hi ltac:(lia)) as (S1 & S2 & S3).
  rewrite Z.sub_0_r in S2, S3.
  assert (Hfin : forall (d : Z) (r : bigint),
             (if negb (pm_counter (mk_pm [] 0 0 d r) =? 0)
              then power <- power_of_ten (pm_counter (mk_pm [] 0 0 d r)) ;;
                   Some (add_native (pm_result (mk_pm [] 0 0 d r)) (limb power)
                           (pm_value (mk_pm [] 0 0 d r)),
                         pm_digits (mk_pm [] 0 0 d r))
              else Some (pm_result (mk_pm [] 0 0 d r), pm_digits (mk_pm [] 0 0 d r)))
             = Some (r, d)) by reflexivity.
  destruct i as [| c i'] eqn:Ei.
  - (* no integer digit is kept *)
    rewrite (S1 eq_refl). cbn [bind pm_digits pm_value pm_counter pm_result].
    destruct (fraction num) as [f |] eqn:Ef.
    + cbn [Z.eqb]. rewrite skip_zeros_spec. cbn [bind].
      pose proof (strip_zeros_digits_ok _ (Hfrac f eq_refl)) as Hf.
      set (p := strip_zeros f) in *.
      destruct (parse_span_spec max_digits None Hmax (length p) p 0 result
                  (le_n _) Hf ltac:(lia)) as (F1 & F2 & F3).
      rewrite Z.sub_0_r in F2, F3.
      destruct (Z.ltb_spec (Z.of_nat (length p)) max_digits) as [Hlt | Hge].
      * destruct p as [| c p'] eqn:Ep.
        -- rewrite (F1 eq_refl). cbn [bind]. rewrite Hfin. cbn. do 2 f_equal. ring.
        -- rewrite (F2 ltac:(discriminate) Hlt). cbn [bind]. rewrite Hfin.
           rewrite Z.add_0_l. reflexivity.
      * destruct p as [| c p'] eqn:Ep.
        -- rewrite (F1 eq_refl). cbn [bind]. rewrite Hfin.
           cbn [length] in Hge. replace max_digits with 0 by lia.
           rewrite skipn_nil, firstn_nil. cbn. do 2 f_equal. ring.
        -- destruct (F3 ltac:(discriminate) Hge) as (st' & -> & Hr & Hd).
           cbn [bind]. cbv zeta in Hr, Hd. rewrite Hr, Hd. fold n.
           cbn [others_nonzero]. rewrite orb_false_r.
           destruct (any_nonzero (skipn n (c :: p'))); reflexivity.
    + cbn [bind]. rewrite Hfin.
      destruct (Z.ltb_spec (Z.of_nat (@length Z [])) max_digits) as [Hlt | Hge].
      * cbn. do 2 f_equal. ring.
      * cbn [length] in Hge. replace max_digits with 0 by lia.
        rewrite skipn_nil, firstn_nil. cbn. do 2 f_equal. ring.
  - (* the integer span has a nonzero digit *)
    rewrite <- Ei in *.
    assert (Hne : i <> []) by (rewrite Ei; discriminate).
    replace (match fraction num with Some f => i ++ f | None => i end)
      with (i ++ match fraction num with Some f => f | None => [] end)
      by (destruct (fraction num); [reflexivity | rewrite app_nil_r; reflexivity]).
    set (fr := match fraction num with Some f => f | None => [] end).
    assert (Hfr : digits_ok fr).
    { subst fr. destruct (fraction num) as [f |]; [apply Hfrac; reflexivity | constructor]. }
    assert (Hothers : others_nonzero (fraction num) = any_nonzero fr).
    { subst fr. destruct (fraction num); reflexivity. }
    rewrite length_app, Nat2Z.inj_add.
    destruct (Z.ltb_spec (Z.of_nat (length i)) max_digits) as [Hlt | Hge].
    + rewrite (S2 Hne Hlt). cbn [bind pm_digits pm_value pm_counter pm_result].
      rewrite Z.add_0_l.
      replace (Z.of_nat (length i) =? 0) with false
        by (symmetry; apply Z.eqb_neq; destruct i; [contradiction | cbn [length]; lia]).
      set (r' := result * 10 ^ Z.of_nat (length i) + dec_value i).
      assert (Hfrspan :
        match fraction num with
        | Some f =>
            p' <- Some f ;;
            parse_span (length p') max_digits None (mk_pm p' 0 0 (Z.of_nat (length i)) r')
        | None => Some (false, mk_pm [] 0 0 (Z.of_nat (length i)) r')
        end
        = parse_span (length fr) max_digits None (mk_pm fr 0 0 (Z.of_nat (length i)) r')).
      { subst fr. destruct (fraction num); reflexivity. }
      rewrite Hfrspan.
      destruct (parse_span_spec max_digits None Hmax (length fr) fr (Z.of_nat (length i)) r'
                  (le_n _) Hfr ltac:(lia)) as (F1 & F2 & F3).
      destruct (Z.ltb_spec (Z.of_nat (length i) + Z.of_nat (length fr)) max_digits)
        as [Hlt2 | Hge2].
      * destruct fr as [| c2 fr'] eqn:Efr.
        -- rewrite (F1 eq_refl). cbn [bind]. rewrite Hfin.
           rewrite app_nil_r. cbn [length]. do 2 f_equal; [| lia].
           subst r'. rewrite Z.add_0_r. reflexivity.
        -- rewrite (F2 ltac:(discriminate) ltac:(lia)). cbn [bind]. rewrite Hfin.
           do 2 f_equal. subst r'. rewrite dec_value_app, Z.pow_add_r by lia. ring.
      * destruct fr as [| c2 fr'] eqn:Efr.
        -- cbn [length] in Hge2. lia.
        -- rewrite <- Efr in *.
           destruct (F3 ltac:(rewrite Efr; discriminate) ltac:(lia)) as (st' & -> & Hr & Hd).
           cbn [bind]. cbv zeta in Hr, Hd. rewrite Hr, Hd.
           cbn [others_nonzero]. rewrite orb_false_r.
           set (n' := Z.to_nat (max_digits - Z.of_nat (length i))).
           assert (Hn : n = (length i + n')%nat) by (subst n n'; lia).
           assert (Hfirst : firstn n (i ++ fr) = i ++ firstn n' fr).
           { rewrite Hn. rewrite firstn_app_2. reflexivity. }
           assert (Hskip : skipn n (i ++ fr) = skipn n' fr).
           { rewrite Hn. rewrite skipn_app.
             replace (length i + n' - length i)%nat with n' by lia.
             rewrite skipn_all2 by lia. reflexivity. }
           rewrite Hfirst, Hskip, dec_value_app.
           assert (Hlenf : Z.of_nat (length (firstn n' fr)) = max_digits - Z.of_nat (length i)).
           { rewrite length_firstn. subst n'. lia. }
           rewrite Hlenf.
           assert (Hbig : r' * 10 ^ (max_digits - Z.of_nat (length i))
                          + dec_value (firstn n' fr)
                          = result * 10 ^ max_digits
                            + (dec_value i * 10 ^ (max_digits - Z.of_nat (length i))
                               + dec_value (firstn n' fr))).
           { subst r'.
             assert (Hp : 10 ^ max_digits
                          = 10 ^ Z.of_nat (length i)
                            * 10 ^ (max_digits - Z.of_nat (length i))).
             { rewrite <- Z.pow_add_r by lia. f_equal. lia. }
             rewrite Hp. ring. }
           rewrite Hbig.
           destruct (any_nonzero (skipn n' fr)); reflexivity.
    + destruct (S3 Hne Hge) as (st' & -> & Hr & Hd).
      cbn [bind]. cbv zeta in Hr, Hd. rewrite Hr, Hd. fold n.
      replace (Z.of_nat (length i) + Z.of_nat (length fr) <? max_digits) with false
        by (symmetry; apply Z.ltb_ge; lia).
      assert (Hfirst : firstn n (i ++ fr) = firstn n i).
      { rewrite firstn_app. replace (n - length i)%nat with 0%nat by (subst n; lia).
        cbn [firstn]. apply app_nil_r. }
      assert (Hskip : skipn n (i ++ fr) = skipn n i ++ fr).
      { rewrite skipn_app. replace (n - length i)%nat with 0%nat by (subst n; lia).
        reflexivity. }
      rewrite Hfirst, Hskip, any_nonzero_app, Hothers.
      destruct (any_nonzero (skipn n i) || any_nonzero fr); reflexivity.
Qed.

End ParseFacts.

(** C5: when the significant digits reach [max_digits], the accumulator holds
    the first [max_digits] of them; every digit after those, in the rest of
    the integer span and in the fraction span, is tested, and a nonzero one
    costs exactly one [multiply by 10, add 1] and one more counted digit;
    with none the accumulator stays as the last group left it. *)
Theorem parse_mantissa_truncation (fastfloat_64bit uc_is_char : bool)
    (int_cmp_len : nat) (size_t_bits : Z) (result : bigint)
    (num : parsed_number_string) (max_digits : Z) :
  (1 <= int_cmp_len)%nat -> 8 <= size_t_bits ->
  0 <= max_digits /\ max_digits + 1 < 2 ^ size_t_bits ->
  digits_ok (integer num) ->
  (forall f, fraction num = Some f -> digits_ok f) ->
  let sd := significant_digits num in
  let n := Z.to_nat max_digits in
  max_digits <= Z.of_nat (length sd) ->
  let big := result * 10 ^ max_digits + dec_value (firstn n sd) in
  parse_mantissa fastfloat_64bit uc_is_char int_cmp_len size_t_bits
    result num max_digits
  = Some (if any_nonzero (skipn n sd)
          then (bigint_add (bigint_mul big 10) 1, max_digits + 1)
          else (big, max_digits)).
Proof.
  intros Hlen Hbits Hmax Hint Hfrac sd n Hreach big.
  rewrite (parse_mantissa_eq fastfloat_64bit uc_is_char int_cmp_len size_t_bits
             Hlen Hbits result num max_digits Hmax Hint Hfrac).
  unfold parse_mantissa_spec. fold sd n.
  replace (Z.of_nat (length sd) <? max_digits) with false
    by (symmetry; apply Z.ltb_ge; exact Hreach).
  fold big. destruct (any_nonzero (skipn n sd)); reflexivity.
Qed.

Lemma parse_mantissa_truncation_witness :
  (1 <= 8)%nat /\ 8 <= 64 /\
  parse_mantissa true true 8 64 0
    (mk_num (-4) 123456789 [48; 49; 50; 51; 52; 53] (Some [54; 48; 48; 57])) 3
  = Some (1231, 4).
Proof.
  split; [lia |]. split; [lia |].
  refine (parse_mantissa_truncation true true 8 64 0
            (mk_num (-4) 123456789 [48; 49; 50; 51; 52; 53] (Some [54; 48; 48; 57])) 3
            _ _ _ _ _ _).
  - lia.
  - lia.
  - split; [lia | reflexivity].
  - repeat constructor; cbn; lia.
  - intros f Hf. injection Hf as <-. repeat constructor; cbn; lia.
  - cbn. lia.
Defined.

(** *** Powers of two as rationals *)

Lemma pow2_pos e : (0 < Qpower 2 e)%Q.
Proof. apply Qpower_0_lt. reflexivity. Qed.

Lemma pow2_add a b : (Qpower 2 (a + b) == Qpower 2 a * Qpower 2 b)%Q.
Proof. apply Qpower_plus. discriminate. Qed.

Lemma pow2_succ e : (Qpower 2 (e + 1) == 2 * Qpower 2 e)%Q.
Proof. rewrite pow2_add. change (Qpower 2 1) with 2%Q. ring. Qed.

Lemma pow2_pred e : (Qpower 2 e == 2 * Qpower 2 (e - 1))%Q.
Proof. rewrite <- pow2_succ. replace (e - 1 + 1) with e by ring. reflexivity. Qed.

(** [m * 2^e] counted in the smaller unit [2^e']. *)
Lemma rescale m e e' : e' <= e ->
  (inject_Z m * Qpower 2 e == inject_Z (m * 2 ^ (e - e')) * Qpower 2 e')%Q.
Proof.
  intros H. rewrite inject_Z_mult, Qpower_2_inject by lia.
  replace e with (e - e' + e') at 1 by ring. rewrite pow2_add. ring.
Qed.

Lemma scaled_lt a b e : (inject_Z a * Qpower 2 e < inject_Z b * Qpower 2 e)%Q <-> a < b.
Proof.
  rewrite Qmult_lt_r by apply pow2_pos. rewrite <- Zlt_Qlt. reflexivity.
Qed.

Lemma scaled_le a b e : (inject_Z a * Qpower 2 e <= inject_Z b * Qpower 2 e)%Q <-> a <= b.
Proof.
  rewrite Qmult_le_r by apply pow2_pos. rewrite <- Zle_Qle. reflexivity.
Qed.


(** *** The grid of the format *)

Lemma pow2_Z_pos n : 0 <= n -> 0 < 2 ^ n.
Proof. intros. apply Z.pow_pos_nonneg; lia. Qed.

Lemma pow2_Z_succ n : 0 <= n -> 2 ^ (n + 1) = 2 * 2 ^ n.
Proof. intros. rewrite Z.pow_add_r by lia. lia. Qed.

Lemma pow2_Z_ge_2 n : 1 <= n -> 2 <= 2 ^ n.
Proof.
  intros. change 2 with (2 ^ 1) at 1. apply Z.pow_le_mono_r; lia.
Qed.

(** Between a float [m * 2^e] and the next one there is no number of the
    format. *)
Lemma grid_gap fmt m e y :
  0 <= mantissa_explicit_bits fmt ->
  canonical fmt m e -> representable fmt y ->
  (inject_Z m * Qpower 2 e < y)%Q -> (inject_Z (m + 1) * Qpower 2 e <= y)%Q.
Proof.
  intros Heb (Hm & He & Hfull) (m' & e' & Hm' & He' & Hy) Hlt.
  rewrite Hy in Hlt |- *.
  destruct (Z.le_gt_cases e e') as [Hle | Hgt].
  - rewrite (rescale m' e' e Hle) in Hlt |- *.
    apply scaled_lt in Hlt. apply scaled_le. lia.
  - exfalso. rewrite (rescale m e e') in Hlt by lia.
    apply scaled_lt in Hlt.
    specialize (Hfull ltac:(lia)).
    pose proof (pow2_Z_ge_2 (e - e') ltac:(lia)).
    pose proof (pow2_Z_succ (mantissa_explicit_bits fmt) Heb).
    pose proof (pow2_Z_pos (mantissa_explicit_bits fmt) Heb). nia.
Qed.

Lemma grid_gap_below fmt m e y :
  0 <= mantissa_explicit_bits fmt ->
  canonical fmt m e -> representable fmt y ->
  (y < inject_Z (m + 1) * Qpower 2 e)%Q -> (y <= inject_Z m * Qpower 2 e)%Q.
Proof.
  intros Heb Hc Hy Hlt.
  destruct (Qlt_le_dec (inject_Z m * Qpower 2 e) y) as [H | H]; [| exact H].
  pose proof (grid_gap fmt m e y Heb Hc Hy H). lra.
Qed.



(** *** Bit fields *)

Lemma testbit_above a n k : 0 <= a < 2 ^ n -> n <= k -> Z.testbit a k = false.
Proof.
  intros Ha Hk. destruct (Z.lt_ge_cases n 0) as [Hn | Hn].
  - rewrite Z.pow_neg_r in Ha by lia. lia.
  - rewrite <- (Z.mod_small a (2 ^ n)) by lia. apply Z.mod_pow2_bits_high. lia.
Qed.

Lemma testbit_field a b n k : 0 <= n -> 0 <= a < 2 ^ n -> 0 <= b -> 0 <= k ->
  Z.testbit (a + b * 2 ^ n) k = if k <? n then Z.testbit a k else Z.testbit b (k - n).
Proof.
  intros Hn Ha Hb Hk.
  destruct (Z.ltb_spec k n) as [Hlt | Hge].
  - rewrite <- (Z.mod_pow2_bits_low (a + b * 2 ^ n) n k) by lia.
    rewrite Z.mod_add by lia. rewrite Z.mod_small by lia. reflexivity.
  - replace k with (k - n + n) at 1 by ring.
    rewrite <- Z.shiftr_spec, Z.shiftr_div_pow2 by lia.
    rewrite Z.div_add by lia. rewrite Z.div_small by lia. reflexivity.
Qed.

Lemma lor_field a b n : 0 <= n -> 0 <= a < 2 ^ n -> 0 <= b ->
  Z.lor a (Z.shiftl b n) = a + b * 2 ^ n.
Proof.
  intros Hn Ha Hb. apply Z.bits_inj'. intros k Hk.
  rewrite Z.lor_spec, Z.shiftl_spec, testbit_field by lia.
  destruct (Z.ltb_spec k n) as [Hlt | Hge].
  - rewrite (Z.testbit_neg_r b (k - n)) by lia. apply orb_false_r.
  - rewrite (testbit_above a n k) by lia. reflexivity.
Qed.

Lemma land_low_field a b n : 0 <= n -> 0 <= a < 2 ^ n -> 0 <= b ->
  Z.land (a + b * 2 ^ n) (2 ^ n - 1) = a.
Proof.
  intros Hn Ha Hb. replace (2 ^ n - 1) with (Z.ones n) by (rewrite Z.ones_equiv; lia).
  rewrite Z.land_ones by lia. rewrite Z.mod_add by lia. apply Z.mod_small. lia.
Qed.

Lemma land_high_field a b n w : 0 <= n -> 0 <= w -> 0 <= a < 2 ^ n -> 0 <= b < 2 ^ w ->
  Z.land (a + b * 2 ^ n) ((2 ^ w - 1) * 2 ^ n) = b * 2 ^ n.
Proof.
  intros Hn Hw Ha Hb. apply Z.bits_inj'. intros k Hk.
  replace (2 ^ w - 1) with (Z.ones w) by (rewrite Z.ones_equiv; lia).
  rewrite Z.land_spec, testbit_field by lia.
  rewrite <- (Z.shiftl_mul_pow2 (Z.ones w) n), <- (Z.shiftl_mul_pow2 b n) by lia.
  rewrite !Z.shiftl_spec by lia.
  destruct (Z.ltb_spec k n) as [Hlt | Hge].
  - rewrite (Z.testbit_neg_r (Z.ones w)), (Z.testbit_neg_r b) by lia.
    apply andb_false_r.
  - destruct (Z.lt_ge_cases (k - n) w) as [Hin | Hout].
    + rewrite Z.ones_spec_low by lia. apply andb_true_r.
    + rewrite (testbit_above b w (k - n)) by lia. reflexivity.
Qed.

Lemma clearbit_hidden m n : 0 <= n -> 2 ^ n <= m < 2 ^ (n + 1) ->
  Z.clearbit m n = m - 2 ^ n.
Proof.
  intros Hn Hm. rewrite Z.pow_add_r in Hm by lia. change (2 ^ 1) with 2 in Hm.
  apply Z.bits_inj'. intros k Hk.
  rewrite Z.clearbit_eqb by lia.
  replace m with ((m - 2 ^ n) + 1 * 2 ^ n) at 1 by ring.
  rewrite testbit_field by lia.
  destruct (Z.ltb_spec k n) as [Hlt | Hge].
  - replace (n =? k) with false by (symmetry; apply Z.eqb_neq; lia). apply andb_true_r.
  - rewrite (testbit_above (m - 2 ^ n) n k) by lia.
    destruct (Z.eqb_spec n k) as [-> | Hne]; [apply andb_false_r |].
    rewrite (testbit_above 1 1 (k - n)) by lia. reflexivity.
Qed.

Lemma odd_land_1 m : (Z.land m 1 =? 1) = Z.odd m.
Proof.
  change 1 with (Z.ones 1) at 1. rewrite Z.land_ones by lia.
  change (2 ^ 1) with 2. rewrite Zmod_odd. destruct (Z.odd m); reflexivity.
Qed.

Lemma land_mask_mod M s : 0 <= s -> Z.land M (2 ^ s - 1) = M mod 2 ^ s.
Proof.
  intros Hs. replace (2 ^ s - 1) with (Z.ones s) by (rewrite Z.ones_equiv; lia).
  apply Z.land_ones. exact Hs.
Qed.

(** *** The floats that [round] produces *)

Section RoundFacts.

Variable fmt : binary_format.
Hypothesis fmt_ok : format_ok fmt.

Local Abbreviation eb := (mantissa_explicit_bits fmt).

Lemma fmt_eb : 1 <= eb <= 62.
Proof. apply fmt_ok. Qed.

Lemma fmt_bias : eb + 1 <= bias fmt <= 2 ^ 20 + 62.
Proof.
  destruct fmt_ok as (H1 & H2 & _). unfold bias. lia.
Qed.

Lemma fmt_infp : 3 <= infinite_power fmt < 2 ^ 20.
Proof.
  destruct fmt_ok as (_ & _ & _ & (w & Hw & ->) & _).
  assert (2 ^ 2 <= 2 ^ w) by (apply Z.pow_le_mono_r; lia).
  assert (2 ^ w <= 2 ^ 20) by (apply Z.pow_le_mono_r; lia).
  change (2 ^ 2) with 4 in *. lia.
Qed.

Lemma fmt_i32_bias : i32 (eb - minimum_exponent fmt) = bias fmt.
Proof.
  pose proof fmt_bias. pose proof fmt_eb. unfold bias in *.
  apply i32_small. unfold is_i32. change (2 ^ 20) with 1048576 in *.
  change (2 ^ 31) with 2147483648. lia.
Qed.

Lemma pow2_eb_pos : 0 < 2 ^ eb.
Proof. apply pow2_Z_pos. pose proof fmt_eb. lia. Qed.

Lemma pow2_64_split s : 0 <= s <= 64 -> 2 ^ 64 = 2 ^ s * 2 ^ (64 - s).
Proof. intros H. rewrite <- Z.pow_add_r by lia. f_equal. lia. Qed.

Lemma shifted_bounds M s : 0 <= s <= 64 -> is_u64 M ->
  0 <= M / 2 ^ s < 2 ^ (64 - s) /\
  (1 <= s -> 2 ^ 63 <= M -> 2 ^ (63 - s) <= M / 2 ^ s).
Proof.
  unfold is_u64. intros Hs HM.
  pose proof (pow2_Z_pos s ltac:(lia)) as Hp.
  split; [split |].
  - apply Z.div_pos; lia.
  - apply Z.div_lt_upper_bound; [lia |]. rewrite <- pow2_64_split by lia. lia.
  - intros H1 H63. apply Z.div_le_lower_bound; [lia |].
    destruct (Z.eq_dec s 64) as [-> | Hne].
    + rewrite (Z.pow_neg_r 2 (63 - 64)) by lia. lia.
    + rewrite <- Z.pow_add_r by lia. replace (s + (63 - s)) with 63 by ring. exact H63.
Qed.


(** The shift that [round] passes on. *)
Lemma round_regime P : is_i32 P -> - 2 ^ 30 <= P ->
  i32 (i32 (64 - eb) - 1) = 63 - eb /\
  i32 (- P) = - P /\
  (i32 (- P) >=? i32 (i32 (64 - eb) - 1)) = (P <=? eb - 63) /\
  Z.min (i32 (i32 (- P) + 1)) 64 = Z.min (1 - P) 64.
Proof.
  intros HP HP'. pose proof fmt_eb as Heb. unfold is_i32 in HP.
  change (2 ^ 31) with 2147483648 in *. change (2 ^ 30) with 1073741824 in *.
  assert (E1 : i32 (i32 (64 - eb) - 1) = 63 - eb).
  { rewrite (i32_small (64 - eb)) by (unfold is_i32; lia).
    rewrite i32_small by (unfold is_i32; lia). ring. }
  assert (E2 : i32 (- P) = - P) by (apply i32_small; unfold is_i32; lia).
  rewrite E1, E2. split; [reflexivity |]. split; [reflexivity |]. split.
  - rewrite Z.geb_leb.
    destruct (Z.leb_spec (63 - eb) (- P)); destruct (Z.leb_spec P (eb - 63)); lia || reflexivity.
  - rewrite (i32_small (- P + 1)) by (unfold is_i32; lia). f_equal. ring.
Qed.


Lemma round_shift_range P : 1 <= round_shift fmt P <= 64.
Proof.
  pose proof fmt_eb as Heb. unfold round_shift.
  destruct (Z.leb_spec P (eb - 63)); lia.
Qed.



(** *** Bit patterns *)


Lemma to_extended_fields f E : 0 <= f < 2 ^ eb -> 0 <= E <= infinite_power fmt ->
  to_extended fmt (f + E * 2 ^ eb)
  = if E =? 0 then mk_am f (1 - bias fmt) else mk_am (f + 2 ^ eb) (E - bias fmt).
Proof.
  intros Hf HE. pose proof fmt_eb as Heb. pose proof fmt_bias as Hb.
  pose proof fmt_infp as Hinf.
  destruct fmt_ok as (_ & _ & _ & (w & Hw & Einf) & Ehid & Eman & Eexp & _).
  unfold to_extended. rewrite fmt_i32_bias, Ehid, Eman, Eexp, Einf.
  assert (HEw : 0 <= E < 2 ^ w) by lia.
  rewrite land_high_field, land_low_field by lia.
  change (2 ^ 20) with 1048576 in *.
  destruct (Z.eqb_spec E 0) as [-> | Hne].
  - cbn [Z.mul Z.eqb]. rewrite i32_small by (unfold is_i32; change (2 ^ 31) with 2147483648; lia).
    reflexivity.
  - replace (E * 2 ^ eb =? 0) with false by (symmetry; apply Z.eqb_neq; pose proof pow2_eb_pos; nia).
    rewrite Z.shiftr_div_pow2, Z.div_mul by (pose proof pow2_eb_pos; lia).
    rewrite (i32_small E) by (unfold is_i32; change (2 ^ 31) with 2147483648; lia).
    rewrite i32_small by (unfold is_i32; change (2 ^ 31) with 2147483648; lia).
    assert (Hlor : Z.lor f (2 ^ eb) = f + 2 ^ eb).
    { replace (2 ^ eb) with (Z.shiftl 1 eb) at 1 by (rewrite Z.shiftl_mul_pow2; lia).
      rewrite lor_field by lia. ring. }
    rewrite Hlor. reflexivity.
Qed.



(** The halfway point above a float [m * 2^e] is [(2m + 1) * 2^(e - 1)]. *)
Lemma to_extended_halfway_fields bits m e :
  to_extended fmt bits = mk_am m e -> 0 <= m < 2 ^ (eb + 1) -> - 2 ^ 31 < e < 2 ^ 31 ->
  to_extended_halfway fmt bits = mk_am (2 * m + 1) (e - 1).
Proof.
  intros E Hm He. pose proof fmt_eb as Heb. unfold to_extended_halfway. rewrite E.
  cbn [mantissa power2]. rewrite Z.shiftl_mul_pow2 by lia. change (2 ^ 1) with 2.
  pose proof (pow2_lt_64 (eb + 1) ltac:(lia)).
  assert (2 ^ (eb + 1) <= 2 ^ 63) by (apply Z.pow_le_mono_r; lia).
  change (2 ^ 63) with 9223372036854775808 in *.
  change (2 ^ 64) with 18446744073709551616 in *.
  rewrite (u64_small (m * 2)) by (unfold is_u64; change (2 ^ 64) with 18446744073709551616; lia).
  rewrite u64_small by (unfold is_u64; change (2 ^ 64) with 18446744073709551616; lia).
  rewrite i32_small by (unfold is_i32; lia).
  f_equal. ring.
Qed.

(** *** From a bracket to the rounded result *)






End RoundFacts.

(** *** The high 64 bits of the big integer *)



(** *** The positive path *)

Section PositivePath.

Variable fmt : binary_format.
Hypothesis fmt_ok : format_ok fmt.

Local Abbreviation eb := (mantissa_explicit_bits fmt).



End PositivePath.

(** *** The negative path *)




Section NegativePath.

Variable fmt : binary_format.
Hypothesis fmt_ok : format_ok fmt.

Local Abbreviation eb := (mantissa_explicit_bits fmt).



End NegativePath.

(** *** The decimal number and its digits *)









(** *** Powers of ten as rationals *)





(** *** What parse_mantissa hands to the two paths *)

Section Outcome.

Variable fastfloat_64bit : bool.
Variable uc_is_char : bool.
Variable int_cmp_len : nat.
Variable size_t_bits : Z.
Hypothesis int_cmp_len_pos : (1 <= int_cmp_len)%nat.
Hypothesis size_t_bits_ge : 32 <= size_t_bits.

Variable fmt : binary_format.
Hypothesis fmt_ok : format_ok fmt.




End Outcome.

(** *** Halfway points and truncated digits *)

Section Halfway.

Variable fmt : binary_format.
Hypothesis fmt_ok : format_ok fmt.

Local Abbreviation eb := (mantissa_explicit_bits fmt).




End Halfway.

(** *** digit_comp *)



Section DigitCompFacts.

Variable fastfloat_64bit : bool.
Variable uc_is_char : bool.
Variable int_cmp_len : nat.
Variable size_t_bits : Z.
Variable invalid_am_bias : Z.
Hypothesis int_cmp_len_pos : (1 <= int_cmp_len)%nat.
Hypothesis size_t_bits_ge : 32 <= size_t_bits.

Variable fmt : binary_format.
Hypothesis fmt_ok : format_ok fmt.

Local Abbreviation eb := (mantissa_explicit_bits fmt).



End DigitCompFacts.

(** *** Round to nearest, ties to even, names one number *)




(** *** The formats of the library *)

Lemma binary64_ok : format_ok binary64.
Proof.
  unfold format_ok. cbn [mantissa_explicit_bits minimum_exponent infinite_power binary64 max_digits hidden_bit_mask mantissa_mask exponent_mask].
  split; [lia|]. split; [lia|]. split; [lia|]. split; [exists 11; split; [lia | reflexivity]|].
  split; [reflexivity|]. split; [reflexivity|]. split; [reflexivity|]. split; [lia|].
  split; apply Z.leb_le; vm_compute; reflexivity.
Defined.


(** *** [digit_comp] on concrete inputs *)

(** 0.1 on the negative path: the double 0x3FB999999999999A. *)
Example digit_comp_tenth :
  digit_comp true true 8 64 (-32768) binary64
    (mk_num (-1) 1 [48] (Some [49]))
    (mk_am 14757395258967641292 (1008 - 32768))
  = Some (mk_am 2702159776422298 1019).
Proof. vm_compute. reflexivity. Qed.

(** 9007199254740993 = 2^53 + 1 on the positive path: a tie, which goes to
    the even 2^53. *)
Example digit_comp_tie_to_even :
  digit_comp true true 8 64 (-32768) binary64
    (mk_num 0 9007199254740993
       [57; 48; 48; 55; 49; 57; 57; 50; 53; 52; 55; 52; 48; 57; 57; 51] None)
    (mk_am 9223372036854776832 (1076 - 32768))
  = Some (mk_am 0 1076).
Proof. vm_compute. reflexivity. Qed.

(** A decimal needs a nonzero digit: when all digits are zero the big integer
    is empty and the positive path returns the fields of 0.5. *)
Example digit_comp_zero :
  digit_comp true true 8 64 (-32768) binary64
    (mk_num 0 0 [48] None) (mk_am 0 (0 - 32768))
  = Some (mk_am 0 1022).
Proof. vm_compute. reflexivity. Qed.

(** *** The claim on [digit_comp] *)



(** *** Reading the digits: the table, the zeros, the truncation test *)

(** X10: [powers_of_ten_uint64[k]] is [10^k] for every index [0 <= k <= 19],
    each entry fits 64 bits, an index outside the table reads nothing, and
    the table is complete: [10^20] does not fit 64 bits. *)
Theorem powers_of_ten_uint64_table (k : Z) :
  (0 <= k <= 19 -> power_of_ten k = Some (10 ^ k) /\ is_u64 (10 ^ k)) /\
  (k < 0 \/ 19 < k -> power_of_ten k = None) /\
  ~ is_u64 (10 ^ 20).
Proof.
  split.
  { intros Hk. split; [apply (power_of_ten_spec 1%nat ltac:(lia)); exact Hk |].
    unfold is_u64. split; [apply Z.pow_nonneg; lia |].
    apply Z.le_lt_trans with (10 ^ 19); [apply Z.pow_le_mono_r; lia | reflexivity]. }
  split.
  { intros [Hk | Hk]; unfold power_of_ten.
    - replace (k <? 0) with true by (symmetry; apply Z.ltb_lt; lia). reflexivity.
    - replace (k <? 0) with false by (symmetry; apply Z.ltb_ge; lia).
      apply nth_error_None. cbn [length powers_of_ten_uint64]. lia. }
  unfold is_u64. intros (_ & H). revert H. apply Z.le_ngt. apply Z.leb_le. reflexivity.
Qed.

Lemma powers_of_ten_uint64_table_witness :
  power_of_ten 19 = Some (10 ^ 19) /\ is_u64 (10 ^ 19).
Proof.
  apply (proj1 (powers_of_ten_uint64_table 19)). lia.
Defined.

Lemma strip_zeros_split p :
  exists zeros, p = zeros ++ strip_zeros p /\ Forall (fun c => c = 48) zeros.
Proof.
  induction p as [| c l IH].
  - exists []. split; [reflexivity | constructor].
  - cbn [strip_zeros]. destruct (Z.eqb_spec c 48) as [-> | Hne].
    + destruct IH as (zeros & E & Hz). exists (48 :: zeros). split.
      * cbn [app]. f_equal. exact E.
      * constructor; [reflexivity | exact Hz].
    + exists []. split; [reflexivity | constructor].
Qed.

(** X11: [skip_zeros] terminates, drops exactly the leading ['0'] code
    units (the block loop and the unit loop together, whatever the block
    length), leaves a span that does not start with ['0'], and is
    idempotent. *)
Theorem skip_zeros_strips (int_cmp_len : nat) (p : list Z) :
  (1 <= int_cmp_len)%nat ->
  exists zeros rest,
    skip_zeros int_cmp_len p = Some rest /\
    p = zeros ++ rest /\
    Forall (fun c => c = 48) zeros /\
    match rest with [] => True | c :: _ => c <> 48 end /\
    skip_zeros int_cmp_len rest = Some rest.
Proof.
  intros Hlen.
  destruct (strip_zeros_split p) as (zeros & E & Hz).
  exists zeros, (strip_zeros p).
  split; [apply skip_zeros_spec; exact Hlen |].
  split; [exact E |]. split; [exact Hz |].
  split; [apply strip_zeros_head |].
  rewrite skip_zeros_spec by exact Hlen. rewrite strip_zeros_idem. reflexivity.
Qed.

Lemma skip_zeros_strips_witness :
  exists zeros rest,
    skip_zeros 4 [48; 48; 48; 48; 48; 49; 48] = Some rest /\
    [48; 48; 48; 48; 48; 49; 48] = zeros ++ rest /\
    Forall (fun c => c = 48) zeros /\
    match rest with [] => True | c :: _ => c <> 48 end /\
    skip_zeros 4 rest = Some rest.
Proof.
  apply (skip_zeros_strips 4 [48; 48; 48; 48; 48; 49; 48]). lia.
Defined.

Lemma any_nonzero_In p : any_nonzero p = true <-> exists c, In c p /\ c <> 48.
Proof.
  unfold any_nonzero. rewrite existsb_exists. split.
  - intros (c & Hin & Hc). exists c. split; [exact Hin |].
    destruct (Z.eqb_spec c 48); [discriminate | assumption].
  - intros (c & Hin & Hc). exists c. split; [exact Hin |].
    destruct (Z.eqb_spec c 48); [contradiction | reflexivity].
Qed.

(** X12: [is_truncated] terminates and returns [true] exactly when some
    code unit of the span is not ['0'], whatever the block length. *)
Theorem is_truncated_any_nonzero (int_cmp_len : nat) (p : list Z) :
  (1 <= int_cmp_len)%nat ->
  exists b,
    is_truncated int_cmp_len p = Some b /\
    (b = true <-> exists c, In c p /\ c <> 48) /\
    (b = false <-> Forall (fun c => c = 48) p).
Proof.
  intros Hlen. exists (any_nonzero p).
  split; [apply is_truncated_spec; exact Hlen |].
  split; [apply any_nonzero_In |].
  rewrite Forall_forall. split.
  - intros Hf c Hin. destruct (Z.eq_dec c 48) as [E | E]; [exact E |].
    assert (any_nonzero p = true) by (apply any_nonzero_In; exists c; auto).
    congruence.
  - intros Hall. destruct (any_nonzero p) eqn:E; [| reflexivity].
    apply any_nonzero_In in E. destruct E as (c & Hin & Hc).
    exfalso. apply Hc. apply Hall. exact Hin.
Qed.

Lemma is_truncated_any_nonzero_witness :
  exists b,
    is_truncated 8 [48; 48; 48; 48; 48; 48; 48; 48; 48; 55] = Some b /\
    (b = true <-> exists c, In c [48; 48; 48; 48; 48; 48; 48; 48; 48; 55] /\ c <> 48) /\
    (b = false <-> Forall (fun c => c = 48) [48; 48; 48; 48; 48; 48; 48; 48; 48; 55]).
Proof.
  apply (is_truncated_any_nonzero 8). lia.
Defined.

(** *** parse_mantissa *)

(** X13: when the number has fewer significant digits than [max_digits],
    [parse_mantissa] reads all of them: the big integer is the accumulator
    shifted by that many decimal places plus the digits' value, and [digits]
    is their count; nothing is rounded up. *)
Theorem parse_mantissa_all_digits (fastfloat_64bit uc_is_char : bool)
    (int_cmp_len : nat) (size_t_bits : Z) (result : bigint)
    (num : parsed_number_string) (max_digits : Z) :
  (1 <= int_cmp_len)%nat -> 8 <= size_t_bits ->
  0 <= max_digits /\ max_digits + 1 < 2 ^ size_t_bits ->
  digits_ok (integer num) ->
  (forall f, fraction num = Some f -> digits_ok f) ->
  let sd := significant_digits num in
  Z.of_nat (length sd) < max_digits ->
  parse_mantissa fastfloat_64bit uc_is_char int_cmp_len size_t_bits
    result num max_digits
  = Some (result * 10 ^ Z.of_nat (length sd) + dec_value sd, Z.of_nat (length sd)).
Proof.
  intros Hlen Hbits Hmax Hint Hfrac sd Hshort.
  rewrite (parse_mantissa_eq fastfloat_64bit uc_is_char int_cmp_len size_t_bits
             Hlen Hbits result num max_digits Hmax Hint Hfrac).
  unfold parse_mantissa_spec. fold sd.
  replace (Z.of_nat (length sd) <? max_digits) with true
    by (symmetry; apply Z.ltb_lt; exact Hshort).
  reflexivity.
Qed.

Lemma parse_mantissa_all_digits_witness :
  parse_mantissa false false 2 32 0
    (mk_num (-4) 1234 [48; 48; 49; 50] (Some [51; 52; 48])) 10
  = Some (12340, 5).
Proof.
  refine (parse_mantissa_all_digits false false 2 32 0
            (mk_num (-4) 1234 [48; 48; 49; 50] (Some [51; 52; 48])) 10 _ _ _ _ _ _).
  - lia.
  - lia.
  - split; [lia | reflexivity].
  - repeat constructor; cbn; lia.
  - intros f Hf. injection Hf as <-. repeat constructor; cbn; lia.
  - cbn. lia.
Defined.

(** X14: [parse_mantissa] returns the same big integer and digit count for
    every build configuration (limb width, the 8-digit path for [char],
    block length, width of [size_t]), and the digit count is at most
    [max_digits + 1]. *)
Theorem parse_mantissa_configuration
    (fastfloat_64bit fastfloat_64bit' uc_is_char uc_is_char' : bool)
    (int_cmp_len int_cmp_len' : nat) (size_t_bits size_t_bits' : Z)
    (result : bigint) (num : parsed_number_string) (max_digits : Z) :
  (1 <= int_cmp_len)%nat -> (1 <= int_cmp_len')%nat ->
  8 <= size_t_bits -> 8 <= size_t_bits' ->
  0 <= max_digits ->
  max_digits + 1 < 2 ^ size_t_bits -> max_digits + 1 < 2 ^ size_t_bits' ->
  digits_ok (integer num) ->
  (forall f, fraction num = Some f -> digits_ok f) ->
  parse_mantissa fastfloat_64bit uc_is_char int_cmp_len size_t_bits
    result num max_digits
  = parse_mantissa fastfloat_64bit' uc_is_char' int_cmp_len' size_t_bits'
      result num max_digits /\
  exists big digits,
    parse_mantissa fastfloat_64bit uc_is_char int_cmp_len size_t_bits
      result num max_digits = Some (big, digits) /\
    0 <= digits <= max_digits + 1.
Proof.
  intros Hl Hl' Hb Hb' H0 Hm Hm' Hint Hfrac.
  rewrite (parse_mantissa_eq fastfloat_64bit uc_is_char int_cmp_len size_t_bits
             Hl Hb result num max_digits (conj H0 Hm) Hint Hfrac).
  rewrite (parse_mantissa_eq fastfloat_64bit' uc_is_char' int_cmp_len' size_t_bits'
             Hl' Hb' result num max_digits (conj H0 Hm') Hint Hfrac).
  split; [reflexivity |].
  unfold parse_mantissa_spec.
  destruct (Z.ltb_spec (Z.of_nat (length (significant_digits num))) max_digits).
  - eexists _, _. split; [reflexivity | lia].
  - destruct (any_nonzero _); eexists _, _; (split; [reflexivity | lia]).
Qed.

Lemma parse_mantissa_configuration_witness :
  parse_mantissa true true 8 64 0
    (mk_num (-4) 123456789 [49; 50; 51; 52; 53; 54; 55; 56; 57; 48; 49] None) 30
  = parse_mantissa false false 2 32 0
    (mk_num (-4) 123456789 [49; 50; 51; 52; 53; 54; 55; 56; 57; 48; 49] None) 30.
Proof.
  refine (proj1 (parse_mantissa_configuration true false true false 8 2 64 32 0
            (mk_num (-4) 123456789 [49; 50; 51; 52; 53; 54; 55; 56; 57; 48; 49] None) 30
            _ _ _ _ _ _ _ _ _)).
  - lia.
  - lia.
  - lia.
  - lia.
  - lia.
  - reflexivity.
  - reflexivity.
  - repeat constructor; cbn; lia.
  - intros f Hf. discriminate Hf.
Defined.

Lemma all_zero_strip l : Forall (fun c => c = 48) l -> strip_zeros l = [] /\ digits_ok l.
Proof.
  induction 1 as [| c l Hc Hl (IH1 & IH2)].
  - split; [reflexivity | constructor].
  - subst c. cbn [strip_zeros]. rewrite Z.eqb_refl. split; [exact IH1 |].
    constructor; [lia | exact IH2].
Qed.

(** X15: on a number whose digits are all ['0'] (empty spans included)
    [parse_mantissa] leaves the big integer unchanged and reports zero
    digits. *)
Theorem parse_mantissa_zero (fastfloat_64bit uc_is_char : bool)
    (int_cmp_len : nat) (size_t_bits : Z) (result : bigint)
    (num : parsed_number_string) (max_digits : Z) :
  (1 <= int_cmp_len)%nat -> 8 <= size_t_bits ->
  0 <= max_digits /\ max_digits + 1 < 2 ^ size_t_bits ->
  Forall (fun c => c = 48) (integer num) ->
  (forall f, fraction num = Some f -> Forall (fun c => c = 48) f) ->
  parse_mantissa fastfloat_64bit uc_is_char int_cmp_len size_t_bits
    result num max_digits
  = Some (result, 0).
Proof.
  intros Hlen Hbits Hmax Hint Hfrac.
  destruct (all_zero_strip _ Hint) as (Ei & Hi).
  assert (Hf : forall f, fraction num = Some f -> digits_ok f).
  { intros f Ef. apply (all_zero_strip f). apply Hfrac. exact Ef. }
  assert (Hsd : significant_digits num = []).
  { unfold significant_digits. rewrite Ei.
    destruct (fraction num) as [f |] eqn:Ef; [| reflexivity].
    apply (all_zero_strip f). apply Hfrac. reflexivity. }
  rewrite (parse_mantissa_eq fastfloat_64bit uc_is_char int_cmp_len size_t_bits
             Hlen Hbits result num max_digits Hmax Hi Hf).
  unfold parse_mantissa_spec. rewrite Hsd. cbn [length Z.of_nat].
  destruct (Z.ltb_spec 0 max_digits) as [Hp | Hz].
  - cbn [dec_value fold_left]. f_equal. f_equal. unfold bigint in *. lia.
  - assert (max_digits = 0) by lia. subst max_digits.
    cbn. f_equal. f_equal. unfold bigint in *. lia.
Qed.

Lemma parse_mantissa_zero_witness :
  parse_mantissa true true 8 64 7 (mk_num 0 0 [48; 48] (Some [48; 48; 48])) 769
  = Some (7, 0).
Proof.
  refine (parse_mantissa_zero true true 8 64 7
            (mk_num 0 0 [48; 48] (Some [48; 48; 48])) 769 _ _ _ _ _).
  - lia.
  - lia.
  - split; [lia | reflexivity].
  - repeat constructor.
  - intros f Hf. injection Hf as <-. repeat constructor.
Defined.

(** *** The rounding callbacks on their own *)

Lemma tie_even_parts M shift : is_u64 M -> 1 <= shift <= 64 ->
  let m := if shift =? 64 then 0 else Z.shiftr M shift in
  let bits := Z.land M (if shift =? 64 then UINT64_MAX else 2 ^ shift - 1) in
  M = m * 2 ^ shift + bits /\ 0 <= bits < 2 ^ shift /\
  0 <= m < 2 ^ (64 - shift) /\ 2 ^ shift = 2 * 2 ^ (shift - 1).
Proof.
  intros HM Hs m bits. unfold is_u64 in HM.
  assert (E2 : 2 ^ shift = 2 * 2 ^ (shift - 1)).
  { replace shift with (shift - 1 + 1) at 1 by ring. apply pow2_Z_succ. lia. }
  assert (Hm : m = M / 2 ^ shift).
  { subst m. destruct (Z.eqb_spec shift 64) as [-> | Hne].
    - symmetry. apply Z.div_small. lia.
    - apply Z.shiftr_div_pow2. lia. }
  assert (Hb : bits = M mod 2 ^ shift).
  { subst bits. destruct (Z.eqb_spec shift 64) as [-> | Hne].
    - unfold UINT64_MAX. apply land_mask_mod. lia.
    - apply land_mask_mod. lia. }
  rewrite Hm, Hb.
  assert (0 < 2 ^ shift) by (apply Z.pow_pos_nonneg; lia).
  pose proof (Z.div_mod M (2 ^ shift) ltac:(lia)).
  pose proof (Z.mod_pos_bound M (2 ^ shift) ltac:(lia)).
  split; [lia |]. split; [lia |]. split; [| exact E2].
  split; [apply Z.div_pos; lia |].
  apply Z.div_lt_upper_bound; [lia |].
  rewrite <- Z.pow_add_r by lia. replace (shift + (64 - shift)) with 64 by ring. lia.
Qed.

(** X16: for a shift between 1 and 64, [round_nearest_tie_even] with the
    tie rule of [positive_digit_comp] rounds [mantissa / 2^shift] to a nearest
    integer [r] without overflow; on a tie it goes up when digits were
    truncated and to the even neighbour otherwise. *)
Theorem round_nearest_tie_even_nearest (M P shift : Z) (truncated : bool) :
  is_u64 M -> 1 <= shift <= 64 ->
  exists r,
    round_nearest_tie_even (mk_am M P) shift (positive_tie truncated)
      = Some (mk_am r (i32 (P + shift))) /\
    2 * Z.abs (r * 2 ^ shift - M) <= 2 ^ shift /\
    (2 * Z.abs (r * 2 ^ shift - M) = 2 ^ shift ->
     if truncated then M < r * 2 ^ shift else Z.even r = true) /\
    0 <= r <= 2 ^ (64 - shift).
Proof.
  intros HM Hs.
  destruct (tie_even_parts M shift HM Hs) as (EM & Hbits & Hm & E2).
  cbv zeta in EM, Hbits, Hm.
  rewrite round_nearest_tie_even_some by lia. cbn [mantissa power2]. cbv zeta.
  replace (shift =? 0) with false by (symmetry; apply Z.eqb_neq; lia).
  set (m := if shift =? 64 then 0 else Z.shiftr M shift) in *.
  set (bits := Z.land M (if shift =? 64 then UINT64_MAX else 2 ^ shift - 1)) in *.
  rewrite odd_land_1.
  set (h := 2 ^ (shift - 1)) in *.
  assert (Hh : 0 < h) by (subst h; apply Z.pow_pos_nonneg; lia).
  assert (H64 : 2 ^ (64 - shift) <= 2 ^ 63) by (apply Z.pow_le_mono_r; lia).
  assert (Hu : forall b : bool, u64 (m + (if b then 1 else 0)) = m + (if b then 1 else 0)).
  { intros b. apply u64_small. unfold is_u64. destruct b; lia. }
  rewrite Hu. eexists. split; [reflexivity |].
  unfold positive_tie. rewrite Z.gtb_ltb.
  destruct (Z.ltb_spec h bits) as [Habove | Hnot]; cbn [orb].
  - split; [nia |]. split; [intros; nia | lia].
  - destruct (Z.eqb_spec bits h) as [Hhalf | Hbelow]; cbn [andb orb].
    + destruct truncated; cbn [andb orb].
      * split; [nia |]. split; [intros _; nia | lia].
      * rewrite andb_true_r.
        destruct (Z.odd m) eqn:Eo.
        { split; [nia |]. split; [| lia]. intros _.
          rewrite Z.even_add, <- Z.negb_odd, Eo. reflexivity. }
        { rewrite Z.add_0_r. split; [nia |]. split; [| lia]. intros _.
          rewrite <- Z.negb_odd, Eo. reflexivity. }
    + rewrite !andb_false_r. cbn [orb].
      rewrite Z.add_0_r. split; [nia |]. split; [intros; nia | lia].
Qed.

Lemma round_nearest_tie_even_nearest_witness :
  exists r,
    round_nearest_tie_even (mk_am 44 0) 3 (positive_tie false)
      = Some (mk_am r (i32 (0 + 3))) /\
    2 * Z.abs (r * 2 ^ 3 - 44) <= 2 ^ 3 /\
    (2 * Z.abs (r * 2 ^ 3 - 44) = 2 ^ 3 -> Z.even r = true) /\
    0 <= r <= 2 ^ (64 - 3).
Proof.
  apply (round_nearest_tie_even_nearest 44 0 3 false).
  - unfold is_u64; lia.
  - lia.
Defined.

Lemma tie_even_shift_zero M P truncated :
  round_nearest_tie_even (mk_am M P) 0 (positive_tie truncated)
  = Some (mk_am (u64 (M + (if truncated || Z.odd M then 1 else 0))) (i32 P)).
Proof.
  rewrite round_nearest_tie_even_some by lia. cbn [mantissa power2]. cbv zeta.
  cbn [Z.eqb]. rewrite Z.shiftr_0_r, Z.add_0_r, odd_land_1.
  change (2 ^ 0 - 1) with 0. rewrite Z.land_0_r. cbn [Z.eqb Z.gtb Z.compare].
  unfold positive_tie. cbn [orb andb]. rewrite andb_true_r. reflexivity.
Qed.

(** X17: with a shift of 0 no bit is discarded, yet the discarded bits
    compare equal to the halfway constant 0: [round_nearest_tie_even] then
    adds one to an odd mantissa (wrapping [UINT64_MAX] to 0), while
    [round_down] leaves the mantissa unchanged. *)
Theorem round_nearest_tie_even_shift_zero (M P : Z) (truncated : bool) :
  round_nearest_tie_even (mk_am M P) 0 (positive_tie truncated)
    = Some (mk_am (u64 (M + (if truncated || Z.odd M then 1 else 0))) (i32 P)) /\
  round_down (mk_am M P) 0 = Some (mk_am M (i32 P)) /\
  (Z.odd M = true ->
   round_nearest_tie_even (mk_am M P) 0 (positive_tie false)
     = Some (mk_am (u64 (M + 1)) (i32 P))) /\
  round_nearest_tie_even (mk_am UINT64_MAX P) 0 (positive_tie false)
    = Some (mk_am 0 (i32 P)).
Proof.
  split; [apply tie_even_shift_zero |].
  split.
  { rewrite round_down_some by lia. cbn [mantissa power2 Z.eqb].
    rewrite Z.shiftr_0_r, Z.add_0_r. reflexivity. }
  split.
  { intros Hodd. rewrite tie_even_shift_zero, Hodd. reflexivity. }
  rewrite tie_even_shift_zero. reflexivity.
Qed.

Lemma round_nearest_tie_even_shift_zero_witness :
  round_nearest_tie_even (mk_am 7 5) 0 (positive_tie false)
    = Some (mk_am (u64 (7 + 1)) (i32 5)).
Proof.
  refine (proj1 (proj2 (proj2 (round_nearest_tie_even_shift_zero 7 5 false))) _).
  reflexivity.
Defined.

(** *** The fields that [round] returns *)

Lemma clearbit_range x n : 0 <= n -> 0 <= x < 2 ^ (n + 1) ->
  0 <= Z.clearbit x n < 2 ^ n.
Proof.
  intros Hn Hx. pose proof (pow2_Z_succ n Hn) as Hs.
  destruct (Z.lt_ge_cases x (2 ^ n)) as [Hlow | Hhigh].
  - assert (E : Z.clearbit x n = x).
    { apply Z.bits_inj'. intros k Hk.
      destruct (Z.eq_dec k n) as [-> | Hne].
      - rewrite Z.clearbit_eq by lia. symmetry. apply (testbit_above x n n); lia.
      - rewrite Z.clearbit_neq by lia. reflexivity. }
    rewrite E. lia.
  - rewrite clearbit_hidden by lia. lia.
Qed.

Section RoundFields.

Variable fmt : binary_format.
Hypothesis fmt_ok : format_ok fmt.

Local Abbreviation eb := (mantissa_explicit_bits fmt).

Lemma round_fields_run M P (cb : shift_fn) m' :
  - 2 ^ 30 <= P <= 2 ^ 30 ->
  let s := round_shift fmt P in
  cb (mk_am M P) s = Some (mk_am m' (i32 (P + s))) ->
  0 <= m' <= 2 ^ (64 - s) ->
  exists r,
    round fmt (mk_am M P) cb = Some r /\
    0 <= power2 r <= infinite_power fmt /\
    0 <= mantissa r <= 2 ^ eb /\
    (P <= eb - 63 ->
     mantissa r = m' /\ power2 r = (if m' <? 2 ^ eb then 0 else 1)) /\
    (eb - 63 < P -> 1 <= power2 r /\ mantissa r < 2 ^ eb) /\
    (power2 r = infinite_power fmt -> mantissa r = 0).
Proof.
  intros HP s Hcb Hm'.
  pose proof (fmt_eb fmt fmt_ok) as Heb. pose proof (fmt_infp fmt fmt_ok) as Hinf.
  pose proof (pow2_eb_pos fmt fmt_ok) as Hpos.
  pose proof (pow2_Z_succ eb ltac:(lia)) as Hsucc.
  assert (HPi : is_i32 P).
  { unfold is_i32. change (2 ^ 31) with 2147483648. change (2 ^ 30) with 1073741824 in HP. lia. }
  destruct (round_regime fmt fmt_ok P HPi ltac:(lia)) as (E1 & E2 & E3 & E4).
  pose proof (round_shift_range fmt fmt_ok P) as Hs. fold s in Hs.
  assert (HPs : i32 (P + s) = P + s).
  { apply i32_small. unfold is_i32. change (2 ^ 31) with 2147483648.
    change (2 ^ 30) with 1073741824 in HP. lia. }
  rewrite HPs in Hcb.
  unfold round_shift in s. revert Hs Hcb Hm'. subst s.
  destruct (Z.leb_spec P (eb - 63)) as [Hden | Hnor]; intros Hs Hcb Hm'.
  - set (s := Z.min (1 - P) 64) in *.
    assert (Hle : 2 ^ (64 - s) <= 2 ^ eb) by (apply Z.pow_le_mono_r; lia).
    eexists. split.
    { unfold round. cbn [power2 mantissa]. rewrite E3, E4.
      replace (P <=? eb - 63) with true by (symmetry; apply Z.leb_le; lia).
      fold s. rewrite Hcb. cbn [bind mantissa power2].
      rewrite shl64_one by lia. cbn [bind]. reflexivity. }
    cbn [mantissa power2].
    destruct (Z.ltb_spec m' (2 ^ eb)); repeat split; try lia.
  - destruct (round_normal_run fmt (mk_am M P) cb) as [_ Hr];
      cbn [power2]; try lia; try exact HPi.
    replace (64 - eb - 1) with (63 - eb) in Hr by ring.
    replace (64 - (63 - eb)) with (eb + 1) in Hm' by ring.
    eexists. split.
    { apply (Hr _ Hcb); cbn [mantissa power2].
      - unfold is_u64. pose proof (pow2_lt_64 (eb + 1) ltac:(lia)). lia.
      - unfold is_i32. change (2 ^ 31) with 2147483648.
        change (2 ^ 30) with 1073741824 in HP. lia. }
    unfold round_normal_spec. cbn [mantissa power2].
    destruct (Z.leb_spec (2 ^ (eb + 1)) m') as [Hcarry | Hnone]; cbn [mantissa power2].
    + pose proof (clearbit_range (2 ^ eb) eb ltac:(lia) ltac:(lia)) as Hc.
      destruct (Z.leb_spec (infinite_power fmt) (P + (63 - eb) + 1));
        cbn [mantissa power2]; repeat split; lia.
    + pose proof (clearbit_range m' eb ltac:(lia) ltac:(lia)) as Hc.
      destruct (Z.leb_spec (infinite_power fmt) (P + (63 - eb)));
        cbn [mantissa power2]; repeat split; lia.
Qed.

End RoundFields.

(** X18: for every 64-bit mantissa and every tie rule, [round] returns
    fields of the format: [0 <= power2 <= infinite_power] and
    [mantissa <= 2^explicit_bits].  In the denormal regime [power2] is 0 or
    1, and 1 exactly when the mantissa reached the hidden bit, which is then
    kept in [mantissa]; in the normal regime [power2 >= 1] and the hidden bit
    is masked; at [infinite_power] the mantissa is 0.  With [round_down] the
    mantissa stays below the hidden bit and a denormal keeps [power2 = 0]. *)
Theorem round_result_fields (fmt : binary_format) (M P : Z) (tie : tie_fn) :
  format_ok fmt -> is_u64 M -> - 2 ^ 30 <= P <= 2 ^ 30 ->
  let eb := mantissa_explicit_bits fmt in
  (exists r,
     round fmt (mk_am M P) (fun a sh => round_nearest_tie_even a sh tie) = Some r /\
     0 <= power2 r <= infinite_power fmt /\
     0 <= mantissa r <= 2 ^ eb /\
     (mantissa r = 2 ^ eb -> power2 r = 1 /\ P <= eb - 63) /\
     (P <= eb - 63 -> power2 r = (if mantissa r <? 2 ^ eb then 0 else 1)) /\
     (eb - 63 < P -> 1 <= power2 r) /\
     (power2 r = infinite_power fmt -> mantissa r = 0)) /\
  (exists r,
     round fmt (mk_am M P) round_down = Some r /\
     0 <= power2 r <= infinite_power fmt /\
     0 <= mantissa r < 2 ^ eb /\
     (P <= eb - 63 -> power2 r = 0) /\
     (eb - 63 < P -> 1 <= power2 r) /\
     (power2 r = infinite_power fmt -> mantissa r = 0)).
Proof.
  intros Hok HM HP eb.
  pose proof (fmt_eb fmt Hok) as Heb. fold eb in Heb.
  pose proof (round_shift_range fmt Hok P) as Hs.
  set (s := round_shift fmt P) in *.
  set (m := if s =? 64 then 0 else Z.shiftr M s).
  assert (Hm : 0 <= m < 2 ^ (64 - s)).
  { subst m. destruct (Z.eqb_spec s 64) as [E | E].
    - rewrite E. cbn. lia.
    - rewrite Z.shiftr_div_pow2 by lia. apply shifted_bounds; [lia | exact HM]. }
  assert (Hden : P <= eb - 63 -> 2 ^ (64 - s) <= 2 ^ eb).
  { intros Hd. apply Z.pow_le_mono_r; [lia |]. subst s. unfold round_shift. fold eb.
    replace (P <=? eb - 63) with true by (symmetry; apply Z.leb_le; lia). lia. }
  split.
  - set (up := tie (Z.land m 1 =? 1)
                 (Z.land M (if s =? 64 then UINT64_MAX else 2 ^ s - 1)
                    =? (if s =? 0 then 0 else 2 ^ (s - 1)))
                 (Z.land M (if s =? 64 then UINT64_MAX else 2 ^ s - 1)
                    >? (if s =? 0 then 0 else 2 ^ (s - 1)))).
    assert (H64 : 2 ^ (64 - s) <= 2 ^ 63) by (apply Z.pow_le_mono_r; lia).
    assert (Hrun : round_nearest_tie_even (mk_am M P) s tie
                   = Some (mk_am (m + (if up then 1 else 0)) (i32 (P + s)))).
    { rewrite round_nearest_tie_even_some by lia. cbn [mantissa power2]. cbv zeta.
      fold m. fold up. rewrite u64_small; [reflexivity |].
      unfold is_u64. destruct up; lia. }
    destruct (round_fields_run fmt Hok M P
                (fun a sh => round_nearest_tie_even a sh tie)
                (m + (if up then 1 else 0)) HP Hrun
                ltac:(fold s; destruct up; lia))
      as (r & Hr & Hp & Hmr & Hd & Hn & Hi).
    fold eb in Hmr, Hd, Hn.
    exists r. split; [exact Hr |]. split; [exact Hp |]. split; [exact Hmr |].
    split.
    { intros Hfull. destruct (Z.le_gt_cases P (eb - 63)) as [Hc | Hc].
      - destruct (Hd Hc) as (Em & Ep). rewrite <- Em, Hfull, Z.ltb_irrefl in Ep.
        split; [exact Ep | exact Hc].
      - destruct (Hn Hc). lia. }
    split.
    { intros Hc. destruct (Hd Hc) as (Em & Ep). rewrite Em. exact Ep. }
    split; [intros Hc; apply (Hn Hc) | exact Hi].
  - assert (Hrun : round_down (mk_am M P) s = Some (mk_am m (i32 (P + s)))).
    { rewrite round_down_some by lia. reflexivity. }
    destruct (round_fields_run fmt Hok M P round_down m HP Hrun ltac:(fold s; lia))
      as (r & Hr & Hp & Hmr & Hd & Hn & Hi).
    fold eb in Hmr, Hd, Hn.
    exists r. split; [exact Hr |]. split; [exact Hp |].
    assert (Hcase : (P <= eb - 63 -> power2 r = 0 /\ mantissa r < 2 ^ eb)).
    { intros Hc. destruct (Hd Hc) as (Em & Ep). specialize (Hden Hc).
      replace (m <? 2 ^ eb) with true in Ep by (symmetry; apply Z.ltb_lt; lia).
      split; [exact Ep | lia]. }
    split.
    { destruct (Z.le_gt_cases P (eb - 63)) as [Hc | Hc].
      - destruct (Hcase Hc). lia.
      - destruct (Hn Hc). lia. }
    split; [intros Hc; apply (Hcase Hc) |].
    split; [intros Hc; apply (Hn Hc) | exact Hi].
Qed.

Lemma round_result_fields_witness :
  exists r,
    round binary64 (mk_am (2 ^ 64 - 1) (- 1074))
      (fun a sh => round_nearest_tie_even a sh (positive_tie false)) = Some r /\
    0 <= power2 r <= infinite_power binary64 /\
    0 <= mantissa r <= 2 ^ mantissa_explicit_bits binary64.
Proof.
  destruct (round_result_fields binary64 (2 ^ 64 - 1) (- 1074) (positive_tie false)
              binary64_ok ltac:(unfold is_u64; lia) ltac:(lia))
    as ((r & Hr & Hp & Hm & _) & _).
  exists r. split; [exact Hr |]. split; [exact Hp | exact Hm].
Defined.

(** *** Decoding a bit pattern *)

Lemma land_drop_high a s n mask :
  0 <= n -> 0 <= a < 2 ^ n -> 0 <= s -> 0 <= mask < 2 ^ n ->
  Z.land (a + s * 2 ^ n) mask = Z.land a mask.
Proof.
  intros Hn Ha Hs Hmask. apply Z.bits_inj'. intros k Hk.
  rewrite !Z.land_spec, testbit_field by lia.
  destruct (Z.ltb_spec k n) as [Hlt | Hge]; [reflexivity |].
  rewrite (testbit_above mask n k) by lia. rewrite !andb_false_r. reflexivity.
Qed.

Section Decode.

Variable fmt : binary_format.
Hypothesis fmt_ok : format_ok fmt.

Local Abbreviation eb := (mantissa_explicit_bits fmt).

Lemma to_extended_sign f E sign :
  0 <= f < 2 ^ eb -> 0 <= E <= infinite_power fmt -> 0 <= sign ->
  let w := Z.log2 (infinite_power fmt) + 1 in
  to_extended fmt (f + E * 2 ^ eb + sign * 2 ^ (eb + w))
  = to_extended fmt (f + E * 2 ^ eb).
Proof.
  intros Hf HE Hsign w.
  pose proof (fmt_eb fmt fmt_ok) as Heb. pose proof (pow2_eb_pos fmt fmt_ok) as Hpos.
  destruct fmt_ok as (_ & _ & _ & (w' & Hw & Einf) & Ehid & Eman & Eexp & _).
  assert (Ew : w = w').
  { subst w. rewrite Einf.
    replace (2 ^ w' - 1) with (Z.pred (2 ^ w')) by lia.
    rewrite Z.log2_pred_pow2 by lia. lia. }
  rewrite Ew.
  assert (Hw0 : 0 < 2 ^ w') by (apply Z.pow_pos_nonneg; lia).
  assert (Hlow : 0 <= f + E * 2 ^ eb < 2 ^ (eb + w')).
  { rewrite Z.pow_add_r by lia. nia. }
  assert (Hm1 : 0 <= exponent_mask fmt < 2 ^ (eb + w')).
  { rewrite Eexp, Einf, Z.pow_add_r by lia. nia. }
  assert (Hm2 : 0 <= mantissa_mask fmt < 2 ^ (eb + w')).
  { rewrite Eman, Z.pow_add_r by lia. nia. }
  unfold to_extended.
  rewrite !(land_drop_high (f + E * 2 ^ eb) sign (eb + w')) by lia.
  reflexivity.
Qed.

End Decode.

(** X19: [to_extended] reads the fields of a bit pattern: an exponent
    field of 0 gives the denormal [mantissa = fraction], [power2 = 1 - bias];
    any other gives [fraction + hidden bit] and [exponent - bias].  The sign
    bit is ignored, and the mantissa has at most [explicit_bits + 1] bits. *)
Theorem to_extended_decodes (fmt : binary_format) (f E sign : Z) :
  format_ok fmt ->
  let eb := mantissa_explicit_bits fmt in
  let w := Z.log2 (infinite_power fmt) + 1 in
  0 <= f < 2 ^ eb -> 0 <= E <= infinite_power fmt -> 0 <= sign <= 1 ->
  let am := to_extended fmt (f + E * 2 ^ eb + sign * 2 ^ (eb + w)) in
  am = (if E =? 0 then mk_am f (1 - bias fmt) else mk_am (f + 2 ^ eb) (E - bias fmt)) /\
  0 <= mantissa am < 2 ^ (eb + 1) /\
  (E <> 0 -> 2 ^ eb <= mantissa am) /\
  1 - bias fmt <= power2 am <= infinite_power fmt - bias fmt.
Proof.
  intros Hok eb w Hf HE Hsign am.
  pose proof (fmt_eb fmt Hok) as Heb. fold eb in Heb.
  pose proof (pow2_Z_succ eb ltac:(lia)) as Hsucc.
  assert (Eam : am = if E =? 0 then mk_am f (1 - bias fmt)
                     else mk_am (f + 2 ^ eb) (E - bias fmt)).
  { subst am. etransitivity;
      [exact (to_extended_sign fmt Hok f E sign Hf HE ltac:(lia))
      | exact (to_extended_fields fmt Hok f E Hf HE)]. }
  split; [exact Eam |]. rewrite Eam.
  pose proof (fmt_infp fmt Hok) as Hinf.
  destruct (Z.eqb_spec E 0) as [E0 | E0]; cbn [mantissa power2];
    repeat split; lia.
Qed.

Lemma to_extended_decodes_witness :
  to_extended binary64 (1 + 1023 * 2 ^ 52 + 1 * 2 ^ (52 + (Z.log2 2047 + 1)))
  = mk_am (1 + 2 ^ 52) (1023 - bias binary64).
Proof.
  refine (proj1 (to_extended_decodes binary64 1 1023 1 binary64_ok _ _ _)).
  - cbn. lia.
  - cbn. lia.
  - lia.
Defined.

(** X20: [to_extended_halfway] of the float [b = m * 2^e] is
    [(2m + 1) * 2^(e - 1)] without overflow of the 64-bit mantissa: the
    number exactly halfway between [b] and the next float [(m + 1) * 2^e]. *)
Theorem to_extended_halfway_midpoint (fmt : binary_format) (f E : Z) :
  format_ok fmt ->
  let eb := mantissa_explicit_bits fmt in
  0 <= f < 2 ^ eb -> 0 <= E <= infinite_power fmt ->
  let bits := f + E * 2 ^ eb in
  let b := to_extended fmt bits in
  let h := to_extended_halfway fmt bits in
  h = mk_am (2 * mantissa b + 1) (power2 b - 1) /\
  is_u64 (mantissa h) /\
  (2 * am_value h
   == am_value b + inject_Z (mantissa b + 1) * Qpower 2 (power2 b))%Q /\
  (am_value b < am_value h)%Q /\
  (am_value h < inject_Z (mantissa b + 1) * Qpower 2 (power2 b))%Q.
Proof.
  intros Hok eb Hf HE bits b h.
  pose proof (fmt_eb fmt Hok) as Heb. fold eb in Heb.
  pose proof (fmt_bias fmt Hok) as Hb. pose proof (fmt_infp fmt Hok) as Hinf.
  pose proof (pow2_Z_succ eb ltac:(lia)) as Hsucc.
  pose proof (to_extended_fields fmt Hok f E Hf HE) as Eb. fold eb bits b in Eb.
  assert (Hmb : 0 <= mantissa b < 2 ^ (eb + 1) /\ - 2 ^ 31 < power2 b < 2 ^ 31).
  { rewrite Eb. change (2 ^ 31) with 2147483648. change (2 ^ 20) with 1048576 in *.
    destruct (Z.eqb_spec E 0); cbn [mantissa power2]; lia. }
  destruct Hmb as (Hm & Hp).
  assert (Eh : h = mk_am (2 * mantissa b + 1) (power2 b - 1)).
  { assert (Hbe : to_extended fmt bits = mk_am (mantissa b) (power2 b))
      by (unfold b; destruct (to_extended fmt bits); reflexivity).
    exact (to_extended_halfway_fields fmt Hok bits (mantissa b) (power2 b) Hbe Hm Hp). }
  split; [exact Eh |]. rewrite Eh. cbn [mantissa].
  split.
  { unfold is_u64. pose proof (pow2_lt_64 (eb + 1) ltac:(lia)).
    assert (2 ^ (eb + 1) <= 2 ^ 63) by (apply Z.pow_le_mono_r; lia). lia. }
  unfold am_value. cbn [mantissa power2].
  set (m := mantissa b) in *. set (e := power2 b) in *.
  pose proof (pow2_pred e) as Hpred. pose proof (pow2_pos (e - 1)) as Hpp.
  rewrite !inject_Z_plus, !inject_Z_mult. change (inject_Z 2) with 2%Q.
  change (inject_Z 1) with 1%Q.
  set (u := inject_Z m) in *. set (x := Qpower 2 (e - 1)) in *.
  set (y := Qpower 2 e) in *.
  split; [rewrite Hpred; ring |].
  split.
  - apply Qlt_le_trans with (u * (2 * x) + x)%Q.
    + rewrite Hpred. assert (0 < x)%Q by exact Hpp. lra.
    + apply Qle_lteq. right. ring.
  - rewrite Hpred. assert (0 < x)%Q by exact Hpp.
    apply Qle_lt_trans with (u * (2 * x) + x)%Q; [apply Qle_lteq; right; ring | lra].
Qed.

Lemma to_extended_halfway_midpoint_witness :
  to_extended_halfway binary64 (1 + 1023 * 2 ^ 52)
  = mk_am (2 * mantissa (to_extended binary64 (1 + 1023 * 2 ^ 52)) + 1)
          (power2 (to_extended binary64 (1 + 1023 * 2 ^ 52)) - 1).
Proof.
  refine (proj1 (to_extended_halfway_midpoint binary64 1 1023 binary64_ok _ _)).
  - cbn. lia.
  - cbn. lia.
Defined.

(** *** The two paths on their own *)







End FastFloatFacts.
